(** * Mython: the indentation-sensitive lexer and the tree-walking evaluator

    A shallow embedding of [src/mython/lexer.cpp], [src/mython/runtime.cpp]
    and [src/mython/statement.cpp], and the properties of the interpreter
    that are stated about them.

    Conventions of the embedding.
    - The character stream [std::istream& input_] is the list of the
      characters not yet extracted; the end of the stream is the empty list.
      Once an extraction has hit the end, the stream stays failed, so a
      later [putback] does nothing.
    - [char c = input_.get()] converts the [int] that [get] returns to a
      [char]; with a signed [char] the end-of-file value -1 and the byte 255
      become the same [char], and [c == EOF] holds for both.  [to_char]
      and [EOFc] write this out.
    - A C++ exception is the [Throw] alternative of [Result]; what the
      C++ standard leaves undefined (a null pointer dereferenced, [assert]
      failing) is [Throw (Undefined _)].
    - Recursion that is not structural takes a [fuel] argument; running out
      is [Throw OutOfFuel]. *)

From Stdlib Require Import ZArith Ascii String List Lia.
From stdpp Require Import base tactics option list strings gmap pretty.

Local Open Scope string_scope.
Local Open Scope list_scope.
Local Open Scope Z_scope.

#[local] Set Warnings "-register-all".

(** ** Errors and results *)

Inductive Error : Type :=
| LexerError (msg : string)
| RuntimeError (msg : string)
| OutOfRange (what : string)
| Undefined (what : string)
| OutOfFuel.

Inductive Result (A : Type) : Type :=
| Ok (a : A)
| Throw (e : Error).

Arguments Ok {A} a.
Arguments Throw {A} e.

#[global] Instance Result_ret : MRet Result := fun A a => Ok a.

#[global] Instance Result_bind : MBind Result := fun A B k r =>
  match r with
  | Ok a => k a
  | Throw e => Throw e
  end.

(** ** The lexer ([namespace parse]) *)

Module parse.

Module token_type.

Inductive Token : Type :=
| Number (value : Z)
| Id (value : string)
| Char (value : ascii)
| String (value : string)
| Class | Return | If | Else | Def
| Newline | Print | Indent | Dedent
| And | Or | Not
| Eq | NotEq | LessOrEq | GreaterOrEq
| None | True | False
| Eof.

End token_type.

Abbreviation Token := token_type.Token.

(** [operator==] on tokens compares the alternative and, for the four
    valued alternatives, the value: it is equality of the variant. *)
#[global] Instance Token_eq_dec : EqDecision Token.
Proof. solve_decision. Defined.

Definition NL : ascii := "010"%char.
Definition endl : string := String NL "".
Definition EOFc : ascii := "255"%char.
Definition TAB : ascii := "009"%char.
Definition DQUOTE : ascii := "034"%char.
Definition BACKSLASH : ascii := "092"%char.

Definition to_char (g : option ascii) : ascii := default EOFc g.

Definition get (inp : list ascii) : option ascii * list ascii :=
  match inp with
  | [] => (Datatypes.None, [])
  | c :: rest => (Some c, rest)
  end.

Definition putback (g : option ascii) (inp : list ascii) : list ascii :=
  match g with
  | Some c => c :: inp
  | Datatypes.None => inp
  end.

(** [input_.peek() == c], a comparison of [int]s: false at the end. *)
Definition peek_is (inp : list ascii) (c : ascii) : bool :=
  match inp with
  | x :: _ => Ascii.eqb x c
  | [] => false
  end.

Definition isdigit (c : ascii) : bool :=
  let n := N_of_ascii c in ((48 <=? n) && (n <=? 57))%N.

Definition isalpha (c : ascii) : bool :=
  let n := N_of_ascii c in
  (((65 <=? n) && (n <=? 90)) || ((97 <=? n) && (n <=? 122)))%N.

(** [getline(input_, tmp)]: drops the characters up to and including the
    next newline, or all of them when there is none. *)
Fixpoint getline (inp : list ascii) : list ascii :=
  match inp with
  | [] => []
  | c :: rest => if Ascii.eqb c NL then rest else getline rest
  end.

Fixpoint IgnoreSpaces (inp : list ascii) : list ascii :=
  match inp with
  | c :: rest => if Ascii.eqb c " " then IgnoreSpaces rest else inp
  | [] => []
  end.

(** The first loop of [IgnoreEmptyRawsAndComments]: the number of spaces
    dropped and what follows them. *)
Fixpoint count_spaces (inp : list ascii) : nat * list ascii :=
  match inp with
  | c :: rest =>
      if Ascii.eqb c " "
      then let '(n, r) := count_spaces rest in (S n, r)
      else (O, inp)
  | [] => (O, [])
  end.

Record Lexer : Type := mkLexer {
  input_ : list ascii;
  current_token_ : Token;
  current_indent_ : Z;
  diff_current_prev_indent_ : Z
}.

Definition with_input (lx : Lexer) (inp : list ascii) : Lexer :=
  mkLexer inp (current_token_ lx) (current_indent_ lx)
          (diff_current_prev_indent_ lx).

Definition with_token (lx : Lexer) (t : Token) : Lexer :=
  mkLexer (input_ lx) t (current_indent_ lx) (diff_current_prev_indent_ lx).

Fixpoint IgnoreEmptyRawsAndComments_rec (fuel : nat) (lx : Lexer)
  : Result Lexer :=
  match fuel with
  | O => Throw OutOfFuel
  | S fuel' =>
      let '(n, inp) := count_spaces (input_ lx) in
      if peek_is inp NL then
        IgnoreEmptyRawsAndComments_rec fuel' (with_input lx (tl inp))
      else if peek_is inp "#" then
        IgnoreEmptyRawsAndComments_rec fuel' (with_input lx (getline inp))
      else if Nat.eqb (n mod 2) 1 then
        Throw (LexerError "invalid indent")
      else
        Ok (mkLexer inp (current_token_ lx)
                    (Z.of_nat (n / 2))
                    (Z.of_nat (n / 2) - current_indent_ lx))
  end.

(** Every recursive call has extracted at least one character, so the
    length of the input bounds the depth of the recursion. *)
Definition IgnoreEmptyRawsAndComments (lx : Lexer) : Result Lexer :=
  IgnoreEmptyRawsAndComments_rec (S (length (input_ lx))) lx.

Fixpoint IgnoreInitialComments_rec (fuel : nat) (inp : list ascii)
  : Result (list ascii) :=
  match fuel with
  | O => Throw OutOfFuel
  | S fuel' =>
      let inp1 := IgnoreSpaces inp in
      if negb (peek_is inp1 "#") then Ok inp1
      else IgnoreInitialComments_rec fuel' (getline inp1)
  end.

Definition IgnoreInitialComments (inp : list ascii) : Result (list ascii) :=
  IgnoreInitialComments_rec (S (length inp)) inp.

Definition ParseIndentOrDedent (lx : Lexer) : Result (Token * Lexer) :=
  let d := diff_current_prev_indent_ lx in
  if 0 <? d then
    Ok (token_type.Indent,
        mkLexer (input_ lx) (current_token_ lx) (current_indent_ lx) (d - 1))
  else if d <? 0 then
    Ok (token_type.Dedent,
        mkLexer (input_ lx) (current_token_ lx) (current_indent_ lx) (d + 1))
  else Throw (LexerError "no indent or dedent").

(** [c = input_.get(); while (p(c)) { text += c; c = input_.get(); }]:
    the characters gathered and the last result of [get]. *)
Fixpoint read_while (p : ascii -> bool) (inp : list ascii)
  : list ascii * (option ascii * list ascii) :=
  match inp with
  | c :: rest =>
      if p c
      then let '(w, g) := read_while p rest in (c :: w, g)
      else ([], (Some c, rest))
  | [] => ([], (Datatypes.None, []))
  end.

Definition INT_MAX : Z := 2147483647.

Definition digit_value (c : ascii) : Z := Z.of_N (N_of_ascii c) - 48.

(** [stoi] on a run of decimal digits. *)
Definition stoi (number : list ascii) : Result Z :=
  let v := fold_left (fun acc c => 10 * acc + digit_value c) number 0 in
  if INT_MAX <? v then Throw (OutOfRange "stoi") else Ok v.

(** The loop of [ParseStringConstant], after the opening quote. *)
Fixpoint string_loop (quote : ascii) (inp : list ascii)
  : Result (list ascii * list ascii) :=
  match inp with
  | [] => Throw (LexerError "expected closing quote")
  | c :: rest =>
      if negb (Ascii.eqb c quote) && negb (Ascii.eqb c BACKSLASH) then
        '(str, r) ← string_loop quote rest; Ok (c :: str, r)
      else if Ascii.eqb c BACKSLASH then
        match rest with
        | [] => Throw (LexerError "expected closing quote")
        | e :: rest' =>
            let ch := if Ascii.eqb e "t" then TAB
                      else if Ascii.eqb e "n" then NL else e in
            '(str, r) ← string_loop quote rest'; Ok (ch :: str, r)
        end
      else Ok ([], rest)
  end.

Definition ParseStringConstant (inp : list ascii)
  : Result (Token * list ascii) :=
  let '(g, inp1) := get inp in
  let initial_quote := to_char g in
  if negb (Ascii.eqb initial_quote "'") && negb (Ascii.eqb initial_quote DQUOTE)
  then Throw (LexerError "expected opening qoute")
  else
    '(str, r) ← string_loop initial_quote inp1;
    Ok (token_type.String (string_of_list_ascii str), r).

Definition ParseComparisonOperand (inp : list ascii)
  : Result (Token * list ascii) :=
  let '(g1, inp1) := get inp in
  let '(g2, inp2) := get inp1 in
  let a := to_char g1 in
  let b := to_char g2 in
  if Ascii.eqb b "=" then
    if Ascii.eqb a "=" then Ok (token_type.Eq, inp2)
    else if Ascii.eqb a "!" then Ok (token_type.NotEq, inp2)
    else if Ascii.eqb a "<" then Ok (token_type.LessOrEq, inp2)
    else if Ascii.eqb a ">" then Ok (token_type.GreaterOrEq, inp2)
    else Throw (LexerError "expected comparison operand")
  else Throw (LexerError "expected comparison operand").

Definition is_ident_start (c : ascii) : bool := isalpha c || Ascii.eqb c "_".

Definition is_ident_cont (c : ascii) : bool :=
  Ascii.eqb c "_" || isdigit c || isalpha c.

(** The three tables the lexer consults are declared in [lexer.h]; the
    functions below take them as parameters. *)
Section Tables.

Variable special_symbols : ascii -> bool.
Variable comparison_symbols : ascii -> bool.
Variable keyword_to_token : string -> option Token.

Definition ParseNumber (inp : list ascii) : Result (Token * list ascii) :=
  let '(number, (g, rest)) := read_while isdigit inp in
  match number with
  | [] => Throw (LexerError "expected number")
  | _ :: _ =>
      let c := to_char g in
      if negb (Ascii.eqb c " ") && negb (Ascii.eqb c NL)
         && negb (Ascii.eqb c EOFc) && negb (special_symbols c)
      then Throw (LexerError
        "expected space or new line or end of file or special symbol")
      else v ← stoi number; Ok (token_type.Number v, putback g rest)
  end.

Definition ParseName (inp : list ascii) : Result (Token * list ascii) :=
  let '(g, inp1) := get inp in
  let c := to_char g in
  if negb (is_ident_start c) then Throw (LexerError "invalid keyword or id")
  else
    let '(more, (g', rest)) := read_while is_ident_cont inp1 in
    let name := string_of_list_ascii (c :: more) in
    match keyword_to_token name with
    | Some t => Ok (t, putback g' rest)
    | Datatypes.None => Ok (token_type.Id name, putback g' rest)
    end.

(** [return current_token_ = t;] *)
Definition emit (t : Token) (lx : Lexer) (inp : list ascii)
  : Result (Token * Lexer) :=
  Ok (t, with_token (with_input lx inp) t).

Definition emit_parsed (lx : Lexer) (r : Result (Token * list ascii))
  : Result (Token * Lexer) :=
  '(t, inp) ← r; emit t lx inp.

Definition is_layout (t : Token) : bool :=
  bool_decide (t = token_type.Newline) || bool_decide (t = token_type.Indent)
  || bool_decide (t = token_type.Dedent).

(** [NextToken] from [IgnoreSpaces()] on: the lexing of one token when no
    layout token is pending.  [next] is the recursive call of [NextToken]. *)
Definition Tokenize (next : Lexer -> Result (Token * Lexer)) (lx : Lexer)
  : Result (Token * Lexer) :=
  let inp0 := IgnoreSpaces (input_ lx) in
  let '(g, inp) := get inp0 in
  let c := to_char g in
  if isdigit c then emit_parsed lx (ParseNumber (putback g inp))
  else if Ascii.eqb c "'" || Ascii.eqb c DQUOTE then
    emit_parsed lx (ParseStringConstant (putback g inp))
  else if Ascii.eqb c EOFc then
    if is_layout (current_token_ lx) then emit token_type.Eof lx inp
    else emit token_type.Newline lx inp
  else if Ascii.eqb c NL then emit token_type.Newline lx inp
  else if Ascii.eqb c "#" then
    lx1 ← IgnoreEmptyRawsAndComments (with_input lx (getline inp));
    let c' := to_char (head (input_ lx1)) in
    if Ascii.eqb c' "#" then
      '(t, lx2) ← next lx1; Ok (t, with_token lx2 t)
    else if Ascii.eqb c' EOFc then emit token_type.Eof lx1 (input_ lx1)
    else emit token_type.Newline lx1 (input_ lx1)
  else if Ascii.eqb c "=" && negb (peek_is inp "=") then
    emit (token_type.Char "=") lx inp
  else if comparison_symbols c && peek_is inp "=" then
    emit_parsed lx (ParseComparisonOperand (putback g inp))
  else if special_symbols c then emit (token_type.Char c) lx inp
  else if is_ident_start c then emit_parsed lx (ParseName (putback g inp))
  else Throw (LexerError "parsing error").

Fixpoint NextToken_rec (fuel : nat) (lx : Lexer) : Result (Token * Lexer) :=
  match fuel with
  | O => Throw OutOfFuel
  | S fuel' =>
      if bool_decide (current_token_ lx = token_type.Eof)
      then Ok (token_type.Eof, lx)
      else
        lx1 ← (if bool_decide (current_token_ lx = token_type.Newline)
               then IgnoreEmptyRawsAndComments lx else Ok lx);
        if negb (diff_current_prev_indent_ lx1 =? 0) then
          '(t, lx2) ← ParseIndentOrDedent lx1; Ok (t, with_token lx2 t)
        else Tokenize (NextToken_rec fuel') lx1
  end.

(** The only recursive call comes after a ['#'] was extracted. *)
Definition NextToken (lx : Lexer) : Result (Token * Lexer) :=
  NextToken_rec (S (length (input_ lx))) lx.

(** The constructor [Lexer::Lexer].  The two indentation members start
    at 0: their declarations are in [lexer.h], and 0 is what the spec gives
    for both. *)
Definition Lexer_new (inp : list ascii) : Result Lexer :=
  inp1 ← IgnoreInitialComments inp;
  '(_, lx) ← NextToken (mkLexer inp1 token_type.Newline 0 0);
  Ok lx.

Definition CurrentToken (lx : Lexer) : Token := current_token_ lx.

(** The token stream a client reads: [CurrentToken()], then [NextToken()]
    until [Eof] comes. *)
Fixpoint token_stream (fuel : nat) (lx : Lexer) : Result (list Token) :=
  match fuel with
  | O => Throw OutOfFuel
  | S fuel' =>
      let t := CurrentToken lx in
      if bool_decide (t = token_type.Eof) then Ok [t]
      else
        '(_, lx') ← NextToken lx;
        ts ← token_stream fuel' lx';
        Ok (t :: ts)
  end.

Definition Lex (fuel : nat) (inp : list ascii) : Result (list Token) :=
  lx ← Lexer_new inp; token_stream fuel lx.

End Tables.

(** Modelled from the spec: [special_symbols], [comparison_symbols] and
    [keyword_to_token] are declared in [lexer.h], which is not among the
    sources.  The spec lists the punctuation emitted as [Char],
    [{ '+', '-', '*', '/', '(', ')', ',', '.', ':' }], and names ['<'] and
    ['>'], when no ['='] follows, as single-character tokens too.
    [NextToken] has a case of its own for ['='] and none for ['<'] and
    ['>']: where they are emitted as [Char] they come from this table, so
    the table holds them with the nine.  The spec also gives the
    characters that may start a two-character comparison,
    [{ '=', '!', '<', '>' }], and the twelve keywords.  The theorems about
    the lexer take the three tables as parameters; these definitions
    serve the examples. *)
Definition special_symbols (c : ascii) : bool :=
  bool_decide
    (c ∈ ["+"; "-"; "*"; "/"; "("; ")"; ","; "."; ":"; "<"; ">"]%char).

Definition comparison_symbols (c : ascii) : bool :=
  bool_decide (c ∈ ["="; "!"; "<"; ">"]%char).

Definition keyword_to_token (name : string) : option Token :=
  list_to_map (M := gmap string Token)
    [("class", token_type.Class); ("return", token_type.Return);
     ("if", token_type.If); ("else", token_type.Else);
     ("def", token_type.Def); ("print", token_type.Print);
     ("and", token_type.And); ("or", token_type.Or);
     ("not", token_type.Not); ("None", token_type.None);
     ("True", token_type.True); ("False", token_type.False)] !! name.

Definition Lex_spec (fuel : nat) (inp : list ascii) : Result (list Token) :=
  Lex special_symbols comparison_symbols keyword_to_token fuel inp.

End parse.

(** ** The shape of a source text, line by line

    The vocabulary in which the layout properties are stated: a source is
    a sequence of code lines, each with the blank and comment-only lines
    in front of it, its indent level and its text. *)

Module layout.

Import parse.

Definition spaces (n : nat) : list ascii := repeat " "%char n.

(** A line that layout resolution skips: only spaces, or spaces and a
    comment. *)
Inductive BlankLine : Type :=
| OnlySpaces (n : nat)
| CommentOnly (n : nat) (text : list ascii).

Definition render_blank (b : BlankLine) : list ascii :=
  match b with
  | OnlySpaces n => spaces n ++ [NL]
  | CommentOnly n text => spaces n ++ "#"%char :: text ++ [NL]
  end.

Definition blank_ok (b : BlankLine) : Prop :=
  match b with
  | OnlySpaces _ => True%type
  | CommentOnly _ text => NL ∉ text
  end.

Definition render_gap (g : list BlankLine) : list ascii :=
  concat (map render_blank g).

(** A character that begins code: layout resolution stops in front of it. *)
Definition code_char (c : ascii) : Prop :=
  c <> " "%char /\ c <> NL /\ c <> "#"%char.

Definition is_comment (b : BlankLine) : Prop :=
  match b with
  | OnlySpaces _ => False%type
  | CommentOnly _ _ => True%type
  end.

(** The end of the input, or the first character of a code line. *)
Definition code_start (inp : list ascii) : Prop :=
  match inp with
  | [] => True%type
  | c :: _ => code_char c
  end.

(** [k] calls of [NextToken], and [k] rounds of normal tokenization: the
    tokens returned and the lexer left behind. *)
Section Runs.

Variable special : ascii -> bool.
Variable comparison : ascii -> bool.
Variable keywords : string -> option Token.

Fixpoint run (k : nat) (lx : Lexer) : Result (list Token * Lexer) :=
  match k with
  | O => Ok ([], lx)
  | S k' =>
      '(t, lx1) ← NextToken special comparison keywords lx;
      '(ts, lx2) ← run k' lx1;
      Ok (t :: ts, lx2)
  end.

Fixpoint scan (next : Lexer -> Result (Token * Lexer)) (k : nat) (lx : Lexer)
  : Result (list Token * Lexer) :=
  match k with
  | O => Ok ([], lx)
  | S k' =>
      '(t, lx1) ← Tokenize special comparison keywords next lx;
      '(ts, lx2) ← scan next k' lx1;
      Ok (t :: ts, lx2)
  end.

(** [text] is the text of a code line with the tokens [ts]: it begins
    with a code character and, wherever it stands in front of a newline,
    normal tokenization reads exactly [ts] and the [Newline] off it,
    leaving the layout state alone.  This leaves out a text that does not
    tokenize, a string that runs over the end of the line, and a comment
    behind the code: the ['#'] branch of [NextToken] reads on into the
    next line and sets the layout state from it. *)
Definition tokenizes_to (text : list ascii) (ts : list Token) : Prop :=
  (exists c more, text = c :: more /\ code_char c) /\
  Forall (fun t => t <> token_type.Newline /\ t <> token_type.Eof) ts /\
  forall next cur ind rest,
    scan next (S (length ts)) (mkLexer (text ++ NL :: rest) cur ind 0) =
    Ok (ts ++ [token_type.Newline], mkLexer rest token_type.Newline ind 0).

End Runs.

(** A code line: the blank and comment-only lines in front of it, its
    indent level (two spaces each), its text and the tokens of the text. *)
Record CodeLine : Type := mkLine {
  gap : list BlankLine;
  level : nat;
  text : list ascii;
  toks : list Token
}.

Definition render_line (ln : CodeLine) : list ascii :=
  render_gap (gap ln) ++ spaces (2 * level ln) ++ text ln ++ [NL].

(** A source: code lines, and blank or comment-only lines after the last. *)
Definition render (lines : list CodeLine) (trailer : list BlankLine)
  : list ascii :=
  concat (map render_line lines) ++ render_gap trailer.

(** The layout tokens for going from level [prev] to level [new]:
    [new - prev] times [Indent] when that is positive, [prev - new] times
    [Dedent] when that is positive, none when the levels agree. *)
Definition layout_tokens (prev new : nat) : list Token :=
  repeat token_type.Indent (new - prev)
  ++ repeat token_type.Dedent (prev - new).

(** The token stream of a source: in front of each line the layout tokens
    for the change of level, then the line's tokens and one [Newline]; at
    the end the [Dedent]s back to level 0 and [Eof]. *)
Fixpoint expected (prev : nat) (lines : list CodeLine) : list Token :=
  match lines with
  | [] => layout_tokens prev 0 ++ [token_type.Eof]
  | ln :: rest =>
      layout_tokens prev (level ln) ++ toks ln ++ [token_type.Newline]
      ++ expected (level ln) rest
  end.

(** What [current_token_] holds when the layout tokens for going from
    [prev] to [new] are out and the first token of the line is due. *)
Definition after_layout (prev new : nat) : Token :=
  if (prev <? new)%nat then token_type.Indent
  else if (new <? prev)%nat then token_type.Dedent
  else token_type.Newline.

(** A line the layout properties speak about: its blank lines are blank
    and its text is the text of a code line with the tokens recorded. *)
Definition line_ok (special comparison : ascii -> bool)
    (keywords : string -> option Token) (ln : CodeLine) : Prop :=
  Forall blank_ok (gap ln)
  /\ tokenizes_to special comparison keywords (text ln) (toks ln).

(** The same lines with every blank and comment-only line removed. *)
Definition strip (lines : list CodeLine) : list CodeLine :=
  map (fun ln => mkLine [] (level ln) (text ln) (toks ln)) lines.

End layout.

(** ** The value model ([namespace runtime])

    An [ObjectHolder] is empty or refers to an object.  Numbers, strings,
    booleans and classes are never changed once built, so the embedding
    holds them by value; a class instance is changed in place through its
    field map and compared by address, so the embedding holds its address
    in a heap of instances.  Instances are never removed from the heap:
    the embedding does not follow the reference counts, and what the
    program does with a handle whose instance has been destroyed is not
    modelled.

    The AST refers to classes through [const Class&] and
    [ObjectHolder]; the embedding names a class by a [ClassId] and reads
    it from a table [classes], a parameter of the evaluator. *)

Module runtime.

Definition ClassId : Type := nat.

Inductive Object : Type :=
| Number (value : Z)
| String (value : string)
| Bool (value : bool)
| ClassRef (cls : ClassId)
| Instance (address : nat).

#[global] Instance Object_eq_dec : EqDecision Object.
Proof. solve_decision. Defined.

(** [Datatypes.None] is the empty handle, [ObjectHolder::None()]. *)
Abbreviation ObjectHolder := (option Object).

Abbreviation Closure := (gmap string ObjectHolder).

(** The six comparators of [runtime.cpp], which a [Comparison] node
    holds as a function. *)
Inductive Comparator : Type :=
| CmpEqual | CmpLess | CmpNotEqual | CmpGreater
| CmpLessOrEqual | CmpGreaterOrEqual.

(** The nodes whose [Execute] is defined in [statement.cpp].  (The
    literal nodes are class templates of [statement.h] and are not part
    of the embedding; a program gets its values from the scope.)
    [FieldAssignment] holds its [VariableValue] by value, here the dotted
    name; [ClassDefinition] and [NewInstance] name their class. *)
Inductive Statement : Type :=
| Assignment (var : string) (rv : Statement)
| VariableValue (dotted_ids : list string)
| Print (args : list Statement)
| MethodCall (object : Statement) (method : string) (args : list Statement)
| Stringify (argument : Statement)
| Add (lhs rhs : Statement)
| Sub (lhs rhs : Statement)
| Mult (lhs rhs : Statement)
| Div (lhs rhs : Statement)
| Compound (statements : list Statement)
| Return (statement : Statement)
| ClassDefinition (cls : ClassId)
| FieldAssignment (object : list string) (field_name : string)
                  (rv : Statement)
| IfElse (condition if_body : Statement) (else_body : option Statement)
| Or (lhs rhs : Statement)
| And (lhs rhs : Statement)
| Not (argument : Statement)
| Comparison (cmp : Comparator) (lhs rhs : Statement)
| NewInstance (class_ : ClassId) (args : list Statement)
| MethodBody (body : Statement).

Record Method : Type := mkMethod {
  name : string;
  formal_params : list string;
  body : Statement
}.

Inductive Class : Type :=
| mkClass (name_ : string) (methods_ : list Method) (parent_ : option Class).

Definition name_ (c : Class) : string :=
  match c with mkClass n _ _ => n end.

Definition methods_ (c : Class) : list Method :=
  match c with mkClass _ ms _ => ms end.

Definition parent_ (c : Class) : option Class :=
  match c with mkClass _ _ p => p end.

(** The index the constructor of [Class] fills: for [i] from 0 up,
    [name_to_method_index_[methods_[i].name] = i]. *)
Definition name_to_method_index_ (methods : list Method) : gmap string nat :=
  fold_left (fun idx '(i, m) => <[name m := i]> idx) (imap pair methods) ∅.

Fixpoint GetMethod (c : Class) (method : string) : option Method :=
  match c with
  | mkClass _ methods parent =>
      match name_to_method_index_ methods !! method with
      | Some i => methods !! i
      | Datatypes.None =>
          match parent with
          | Some p => GetMethod p method
          | Datatypes.None => Datatypes.None
          end
      end
  end.

Definition GetName (c : Class) : string := name_ c.

Record ClassInstance : Type := mkInstance {
  class_ : ClassId;
  fields_ : Closure
}.

(** What execution reads and changes besides the scope: the instances,
    by address, and the text written to the output stream of the
    context.  The embedding does not follow ownership: an instance keeps
    its place in [heap] also when the program has dropped its last owning
    handle, where the C++ code destroys it.  Such an instance cannot be
    reached from a scope any more; the properties below are about
    instances reached through a handle. *)
Record World : Type := mkWorld {
  heap : list ClassInstance;
  output : string
}.

Definition write (w : World) (text : string) : World :=
  mkWorld (heap w) (output w +:+ text).

Definition instance_at (w : World) (this : nat) : Result ClassInstance :=
  match heap w !! this with
  | Some inst => Ok inst
  | Datatypes.None => Throw (Undefined "no instance at this address")
  end.

Definition IsTrue (object : ObjectHolder) : bool :=
  match object with
  | Datatypes.None => false
  | Some (Bool b) => b
  | Some (Number n) => negb (n =? 0)
  | Some (String s) => negb (String.eqb s "")
  | Some _ => false
  end.

(** Arithmetic on [int]: the result is brought back into 32 bits
    (overflow of a signed [int] is undefined in C++; the embedding wraps
    around). *)
Definition wrap_int (z : Z) : Z := (z + 2 ^ 31) mod 2 ^ 32 - 2 ^ 31.

Section Runtime.

Variable classes : ClassId -> Class.

(** The text of [os << this], the address of the instance. *)
Variable address_repr : nat -> string.

(** [Execute] of a method body: the evaluator, with the fuel left. *)
Variable exec :
  Statement -> Closure -> World -> Result (ObjectHolder * Closure * World).

Definition HasMethod (inst : ClassInstance) (method : string)
    (argument_count : nat) : bool :=
  match GetMethod (classes (class_ inst)) method with
  | Some m => Nat.eqb (length (formal_params m)) argument_count
  | Datatypes.None => false
  end.

(** The scope of a call: [self] bound to the non-owning handle of the
    receiver, then [closure[formal_params[i]] = actual_args[i]] for each
    argument. *)
Definition call_closure (this : nat) (params : list string)
    (actual_args : list ObjectHolder) : Closure :=
  fold_left (fun cl '(p, a) => <[p := a]> cl) (zip params actual_args)
    (<["self" := Some (Instance this)]> ∅).

Definition Call (this : nat) (method : string)
    (actual_args : list ObjectHolder) (w : World)
  : Result (ObjectHolder * World) :=
  inst ← instance_at w this;
  if negb (HasMethod inst method (length actual_args))
  then Throw (RuntimeError "method not found")
  else
    match GetMethod (classes (class_ inst)) method with
    | Datatypes.None => Throw (Undefined "null method pointer")
    | Some m =>
        let closure := call_closure this (formal_params m) actual_args in
        '(result, closure', w') ← exec (body m) closure w;
        match closure' !! "self" with
        | Datatypes.None => Throw (OutOfRange "unordered_map::at")
        | Some self =>
            if bool_decide (self <> Some (Instance this))
            then Ok (self, w')
            else Ok (result, w')
        end
    end.

(** [object->Print(os, context)]: the text written to [os], and the world
    after the calls made to produce it.  [Bool::Print], [Class::Print] and
    [ClassInstance::Print] are in [runtime.cpp].  Modelled from the spec:
    [Print] of a number and of a string is [ValueObject<T>::Print] of
    [runtime.h], which is not among the sources; a number prints its
    decimal, a string its contents. *)
Definition PrintObject (object : Object) (w : World)
  : Result (string * World) :=
  match object with
  | Number n => Ok (pretty n, w)
  | String s => Ok (s, w)
  | Bool b => Ok (if b then "True" else "False", w)
  | ClassRef c => Ok ("Class " +:+ GetName (classes c), w)
  | Instance this =>
      inst ← instance_at w this;
      match GetMethod (classes (class_ inst)) "__str__" with
      | Some _ =>
          '(r, w') ← Call this "__str__" [] w;
          match r with
          | Some (String s) => Ok (s, w')
          | _ => Throw (Undefined "null pointer dereferenced")
          end
      | Datatypes.None => Ok (address_repr this, w)
      end
  end.

Definition Equal (lhs rhs : ObjectHolder) (w : World) : Result (bool * World) :=
  let fail := Throw (RuntimeError "Cannot compare objects for equality") in
  match lhs, rhs with
  | Datatypes.None, Datatypes.None => Ok (true, w)
  | Some (String l), Some (String r) => Ok (String.eqb l r, w)
  | Some (String _), _ => fail
  | Some (Number l), Some (Number r) => Ok (l =? r, w)
  | Some (Number _), _ => fail
  | Some (Bool l), Some (Bool r) => Ok (Bool.eqb l r, w)
  | Some (Bool _), _ => fail
  | Some (Instance this), _ =>
      inst ← instance_at w this;
      if HasMethod inst "__eq__" 1 then
        '(r, w') ← Call this "__eq__" [rhs] w; Ok (IsTrue r, w')
      else fail
  | _, _ => fail
  end.

Definition Less (lhs rhs : ObjectHolder) (w : World) : Result (bool * World) :=
  let fail := Throw (RuntimeError "Cannot compare objects for less") in
  match lhs, rhs with
  | Some (String l), Some (String r) => Ok (String.ltb l r, w)
  | Some (String _), _ => fail
  | Some (Number l), Some (Number r) => Ok (l <? r, w)
  | Some (Number _), _ => fail
  | Some (Bool l), Some (Bool r) => Ok (negb l && r, w)
  | Some (Bool _), _ => fail
  | Some (Instance this), _ =>
      inst ← instance_at w this;
      if HasMethod inst "__lt__" 1 then
        '(r, w') ← Call this "__lt__" [rhs] w; Ok (IsTrue r, w')
      else fail
  | _, _ => fail
  end.

Definition NotEqual (lhs rhs : ObjectHolder) (w : World)
  : Result (bool * World) :=
  '(e, w') ← Equal lhs rhs w; Ok (negb e, w').

(** [!(Less(lhs, rhs, context) || Equal(lhs, rhs, context))]: [Equal] is
    not called when [Less] holds. *)
Definition Greater (lhs rhs : ObjectHolder) (w : World)
  : Result (bool * World) :=
  '(l, w1) ← Less lhs rhs w;
  if (l : bool) then Ok (false, w1)
  else '(e, w2) ← Equal lhs rhs w1; Ok (negb e, w2).

Definition LessOrEqual (lhs rhs : ObjectHolder) (w : World)
  : Result (bool * World) :=
  '(g, w') ← Greater lhs rhs w; Ok (negb g, w').

Definition GreaterOrEqual (lhs rhs : ObjectHolder) (w : World)
  : Result (bool * World) :=
  '(l, w') ← Less lhs rhs w; Ok (negb l, w').

Definition compare (cmp : Comparator) :
    ObjectHolder -> ObjectHolder -> World -> Result (bool * World) :=
  match cmp with
  | CmpEqual => Equal
  | CmpLess => Less
  | CmpNotEqual => NotEqual
  | CmpGreater => Greater
  | CmpLessOrEqual => LessOrEqual
  | CmpGreaterOrEqual => GreaterOrEqual
  end.

End Runtime.

End runtime.

(** ** The evaluator ([namespace ast]) *)

Module ast.

Import runtime.

Definition ADD_METHOD : string := "__add__".
Definition INIT_METHOD : string := "__init__".

Abbreviation Outcome := (Result (ObjectHolder * Closure * World)).

Definition set_fields (w : World) (this : nat) (inst : ClassInstance)
    (fields : Closure) : World :=
  mkWorld (<[this := mkInstance (class_ inst) fields]> (heap w)) (output w).

(** [object = tmp->Fields()[id]] for each further segment of a dotted
    name: [operator[]] of the field map inserts an empty handle for a
    name it does not hold. *)
Fixpoint read_fields (object : ObjectHolder) (ids : list string) (w : World)
  : Result (ObjectHolder * World) :=
  match ids with
  | [] => Ok (object, w)
  | id :: more =>
      match object with
      | Some (Instance this) =>
          inst ← instance_at w this;
          match fields_ inst !! id with
          | Some value => read_fields value more w
          | Datatypes.None =>
              read_fields Datatypes.None more
                (set_fields w this inst
                   (<[id := Datatypes.None]> (fields_ inst)))
          end
      | _ => Throw (RuntimeError ("unknown field " +:+ id))
      end
  end.

Definition VariableValue_Execute (ids : list string) (closure : Closure)
    (w : World) : Outcome :=
  match ids with
  | [] => Throw (Undefined "ids_[0] of an empty vector")
  | id0 :: more =>
      match closure !! id0 with
      | Datatypes.None => Throw (RuntimeError ("unknown variable " +:+ id0))
      | Some object =>
          '(value, w') ← read_fields object more w; Ok (value, closure, w')
      end
  end.

Section Nodes.

Variable classes : ClassId -> Class.
Variable address_repr : nat -> string.
Variable exec : Statement -> Closure -> World -> Outcome.

Abbreviation Call' := (Call classes exec).
Abbreviation PrintObject' := (PrintObject classes address_repr exec).

(** [for (const auto& arg : args_) actual_args.push_back(arg->Execute(...))] *)
Fixpoint exec_args (args : list Statement) (closure : Closure) (w : World)
  : Result (list ObjectHolder * Closure * World) :=
  match args with
  | [] => Ok ([], closure, w)
  | arg :: more =>
      '(v, closure1, w1) ← exec arg closure w;
      '(vs, closure2, w2) ← exec_args more closure1 w1;
      Ok (v :: vs, closure2, w2)
  end.

(** The loop of [Print::Execute]. *)
Fixpoint print_args (args : list Statement) (closure : Closure) (w : World)
  : Result (Closure * World) :=
  match args with
  | [] => Ok (closure, w)
  | arg :: more =>
      '(v, closure1, w1) ← exec arg closure w;
      '(text, w2) ← match v with
                     | Some object => PrintObject' object w1
                     | Datatypes.None => Ok ("None", w1)
                     end;
      let w3 := write w2 text in
      let w4 := match more with [] => w3 | _ :: _ => write w3 " " end in
      print_args more closure1 w4
  end.

(** The loop of [Compound::Execute]. *)
Fixpoint exec_statements (statements : list Statement) (closure : Closure)
    (w : World) : Outcome :=
  match statements with
  | [] => Ok (Datatypes.None, closure, w)
  | statement :: more =>
      '(_, closure1, w1) ← exec statement closure w;
      if bool_decide (is_Some (closure1 !! "returned_value"))
      then Ok (Datatypes.None, closure1, w1)
      else exec_statements more closure1 w1
  end.

(** [Sub], [Mult] and [Div]: both operands must be numbers.  The C++
    code takes a raw pointer to the number out of the handle that each
    operand returns and reads it when that handle is gone.  For an operand
    whose value is held elsewhere (a variable, a field) this reads the
    value; for one whose value lives in the returned handle only (the
    result of another arithmetic node) the read is undefined, and so are
    an overflow and [INT_MIN / -1].  The embedding gives the arithmetic of
    the two values, brought back into 32 bits; the properties below do
    not turn on the value of a difference, product or quotient. *)
Definition arithmetic (lhs rhs : Statement) (closure : Closure) (w : World)
    (op : Z -> Z -> Result Z) (error : string) : Outcome :=
  '(l, closure1, w1) ← exec lhs closure w;
  '(r, closure2, w2) ← exec rhs closure1 w1;
  match l, r with
  | Some (Number a), Some (Number b) =>
      v ← op a b; Ok (Some (Number v), closure2, w2)
  | _, _ => Throw (RuntimeError error)
  end.

Definition NewInstance_Execute (cls : ClassId) (args : list Statement)
    (closure : Closure) (w : World) : Outcome :=
  let this := length (heap w) in
  let w0 := mkWorld (heap w ++ [mkInstance cls ∅]) (output w) in
  let object := Some (Instance this) in
  match GetMethod (classes cls) INIT_METHOD with
  | Datatypes.None => Ok (object, closure, w0)
  | Some method =>
      if negb (Nat.eqb (length (formal_params method)) (length args))
      then Ok (object, closure, w0)
      else
        '(actual_args, closure1, w1) ← exec_args args closure w0;
        '(after_init, w2) ← Call' this INIT_METHOD actual_args w1;
        match after_init with
        | Some _ => Ok (after_init, closure1, w2)
        | Datatypes.None => Ok (object, closure1, w2)
        end
  end.

Definition Stringify_Execute (argument : Statement) (closure : Closure)
    (w : World) : Outcome :=
  '(object, closure1, w1) ← exec argument closure w;
  match object with
  | Datatypes.None => Ok (Some (String "None"), closure1, w1)
  | Some (Instance this) =>
      inst ← instance_at w1 this;
      if HasMethod classes inst "__str__" 0 then
        '(r, w2) ← Call' this "__str__" [] w1;
        match r with
        | Datatypes.None => Throw (Undefined "empty handle dereferenced")
        | Some value =>
            '(text, w3) ← PrintObject' value w2;
            Ok (Some (String text), closure1, w3)
        end
      else
        '(text, w2) ← PrintObject' (Instance this) w1;
        Ok (Some (String text), closure1, w2)
  | Some value =>
      '(text, w2) ← PrintObject' value w1;
      Ok (Some (String text), closure1, w2)
  end.

Definition Add_Execute (lhs rhs : Statement) (closure : Closure) (w : World)
  : Outcome :=
  '(l, closure1, w1) ← exec lhs closure w;
  '(r, closure2, w2) ← exec rhs closure1 w1;
  let fail := Throw (RuntimeError "invalid add operation") in
  match l, r with
  | Some (Number a), Some (Number b) =>
      Ok (Some (Number (wrap_int (a + b))), closure2, w2)
  | Some (Number _), _ => fail
  | Some (String a), Some (String b) =>
      Ok (Some (String (a +:+ b)), closure2, w2)
  | Some (String _), _ => fail
  | Some (Instance this), _ =>
      inst ← instance_at w2 this;
      if HasMethod classes inst ADD_METHOD 1 then
        '(v, w3) ← Call' this ADD_METHOD [r] w2; Ok (v, closure2, w3)
      else fail
  | _, _ => fail
  end.

Definition MethodCall_Execute (object : Statement) (method : string)
    (args : list Statement) (closure : Closure) (w : World) : Outcome :=
  '(actual_args, closure1, w1) ← exec_args args closure w;
  '(receiver, closure2, w2) ← exec object closure1 w1;
  match receiver with
  | Some (Instance this) =>
      '(r, w3) ← Call' this method actual_args w2; Ok (r, closure2, w3)
  | _ => Throw (Undefined "null pointer dereferenced")
  end.

Definition FieldAssignment_Execute (object : list string)
    (field_name : string) (rv : Statement) (closure : Closure) (w : World)
  : Outcome :=
  '(target, closure1, w1) ← VariableValue_Execute object closure w;
  match target with
  | Some (Instance this) =>
      '(value, closure2, w2) ← exec rv closure1 w1;
      inst ← instance_at w2 this;
      Ok (value, closure2,
          set_fields w2 this inst (<[field_name := value]> (fields_ inst)))
  | _ => Throw (Undefined "null pointer dereferenced")
  end.

(** One node: [Execute] of [statement.cpp], node by node; the operands
    and the method bodies are run by [exec]. *)
Definition Execute_node (s : Statement) (closure : Closure) (w : World)
  : Outcome :=
  match s with
  | Assignment var rv =>
      '(v, closure1, w1) ← exec rv closure w;
      Ok (v, <[var := v]> closure1, w1)
  | VariableValue ids => VariableValue_Execute ids closure w
  | Print args =>
      '(closure1, w1) ← print_args args closure w;
      Ok (Datatypes.None, closure1, write w1 parse.endl)
  | MethodCall object method args =>
      MethodCall_Execute object method args closure w
  | Stringify argument => Stringify_Execute argument closure w
  | Add lhs rhs => Add_Execute lhs rhs closure w
  | Sub lhs rhs =>
      arithmetic lhs rhs closure w (fun a b => Ok (wrap_int (a - b)))
        "invalid subtract operation"
  | Mult lhs rhs =>
      arithmetic lhs rhs closure w (fun a b => Ok (wrap_int (a * b)))
        "invalid mult operation"
  | Div lhs rhs =>
      arithmetic lhs rhs closure w
        (fun a b => if b =? 0 then Throw (RuntimeError "division by zero")
                    else Ok (wrap_int (Z.quot a b)))
        "invalid div operation"
  | Compound statements => exec_statements statements closure w
  | Return statement =>
      '(v, closure1, w1) ← exec statement closure w;
      Ok (Datatypes.None, <["returned_value" := v]> closure1, w1)
  | ClassDefinition cls =>
      Ok (Datatypes.None,
          <[GetName (classes cls) := Some (ClassRef cls)]> closure, w)
  | FieldAssignment object field_name rv =>
      FieldAssignment_Execute object field_name rv closure w
  | IfElse condition if_body else_body =>
      '(c, closure1, w1) ← exec condition closure w;
      if IsTrue c then
        '(_, closure2, w2) ← exec if_body closure1 w1;
        Ok (Datatypes.None, closure2, w2)
      else
        match else_body with
        | Some else_body' =>
            '(_, closure2, w2) ← exec else_body' closure1 w1;
            Ok (Datatypes.None, closure2, w2)
        | Datatypes.None => Ok (Datatypes.None, closure1, w1)
        end
  | Or lhs rhs =>
      '(l, closure1, w1) ← exec lhs closure w;
      if negb (IsTrue l) then
        '(r, closure2, w2) ← exec rhs closure1 w1;
        Ok (Some (Bool (IsTrue r)), closure2, w2)
      else Ok (Some (Bool true), closure1, w1)
  | And lhs rhs =>
      '(l, closure1, w1) ← exec lhs closure w;
      if IsTrue l then
        '(r, closure2, w2) ← exec rhs closure1 w1;
        Ok (Some (Bool (IsTrue r)), closure2, w2)
      else Ok (Some (Bool false), closure1, w1)
  | Not argument =>
      '(v, closure1, w1) ← exec argument closure w;
      Ok (Some (Bool (negb (IsTrue v))), closure1, w1)
  | Comparison cmp lhs rhs =>
      (* the operands are arguments of one call of [cmp_]: C++ leaves the
         order of their evaluation open, and a compiler may run the right
         one first; here the left one goes first, and no property below
         turns on the order *)
      '(l, closure1, w1) ← exec lhs closure w;
      '(r, closure2, w2) ← exec rhs closure1 w1;
      '(b, w3) ← compare classes exec cmp l r w2;
      Ok (Some (Bool b), closure2, w3)
  | NewInstance cls args => NewInstance_Execute cls args closure w
  | MethodBody body =>
      '(_, closure1, w1) ← exec body closure w;
      match closure1 !! "returned_value" with
      | Some v => Ok (v, closure1, w1)
      | Datatypes.None => Ok (Datatypes.None, closure1, w1)
      end
  end.

End Nodes.

(** [Execute], with [fuel] bounding the depth of the nesting of nodes and
    method calls. *)
Fixpoint Execute (classes : ClassId -> Class) (address_repr : nat -> string)
    (fuel : nat) (s : Statement) (closure : Closure) (w : World) : Outcome :=
  match fuel with
  | O => Throw OutOfFuel
  | S fuel' =>
      Execute_node classes address_repr (Execute classes address_repr fuel')
        s closure w
  end.

End ast.

(** ** Sample sources and programs *)

Module samples.

Import parse layout.

(** A source text from its lines, each closed by a newline. *)
Definition src (lines : list string) : list ascii :=
  concat (map (fun l => list_ascii_of_string l ++ [NL]) lines).

Definition chars (s : string) : list ascii := list_ascii_of_string s.

Definition sample_lines : list CodeLine :=
  [ mkLine [CommentOnly 0 (chars " demo")] 0 (chars "if x >= 1:")
      [token_type.If; token_type.Id "x"; token_type.GreaterOrEq;
       token_type.Number 1; token_type.Char ":"];
    mkLine [OnlySpaces 3; CommentOnly 2 (chars "deeper")] 2
      (chars "y = 'a b'")
      [token_type.Id "y"; token_type.Char "="; token_type.String "a b"];
    mkLine [] 2 (chars "print y , 2")
      [token_type.Print; token_type.Id "y"; token_type.Char ",";
       token_type.Number 2];
    mkLine [OnlySpaces 0] 0 (chars "z")
      [token_type.Id "z"] ].

End samples.

Module programs.

Import runtime ast.

(** class Point:
      def __init__(x): self.x = x
      def __str__(): return str(self.x)
      def __eq__(other): return self.x == other.x
      def moved(d): self = Point(self.x + d) *)
Definition Point : Class :=
  mkClass "Point"
    [ mkMethod "__init__" ["x"]
        (MethodBody (Compound
           [FieldAssignment ["self"] "x" (VariableValue ["x"])]));
      mkMethod "__str__" []
        (MethodBody (Compound
           [Return (Stringify (VariableValue ["self"; "x"]))]));
      mkMethod "__eq__" ["other"]
        (MethodBody (Compound
           [Return (Comparison CmpEqual (VariableValue ["self"; "x"])
                      (VariableValue ["other"; "x"]))]));
      mkMethod "moved" ["d"]
        (MethodBody (Compound
           [Assignment "self"
              (NewInstance 0%nat
                 [Add (VariableValue ["self"; "x"]) (VariableValue ["d"])])]))
    ] Datatypes.None.

(** class Labelled(Point):
      def __str__(pad): return pad
      def __eq__(other): return not not self *)
Definition Labelled : Class :=
  mkClass "Labelled"
    [ mkMethod "__str__" ["pad"]
        (MethodBody (Compound [Return (VariableValue ["pad"])]));
      mkMethod "__eq__" ["other"]
        (MethodBody (Compound
           [Return (Not (Not (VariableValue ["self"])))]))
    ] (Some Point).

(** class Plain: no methods.   class Quiet: def __init__(): (nothing) *)
Definition Plain : Class := mkClass "Plain" [] Datatypes.None.

Definition Quiet : Class :=
  mkClass "Quiet" [mkMethod "__init__" [] (MethodBody (Compound []))]
    Datatypes.None.

(** class Counted: def __str__(): return self.n  (a number, not a string) *)
Definition Counted : Class :=
  mkClass "Counted"
    [mkMethod "__str__" []
       (MethodBody (Compound [Return (VariableValue ["self"; "n"])]))]
    Datatypes.None.

Definition classes (c : ClassId) : Class :=
  match c with
  | 0%nat => Point
  | 1%nat => Labelled
  | 2%nat => Plain
  | 3%nat => Quiet
  | _ => Counted
  end.

Definition address_repr (this : nat) : string := "0x" +:+ pretty this.

Definition run (fuel : nat) (s : Statement) (closure : Closure) (w : World)
  : Outcome :=
  Execute classes address_repr fuel s closure w.

Definition empty_world : World := mkWorld [] "".

(** A world with one [Point] whose [x] is 3, at address 0. *)
Definition point3 : ClassInstance :=
  mkInstance 0%nat {["x" := Some (Number 3)]}.

Definition one_point : World := mkWorld [point3] "".

(** A scope that binds [p] to the instance at address 0, and [n] to 3. *)
Definition scope_p : Closure :=
  {["p" := Some (Instance 0%nat); "n" := Some (Number 3)]}.

End programs.

(** * Properties of the lexer *)

Lemma bind_Ok {A B : Type} (a : A) (k : A -> Result B) : Ok a ≫= k = k a.
Proof. done. Qed.

Lemma bind_Throw {A B : Type} (e : Error) (k : A -> Result B) :
  Throw e ≫= k = Throw e.
Proof. done. Qed.


Section LexerFacts.

Import parse layout.

Variable special : ascii -> bool.
Variable comparison : ascii -> bool.
Variable keywords : string -> option Token.

Lemma count_spaces_length inp :
  (length (count_spaces inp).2 <= length inp)%nat.
Proof.
  induction inp as [|c inp IH]; simpl; [lia|].
  destruct (Ascii.eqb c " "); simpl; [|lia].
  destruct (count_spaces inp) as [n r]; simpl in *; lia.
Qed.

Lemma getline_length inp : (length (getline inp) <= length inp)%nat.
Proof.
  induction inp as [|c inp IH]; simpl; [lia|].
  destruct (Ascii.eqb c NL); simpl; lia.
Qed.

Lemma count_spaces_spaces n inp :
  peek_is inp " " = false ->
  count_spaces (spaces n ++ inp) = (n, inp).
Proof.
  intros Hp. induction n as [|n IH]; simpl.
  - destruct inp as [|c inp]; simpl in *; [done|]. by rewrite Hp.
  - unfold spaces in IH. by rewrite IH.
Qed.

Lemma peek_is_code c rest d :
  code_char c -> d = " "%char \/ d = NL \/ d = "#"%char ->
  peek_is (c :: rest) d = false.
Proof.
  intros (H1 & H2 & H3) Hd. simpl. apply Ascii.eqb_neq.
  destruct Hd as [->|[->| ->]]; assumption.
Qed.

(** More fuel than the input has characters is always enough for
    [IgnoreEmptyRawsAndComments_rec], and the result does not depend on
    how much more there is. *)
Lemma IgnoreEmptyRawsAndComments_rec_fuel f1 f2 lx :
  (length (input_ lx) < f1)%nat -> (length (input_ lx) < f2)%nat ->
  IgnoreEmptyRawsAndComments_rec f1 lx = IgnoreEmptyRawsAndComments_rec f2 lx.
Proof.
  revert f2 lx. induction f1 as [|f1 IH]; intros f2 lx H1 H2; [lia|].
  destruct f2 as [|f2]; [lia|]. simpl.
  pose proof (count_spaces_length (input_ lx)) as Hc.
  destruct (count_spaces (input_ lx)) as [n inp]; simpl in Hc.
  destruct inp as [|c inp]; simpl; [done|].
  simpl in Hc.
  destruct (Ascii.eqb c NL).
  { apply IH; simpl; lia. }
  destruct (Ascii.eqb c "#"); [|done].
  pose proof (getline_length inp).
  destruct (Ascii.eqb c NL); apply IH; simpl; lia.
Qed.

Lemma IgnoreEmptyRawsAndComments_unfold lx :
  IgnoreEmptyRawsAndComments lx =
  let '(n, inp) := count_spaces (input_ lx) in
  if peek_is inp NL then IgnoreEmptyRawsAndComments (with_input lx (tl inp))
  else if peek_is inp "#"
  then IgnoreEmptyRawsAndComments (with_input lx (getline inp))
  else if Nat.eqb (n mod 2) 1 then Throw (LexerError "invalid indent")
  else Ok (mkLexer inp (current_token_ lx) (Z.of_nat (n / 2))
             (Z.of_nat (n / 2) - current_indent_ lx)).
Proof.
  unfold IgnoreEmptyRawsAndComments at 1. simpl.
  pose proof (count_spaces_length (input_ lx)) as Hc.
  destruct (count_spaces (input_ lx)) as [n inp]; simpl in Hc.
  destruct inp as [|c inp]; simpl; [done|]. simpl in Hc.
  destruct (Ascii.eqb c NL).
  { apply IgnoreEmptyRawsAndComments_rec_fuel; simpl; lia. }
  destruct (Ascii.eqb c "#"); [|done].
  pose proof (getline_length inp).
  destruct (Ascii.eqb c NL);
    apply IgnoreEmptyRawsAndComments_rec_fuel; simpl; lia.
Qed.

(** Layout resolution never runs out of fuel. *)
Lemma IgnoreEmptyRawsAndComments_total lx :
  IgnoreEmptyRawsAndComments lx <> Throw OutOfFuel.
Proof.
  remember (length (input_ lx)) as k eqn:Hk.
  revert lx Hk. induction (lt_wf k) as [k _ IH]. intros lx ->.
  rewrite IgnoreEmptyRawsAndComments_unfold.
  pose proof (count_spaces_length (input_ lx)) as Hc.
  destruct (count_spaces (input_ lx)) as [n inp]; simpl in Hc.
  destruct inp as [|c inp]; simpl.
  { repeat case_match; done. }
  simpl in Hc.
  destruct (Ascii.eqb c NL).
  { eapply IH; [|reflexivity]. simpl. lia. }
  destruct (Ascii.eqb c "#").
  { pose proof (getline_length inp). eapply IH; [|reflexivity]. simpl.
    destruct (Ascii.eqb c NL); simpl; lia. }
  repeat case_match; done.
Qed.

Lemma getline_comment text rest :
  NL ∉ text -> getline (text ++ NL :: rest) = rest.
Proof.
  induction text as [|c text IH]; simpl; intros Hn; [done|].
  apply not_elem_of_cons in Hn as [Hc Hn].
  destruct (Ascii.eqb_spec c NL); [congruence|auto].
Qed.

Lemma with_input_with_input lx a b :
  with_input (with_input lx a) b = with_input lx b.
Proof. done. Qed.

(** Layout resolution skips one blank or comment-only line. *)
Lemma IgnoreEmptyRawsAndComments_blank lx b rest :
  blank_ok b ->
  IgnoreEmptyRawsAndComments (with_input lx (render_blank b ++ rest)) =
  IgnoreEmptyRawsAndComments (with_input lx rest).
Proof.
  intros Hb. rewrite IgnoreEmptyRawsAndComments_unfold.
  destruct b as [n|n text]; simpl; rewrite <- app_assoc; simpl.
  - rewrite count_spaces_spaces by reflexivity. done.
  - rewrite <- app_assoc. simpl.
    rewrite count_spaces_spaces by reflexivity.
    simpl. by rewrite getline_comment.
Qed.

(** Blank and comment-only lines are invisible to layout resolution. *)
Lemma IgnoreEmptyRawsAndComments_gap lx g rest :
  Forall blank_ok g ->
  IgnoreEmptyRawsAndComments (with_input lx (render_gap g ++ rest)) =
  IgnoreEmptyRawsAndComments (with_input lx rest).
Proof.
  induction 1 as [|b g Hb _ IH]; [done|].
  unfold render_gap in *. simpl. rewrite <- app_assoc.
  by rewrite IgnoreEmptyRawsAndComments_blank.
Qed.

(** In front of code, or at the end of the input, layout resolution
    checks the parity of the spaces it has skipped and sets the level. *)
Lemma IgnoreEmptyRawsAndComments_code lx n rest :
  code_start rest ->
  IgnoreEmptyRawsAndComments (with_input lx (spaces n ++ rest)) =
  if Nat.eqb (n mod 2) 1 then Throw (LexerError "invalid indent")
  else Ok (mkLexer rest (current_token_ lx) (Z.of_nat (n / 2))
             (Z.of_nat (n / 2) - current_indent_ lx)).
Proof.
  intros Hc. rewrite IgnoreEmptyRawsAndComments_unfold. simpl.
  destruct rest as [|c rest].
  - rewrite count_spaces_spaces by reflexivity. done.
  - rewrite count_spaces_spaces by (apply peek_is_code; auto).
    rewrite (peek_is_code c rest NL) by auto.
    by rewrite (peek_is_code c rest "#") by auto.
Qed.

Lemma IgnoreSpaces_spaces n inp :
  peek_is inp " " = false -> IgnoreSpaces (spaces n ++ inp) = inp.
Proof.
  intros Hp. induction n as [|n IH]; simpl; [|done].
  destruct inp as [|c inp]; simpl in *; [done|]. by rewrite Hp.
Qed.

Abbreviation NextToken' := (NextToken special comparison keywords).
Abbreviation NextToken_rec' := (NextToken_rec special comparison keywords).
Abbreviation Tokenize' := (Tokenize special comparison keywords).

(** [NextToken] right after a [Newline]: layout resolution comes first. *)
Lemma NextToken_after_Newline lx :
  current_token_ lx = token_type.Newline ->
  NextToken' lx =
  lx1 ← IgnoreEmptyRawsAndComments lx;
  if negb (diff_current_prev_indent_ lx1 =? 0) then
    '(t, lx2) ← ParseIndentOrDedent lx1; Ok (t, with_token lx2 t)
  else Tokenize' (NextToken_rec' (length (input_ lx))) lx1.
Proof. intros Hc. unfold NextToken. simpl. by rewrite Hc. Qed.

(** [NextToken] inside a line, while a layout change is pending. *)
Lemma NextToken_pending lx :
  current_token_ lx <> token_type.Eof ->
  current_token_ lx <> token_type.Newline ->
  diff_current_prev_indent_ lx <> 0 ->
  NextToken' lx =
  '(t, lx2) ← ParseIndentOrDedent lx; Ok (t, with_token lx2 t).
Proof.
  intros H1 H2 H3. unfold NextToken. simpl.
  rewrite !bool_decide_eq_false_2 by done. simpl.
  apply Z.eqb_neq in H3. by rewrite H3.
Qed.

(** [NextToken] inside a line with no layout change pending is normal
    tokenization. *)
Lemma NextToken_normal lx :
  current_token_ lx <> token_type.Eof ->
  current_token_ lx <> token_type.Newline ->
  diff_current_prev_indent_ lx = 0 ->
  NextToken' lx = Tokenize' (NextToken_rec' (length (input_ lx))) lx.
Proof.
  intros H1 H2 H3. unfold NextToken. simpl.
  rewrite !bool_decide_eq_false_2 by done. simpl. by rewrite H3.
Qed.

(** Normal tokenization in front of ['<'] or ['>'] with no ['='] behind. *)
Lemma Tokenize_angle_bracket next lx k c rest :
  c = "<"%char \/ c = ">"%char ->
  peek_is rest "=" = false ->
  input_ lx = spaces k ++ c :: rest ->
  Tokenize special comparison keywords next lx =
  if special c
  then Ok (token_type.Char c,
           with_token (with_input lx rest) (token_type.Char c))
  else Throw (LexerError "parsing error").
Proof.
  intros Hc Hp Hi. unfold Tokenize. rewrite Hi.
  rewrite IgnoreSpaces_spaces by (by destruct Hc as [-> | ->]).
  destruct Hc as [-> | ->]; simpl; rewrite Hp, andb_false_r;
    by destruct (special _).
Qed.

Lemma count_spaces_stops inp :
  peek_is (count_spaces inp).2 " " = false.
Proof.
  induction inp as [|c inp IHi]; simpl; [done|].
  destruct (Ascii.eqb c " ") eqn:E; simpl; [|by rewrite E].
  by destruct (count_spaces inp).
Qed.

(** Where layout resolution returns, the next character is none of the
    three it skips. *)
Lemma IgnoreEmptyRawsAndComments_stops lx lx1 :
  IgnoreEmptyRawsAndComments lx = Ok lx1 ->
  peek_is (input_ lx1) " " = false /\ peek_is (input_ lx1) NL = false
  /\ peek_is (input_ lx1) "#" = false.
Proof.
  remember (length (input_ lx)) as k eqn:Hk.
  revert lx Hk. induction (lt_wf k) as [k _ IH]. intros lx ->.
  rewrite IgnoreEmptyRawsAndComments_unfold.
  pose proof (count_spaces_length (input_ lx)) as Hc.
  pose proof (count_spaces_stops (input_ lx)) as Hs.
  destruct (count_spaces (input_ lx)) as [n inp]; simpl in Hc, Hs.
  destruct (peek_is inp NL) eqn:E1.
  { destruct inp as [|c inp]; [done|]. simpl in *.
    eapply IH; [|reflexivity]. simpl. lia. }
  destruct (peek_is inp "#") eqn:E2.
  { destruct inp as [|c inp]; [done|]. simpl in *.
    pose proof (getline_length (c :: inp)) as Hg. simpl in Hg.
    rewrite E1 in Hg |- *.
    pose proof (getline_length inp).
    eapply IH; [|reflexivity]. simpl. lia. }
  destruct (Nat.eqb (n mod 2) 1); [done|].
  intros [= <-]. done.
Qed.

(** The recursive call of [NextToken] is never reached: after layout
    resolution the next character is not ['#'].  So normal tokenization
    does not depend on what the recursive call would return. *)
Lemma Tokenize_next_irrelevant next1 next2 lx :
  Tokenize special comparison keywords next1 lx =
  Tokenize special comparison keywords next2 lx.
Proof.
  unfold Tokenize.
  destruct (get (IgnoreSpaces (input_ lx))) as [g inp].
  repeat (case_match; try done).
  destruct (IgnoreEmptyRawsAndComments _) as [lx1|e] eqn:E; [|done].
  apply IgnoreEmptyRawsAndComments_stops in E as (_ & _ & E).
  simpl. destruct (input_ lx1) as [|c1 r1]; simpl in *; [done|].
  by rewrite E.
Qed.

(** So inside a line [NextToken] is normal tokenization, whatever stands
    for the recursive call. *)
Lemma NextToken_normal' next lx :
  current_token_ lx <> token_type.Eof ->
  current_token_ lx <> token_type.Newline ->
  diff_current_prev_indent_ lx = 0 ->
  NextToken' lx = Tokenize special comparison keywords next lx.
Proof.
  intros. rewrite NextToken_normal by done.
  apply Tokenize_next_irrelevant.
Qed.

Ltac tokenize_cases :=
  unfold Tokenize, emit_parsed, emit, mbind, Result_bind in *;
  repeat (case_match; simplify_eq/=; try done).

(** Normal tokenization stores the token it returns in [current_token_]. *)
Lemma Tokenize_current next lx t lx' :
  Tokenize special comparison keywords next lx = Ok (t, lx') ->
  current_token_ lx' = t.
Proof. intros H. by tokenize_cases. Qed.

(** A token other than [Newline] and [Eof] comes with the layout state
    unchanged. *)
Lemma Tokenize_layout next lx t lx' :
  Tokenize special comparison keywords next lx = Ok (t, lx') ->
  t <> token_type.Newline -> t <> token_type.Eof ->
  current_indent_ lx' = current_indent_ lx /\
  diff_current_prev_indent_ lx' = diff_current_prev_indent_ lx.
Proof.
  intros H H1 H2.
  rewrite (Tokenize_next_irrelevant _ (fun _ => Throw OutOfFuel)) in H.
  by tokenize_cases.
Qed.

Abbreviation run' := (run special comparison keywords).
Abbreviation scan' := (scan special comparison keywords).

Lemma run_app a b lx :
  run' (a + b) lx =
  '(ts1, lx1) ← run' a lx; '(ts2, lx2) ← run' b lx1; Ok (ts1 ++ ts2, lx2).
Proof.
  revert lx. induction a as [|a IH]; intros lx; simpl.
  - unfold mbind, Result_bind. by destruct (run' b lx) as [[??]|?].
  - unfold mbind, Result_bind in *.
    destruct (NextToken' lx) as [[t lx1]|e]; [|done].
    rewrite IH. destruct (run' a lx1) as [[ts1 lx2]|e]; [|done].
    by destruct (run' b lx2) as [[??]|?].
Qed.

Lemma run_app_Ok a b lx ts1 lx1 ts2 lx2 :
  run' a lx = Ok (ts1, lx1) -> run' b lx1 = Ok (ts2, lx2) ->
  run' (a + b) lx = Ok (ts1 ++ ts2, lx2).
Proof. intros H1 H2. rewrite run_app, H1. simpl. by rewrite H2. Qed.

(** While [k] levels are still to be opened, the next [k] tokens are
    [Indent]. *)
Lemma run_pending_Indent k inp cur ind :
  cur <> token_type.Eof -> cur <> token_type.Newline ->
  run' k (mkLexer inp cur ind (Z.of_nat k)) =
  Ok (repeat token_type.Indent k,
      mkLexer inp (match k with O => cur | S _ => token_type.Indent end)
              ind 0).
Proof.
  revert cur. induction k as [|k IH]; intros cur H1 H2; [done|].
  cbn [run]. rewrite NextToken_pending by (simpl; done || lia).
  unfold ParseIndentOrDedent. simpl diff_current_prev_indent_.
  destruct (Z.ltb_spec 0 (Z.of_nat (S k))); [|lia].
  replace (Z.of_nat (S k) - 1) with (Z.of_nat k) by lia.
  simpl. unfold with_token. simpl. rewrite IH by done.
  by destruct k.
Qed.

(** While [k] levels are still to be closed, the next [k] tokens are
    [Dedent]. *)
Lemma run_pending_Dedent k inp cur ind :
  cur <> token_type.Eof -> cur <> token_type.Newline ->
  run' k (mkLexer inp cur ind (- Z.of_nat k)) =
  Ok (repeat token_type.Dedent k,
      mkLexer inp (match k with O => cur | S _ => token_type.Dedent end)
              ind 0).
Proof.
  revert cur. induction k as [|k IH]; intros cur H1 H2; [done|].
  cbn [run]. rewrite NextToken_pending by (simpl; done || lia).
  unfold ParseIndentOrDedent. simpl diff_current_prev_indent_.
  destruct (Z.ltb_spec 0 (- Z.of_nat (S k))); [lia|].
  destruct (Z.ltb_spec (- Z.of_nat (S k)) 0); [|lia].
  replace (- Z.of_nat (S k) + 1) with (- Z.of_nat k) by lia.
  simpl. unfold with_token. simpl. rewrite IH by done.
  by destruct k.
Qed.

Lemma length_layout_tokens prev l :
  length (layout_tokens prev l) = ((l - prev) + (prev - l))%nat.
Proof. unfold layout_tokens. by rewrite length_app, !repeat_length. Qed.

Lemma run_cons k lx t lx1 ts lx2 :
  NextToken' lx = Ok (t, lx1) -> run' k lx1 = Ok (ts, lx2) ->
  run' (S k) lx = Ok (t :: ts, lx2).
Proof. intros H1 H2. simpl. rewrite H1. simpl. by rewrite H2. Qed.

Lemma run_one lx t lx' :
  NextToken' lx = Ok (t, lx') -> run' 1 lx = Ok ([t], lx').
Proof. intros H. simpl. by rewrite H. Qed.

(** A line boundary.  When layout resolution finds level [l] after level
    [prev], the next tokens are the layout tokens for that change, and
    then the first token of what follows, read by normal tokenization. *)
Lemma run_resolve next lx inp prev l t lxB :
  current_token_ lx = token_type.Newline ->
  IgnoreEmptyRawsAndComments lx =
    Ok (mkLexer inp token_type.Newline (Z.of_nat l)
                (Z.of_nat l - Z.of_nat prev)) ->
  Tokenize special comparison keywords next
    (mkLexer inp (after_layout prev l) (Z.of_nat l) 0) = Ok (t, lxB) ->
  run' (S (length (layout_tokens prev l))) lx =
  Ok (layout_tokens prev l ++ [t], lxB).
Proof.
  intros Hcur Hres Htok. unfold after_layout in Htok.
  rewrite length_layout_tokens. unfold layout_tokens.
  destruct (Nat.ltb_spec prev l) as [Hlt|Hge].
  - replace (prev - l)%nat with O by lia.
    destruct (l - prev)%nat as [|k] eqn:Hk; [lia|].
    rewrite Nat.add_0_r, app_nil_r. simpl repeat.
    eapply run_cons.
    + rewrite NextToken_after_Newline, Hres by done. simpl.
      unfold ParseIndentOrDedent. simpl.
      destruct (Z.eqb_spec (Z.of_nat l - Z.of_nat prev) 0); [lia|]. simpl.
      destruct (Z.ltb_spec 0 (Z.of_nat l - Z.of_nat prev)); [|lia].
      simpl. unfold with_token. simpl.
      replace (Z.of_nat l - Z.of_nat prev - 1) with (Z.of_nat k) by lia.
      reflexivity.
    + replace (S k) with (k + 1)%nat by lia. eapply run_app_Ok.
      * by apply run_pending_Indent.
      * apply run_one.
        rewrite (NextToken_normal' next) by (by destruct k).
        by destruct k.
  - destruct (Nat.ltb_spec l prev) as [Hlt|Hge'].
    + replace (l - prev)%nat with O by lia.
      destruct (prev - l)%nat as [|k] eqn:Hk; [lia|].
      cbn [repeat app Nat.add]. eapply run_cons.
      * rewrite NextToken_after_Newline, Hres by done. simpl.
        unfold ParseIndentOrDedent. simpl.
        destruct (Z.eqb_spec (Z.of_nat l - Z.of_nat prev) 0); [lia|]. simpl.
        destruct (Z.ltb_spec 0 (Z.of_nat l - Z.of_nat prev)); [lia|].
        destruct (Z.ltb_spec (Z.of_nat l - Z.of_nat prev) 0); [|lia].
        simpl. unfold with_token. simpl.
        replace (Z.of_nat l - Z.of_nat prev + 1) with (- Z.of_nat k) by lia.
        reflexivity.
      * replace (S k) with (k + 1)%nat by lia. eapply run_app_Ok.
        -- by apply run_pending_Dedent.
        -- apply run_one.
           rewrite (NextToken_normal' next) by (by destruct k).
           by destruct k.
    + assert (l = prev) as -> by lia.
      rewrite Nat.sub_diag. simpl. apply run_one.
      rewrite NextToken_after_Newline, Hres by done. simpl.
      rewrite Z.sub_diag. simpl.
      by rewrite (Tokenize_next_irrelevant _ next).
Qed.

Lemma scan_split next n lx ts fin :
  scan' next (S n) lx = Ok (ts, fin) ->
  exists t lx1 ts',
    Tokenize special comparison keywords next lx = Ok (t, lx1)
    /\ ts = t :: ts' /\ scan' next n lx1 = Ok (ts', fin).
Proof.
  simpl. unfold mbind, Result_bind.
  destruct (Tokenize _ _ _ _ lx) as [[t lx1]|e]; [|done].
  destruct (scan' next n lx1) as [[ts' lx2]|e] eqn:E; [|done].
  intros [= <- <-]. by eexists _, _, _.
Qed.

(** Inside a line, [NextToken] is normal tokenization. *)
Lemma scan_run next pre last lx fin :
  current_token_ lx <> token_type.Eof ->
  current_token_ lx <> token_type.Newline ->
  diff_current_prev_indent_ lx = 0 ->
  Forall (fun t => t <> token_type.Newline /\ t <> token_type.Eof) pre ->
  scan' next (S (length pre)) lx = Ok (pre ++ [last], fin) ->
  run' (S (length pre)) lx = Ok (pre ++ [last], fin).
Proof.
  revert lx. induction pre as [|p pre IH]; intros lx H1 H2 H3 Hpre Hs.
  - apply scan_split in Hs as (t & lx1 & ts' & Ht & Heq & Hs).
    simpl in Hs, Heq. simplify_eq. apply run_one.
    by rewrite (NextToken_normal' next).
  - apply scan_split in Hs as (t & lx1 & ts' & Ht & Heq & Hs).
    simpl in Heq. simplify_eq.
    apply Forall_cons in Hpre as [[Hp1 Hp2] Hpre].
    eapply run_cons; [by rewrite (NextToken_normal' next)|].
    pose proof (Tokenize_current _ _ _ _ Ht) as Hc.
    pose proof (Tokenize_layout _ _ _ _ Ht Hp1 Hp2) as [_ Hd].
    apply IH; [congruence..|done|done].
Qed.

Lemma with_input_id lx : with_input lx (input_ lx) = lx.
Proof. by destruct lx. Qed.

Lemma even_indent l : Nat.eqb ((2 * l) mod 2) 1 = false /\ (2 * l / 2 = l)%nat.
Proof.
  rewrite (Nat.mul_comm 2 l), Nat.Div0.mod_mul, Nat.div_mul by done. done.
Qed.

(** One code line after a [Newline]: the blank lines in front of it give
    no token, the change of level gives the layout tokens, then come the
    tokens of the text and the [Newline]. *)
Lemma run_line ln prev lx R :
  line_ok special comparison keywords ln ->
  current_token_ lx = token_type.Newline ->
  current_indent_ lx = Z.of_nat prev ->
  input_ lx = render_line ln ++ R ->
  run' (length (layout_tokens prev (level ln) ++ toks ln
                 ++ [token_type.Newline])) lx =
  Ok (layout_tokens prev (level ln) ++ toks ln ++ [token_type.Newline],
      mkLexer R token_type.Newline (Z.of_nat (level ln)) 0).
Proof.
  intros [Hgap ((c & more & Htext & Hcode) & Htoks & Hscan)] Hcur Hind Hinp.
  set (inp := text ln ++ NL :: R).
  assert (IgnoreEmptyRawsAndComments lx =
          Ok (mkLexer inp token_type.Newline (Z.of_nat (level ln))
                (Z.of_nat (level ln) - Z.of_nat prev))) as Hres.
  { rewrite <- (with_input_id lx), Hinp. unfold render_line.
    rewrite <- !app_assoc. rewrite IgnoreEmptyRawsAndComments_gap by done.
    rewrite IgnoreEmptyRawsAndComments_code
      by (rewrite Htext; simpl; done).
    destruct (even_indent (level ln)) as [-> ->].
    by rewrite Hcur, Hind. }
  specialize (Hscan (fun _ => Throw OutOfFuel)
                (after_layout prev (level ln)) (Z.of_nat (level ln)) R).
  apply scan_split in Hscan as (t & lx1 & ts' & Ht & Heq & Hs).
  pose proof (run_resolve _ _ _ _ _ _ _ Hcur Hres Ht) as Hr.
  rewrite length_app.
  replace (length (layout_tokens prev (level ln))
           + length (toks ln ++ [token_type.Newline]))%nat
    with (S (length (layout_tokens prev (level ln))) + length (toks ln))%nat
    by (rewrite length_app; simpl; lia).
  destruct (toks ln) as [|t0 ts] eqn:Etoks.
  - simpl in Heq, Hs. simplify_eq. by rewrite Nat.add_0_r.
  - simpl in Heq. simplify_eq.
    apply Forall_cons in Htoks as [[Hp1 Hp2] Htoks].
    pose proof (Tokenize_current _ _ _ _ Ht) as Hc.
    pose proof (Tokenize_layout _ _ _ _ Ht Hp1 Hp2) as [_ Hd].
    simpl in Hd.
    eapply (scan_run _ ts) in Hs; [|congruence..|done].
    simpl length. rewrite (run_app_Ok _ _ _ _ _ _ _ Hr Hs).
    by rewrite <- app_assoc.
Qed.

(** The end of the source after a [Newline]: the [Dedent]s back to level
    0, then [Eof]. *)
Lemma run_end trailer prev lx :
  Forall blank_ok trailer ->
  current_token_ lx = token_type.Newline ->
  current_indent_ lx = Z.of_nat prev ->
  input_ lx = render_gap trailer ->
  run' (length (layout_tokens prev 0 ++ [token_type.Eof])) lx =
  Ok (layout_tokens prev 0 ++ [token_type.Eof],
      mkLexer [] token_type.Eof 0 0).
Proof.
  intros Hgap Hcur Hind Hinp.
  assert (IgnoreEmptyRawsAndComments lx =
          Ok (mkLexer [] token_type.Newline (Z.of_nat 0)
                (Z.of_nat 0 - Z.of_nat prev))) as Hres.
  { rewrite <- (with_input_id lx), Hinp.
    rewrite <- (app_nil_r (render_gap trailer)).
    rewrite IgnoreEmptyRawsAndComments_gap by done.
    pose proof (IgnoreEmptyRawsAndComments_code lx 0 [] I) as Hc.
    simpl in Hc. rewrite Hc. by rewrite Hcur, Hind. }
  rewrite length_app, Nat.add_1_r.
  eapply (run_resolve (fun _ => Throw OutOfFuel)); [done..|].
  unfold after_layout. by destruct prev.
Qed.

(** The tokens [NextToken] returns, from a [Newline] on, for the rest of
    a source. *)
Lemma run_lines lines trailer :
  Forall (line_ok special comparison keywords) lines ->
  Forall blank_ok trailer ->
  forall prev lx,
    current_token_ lx = token_type.Newline ->
    current_indent_ lx = Z.of_nat prev ->
    input_ lx = render lines trailer ->
    run' (length (expected prev lines)) lx =
    Ok (expected prev lines, mkLexer [] token_type.Eof 0 0).
Proof.
  intros Hlines Htr. induction Hlines as [|ln lines Hln _ IH];
    intros prev lx Hcur Hind Hinp.
  - by apply (run_end trailer).
  - cbn [expected]. unfold render in Hinp. simpl in Hinp.
    rewrite <- app_assoc in Hinp.
    pose proof (run_line ln prev lx _ Hln Hcur Hind Hinp) as Hr.
    rewrite !app_assoc, length_app, <- !app_assoc.
    erewrite run_app_Ok; [|exact Hr|by apply IH].
    by rewrite <- !app_assoc.
Qed.

(** [NextToken] stores the token it returns in [current_token_]. *)
Lemma NextToken_current lx t lx' :
  NextToken' lx = Ok (t, lx') -> current_token_ lx' = t.
Proof.
  unfold NextToken. simpl. case_bool_decide as Heof.
  { by intros [= <- <-]. }
  unfold mbind at 1, Result_bind at 1.
  destruct (if bool_decide _ then _ else _) as [lx1|e]; [|done].
  destruct (negb _).
  - unfold ParseIndentOrDedent, mbind, Result_bind.
    repeat case_match; try done; by intros [= <- <-].
  - apply Tokenize_current.
Qed.

(** What a client reads, from what [NextToken] returns. *)
Lemma stream_of_run E lx fin fuel :
  run' (length E) lx = Ok (E, fin) ->
  (exists pre, current_token_ lx :: E = pre ++ [token_type.Eof]
               /\ Forall (fun t => t <> token_type.Eof) pre) ->
  (length E < fuel)%nat ->
  token_stream special comparison keywords fuel lx =
  Ok (current_token_ lx :: E).
Proof.
  revert lx fuel.
  induction E as [|t1 E IH]; intros lx fuel Hr (pre & Hp & Hf) Hlt.
  - destruct fuel as [|fuel]; [simpl in Hlt; lia|]. simpl.
    destruct pre as [|p pre]; simplify_eq/=.
    + unfold CurrentToken. by rewrite H.
    + by destruct pre.
  - destruct fuel as [|fuel]; [simpl in Hlt; lia|].
    simpl in Hr. unfold mbind, Result_bind in Hr.
    destruct (NextToken' lx) as [[t lx1]|e] eqn:Hn; [|done].
    destruct (run' (length E) lx1) as [[ts lx2]|e] eqn:Hr1; [|done].
    simplify_eq.
    destruct pre as [|p pre]; simplify_eq/=.
    apply Forall_cons in Hf as [Hne Hf].
    unfold CurrentToken. rewrite bool_decide_eq_false_2 by done.
    rewrite Hn. simpl.
    pose proof (NextToken_current _ _ _ Hn) as Hc.
    rewrite (IH lx1 fuel); [by rewrite Hc|done| |lia].
    exists pre. by rewrite Hc.
Qed.

Lemma expected_Eof lines prev :
  Forall (line_ok special comparison keywords) lines ->
  exists pre, expected prev lines = pre ++ [token_type.Eof]
              /\ Forall (fun t => t <> token_type.Eof) pre.
Proof.
  intros Hl. revert prev. induction Hl as [|ln lines Hln _ IH]; intros prev.
  - exists (layout_tokens prev 0). split; [done|].
    unfold layout_tokens. apply Forall_app.
    split; apply Forall_forall; intros t Ht%list_elem_of_In%repeat_spec;
      by subst.
  - destruct (IH (level ln)) as (pre & Heq & Hpre).
    exists (layout_tokens prev (level ln) ++ toks ln ++ [token_type.Newline]
            ++ pre).
    cbn [expected]. rewrite Heq.
    split; [by rewrite <- !app_assoc|].
    destruct Hln as (_ & _ & Htoks & _).
    unfold layout_tokens. rewrite !Forall_app. split_and!; try done.
    + apply Forall_forall; intros t Ht%list_elem_of_In%repeat_spec;
        by subst.
    + apply Forall_forall; intros t Ht%list_elem_of_In%repeat_spec;
        by subst.
    + eapply Forall_impl; [exact Htoks|]. by intros t [_ ?].
    + by apply Forall_singleton.
Qed.

Lemma IgnoreSpaces_length inp :
  (length (IgnoreSpaces inp) <= length inp)%nat.
Proof.
  induction inp as [|c inp IH]; simpl; [lia|].
  destruct (Ascii.eqb c " "); simpl; lia.
Qed.

Lemma IgnoreInitialComments_rec_fuel f1 f2 inp :
  (length inp < f1)%nat -> (length inp < f2)%nat ->
  IgnoreInitialComments_rec f1 inp = IgnoreInitialComments_rec f2 inp.
Proof.
  revert f2 inp. induction f1 as [|f1 IH]; intros f2 inp H1 H2; [lia|].
  destruct f2 as [|f2]; [lia|]. simpl.
  pose proof (IgnoreSpaces_length inp) as Hs.
  destruct (IgnoreSpaces inp) as [|c inp1]; simpl; [done|]. simpl in Hs.
  destruct (Ascii.eqb c "#"); simpl; [|done].
  pose proof (getline_length inp1).
  destruct (Ascii.eqb c NL); apply IH; lia.
Qed.

Lemma IgnoreInitialComments_unfold inp :
  IgnoreInitialComments inp =
  let inp1 := IgnoreSpaces inp in
  if negb (peek_is inp1 "#") then Ok inp1
  else IgnoreInitialComments (getline inp1).
Proof.
  unfold IgnoreInitialComments at 1. simpl.
  pose proof (IgnoreSpaces_length inp) as Hs.
  destruct (IgnoreSpaces inp) as [|c inp1]; simpl; [done|]. simpl in Hs.
  destruct (Ascii.eqb c "#"); simpl; [|done].
  pose proof (getline_length inp1).
  destruct (Ascii.eqb c NL); apply IgnoreInitialComments_rec_fuel; lia.
Qed.

(** The constructor's [IgnoreInitialComments] drops the comment lines at
    the top of the source, then the spaces in front of what follows; what
    it leaves is blank lines and the first code line again. *)
Lemma IgnoreInitialComments_gap g rest :
  Forall blank_ok g -> code_start rest ->
  exists g', Forall blank_ok g'
    /\ IgnoreInitialComments (render_gap g ++ rest)
       = Ok (render_gap g' ++ rest).
Proof.
  intros Hg Hrest. induction Hg as [|b g Hb Hg IH].
  - exists []. split; [done|]. simpl.
    rewrite IgnoreInitialComments_unfold.
    destruct rest as [|c rest]; [done|]. simpl in *.
    destruct Hrest as (H1 & H2 & H3).
    apply Ascii.eqb_neq in H1, H3. rewrite H1. simpl. by rewrite H3.
  - destruct b as [n|n text].
    + exists (OnlySpaces 0 :: g). split; [by constructor|].
      rewrite IgnoreInitialComments_unfold.
      unfold render_gap. simpl. rewrite <- !app_assoc. simpl.
      by rewrite IgnoreSpaces_spaces.
    + destruct IH as (g' & Hg' & IH). exists g'. split; [done|].
      rewrite IgnoreInitialComments_unfold.
      unfold render_gap in *. simpl. rewrite <- !app_assoc. simpl.
      rewrite IgnoreSpaces_spaces by done. simpl.
      rewrite <- app_assoc. simpl. by rewrite getline_comment.
Qed.

Lemma IgnoreInitialComments_render lines trailer :
  Forall (line_ok special comparison keywords) lines ->
  Forall blank_ok trailer ->
  (forall ln, head lines = Some ln -> level ln = O) ->
  exists lines' trailer',
    Forall (line_ok special comparison keywords) lines'
    /\ Forall blank_ok trailer'
    /\ expected 0 lines' = expected 0 lines
    /\ IgnoreInitialComments (render lines trailer)
        = Ok (render lines' trailer').
Proof.
  intros Hl Ht H0. destruct Hl as [|ln lines Hln Hl].
  - destruct (IgnoreInitialComments_gap trailer [] Ht I) as (g' & Hg' & E).
    exists [], g'. unfold render in *. simpl in *.
    rewrite !app_nil_r in E. by split_and!.
  - specialize (H0 ln eq_refl).
    destruct Hln as (Hgap & Htok).
    pose proof Htok as ((c & more & Htext & Hc) & _).
    set (rest := text ln ++ [NL] ++ concat (map render_line lines)
                 ++ render_gap trailer).
    destruct (IgnoreInitialComments_gap (gap ln) rest Hgap) as (g' & Hg' & E).
    { unfold rest. by rewrite Htext. }
    exists (mkLine g' O (text ln) (toks ln) :: lines), trailer.
    split_and!; [by constructor|done|by simpl; rewrite H0|].
    unfold render, render_line. simpl. rewrite H0. simpl.
    unfold rest in E. by rewrite <- !app_assoc.
Qed.

Lemma strip_ok lines :
  Forall (line_ok special comparison keywords) lines ->
  Forall (line_ok special comparison keywords) (strip lines).
Proof.
  unfold strip. intros H. apply Forall_fmap.
  eapply Forall_impl; [exact H|]. intros ln [_ Ht]. by split.
Qed.

Lemma expected_strip lines prev :
  expected prev (strip lines) = expected prev lines.
Proof.
  revert prev. induction lines as [|ln lines IH]; intros prev; [done|].
  simpl. by rewrite IH.
Qed.

(** The token stream of a well-formed source. *)
Lemma Lex_expected lines trailer fuel :
  Forall (line_ok special comparison keywords) lines ->
  Forall blank_ok trailer ->
  (forall ln, head lines = Some ln -> level ln = O) ->
  (length (expected 0 lines) <= fuel)%nat ->
  Lex special comparison keywords fuel (render lines trailer)
  = Ok (expected 0 lines).
Proof.
  intros Hl Ht H0 Hfuel.
  destruct (IgnoreInitialComments_render lines trailer Hl Ht H0)
    as (lines' & trailer' & Hl' & Ht' & HE & Hinit).
  unfold Lex, Lexer_new. rewrite Hinit. simpl.
  set (lx0 := mkLexer (render lines' trailer') token_type.Newline 0 0).
  pose proof (run_lines lines' trailer' Hl' Ht' 0%nat lx0 eq_refl eq_refl
                eq_refl) as Hrun.
  destruct (expected_Eof lines' 0 Hl') as (pre & Hpre & Hne).
  rewrite HE in *.
  destruct (expected 0 lines) as [|t0 E] eqn:HEq; [by destruct pre|].
  simpl in Hrun. unfold mbind, Result_bind in Hrun |- *.
  destruct (NextToken' lx0) as [[t lxA]|e] eqn:Hn; [|done].
  destruct (run' (length E) lxA) as [[ts fin]|e] eqn:Hr; [|done].
  simplify_eq.
  pose proof (NextToken_current _ _ _ Hn) as Hc.
  rewrite (stream_of_run E lxA _ fuel Hr); [by rewrite Hc| |simpl in *; lia].
  exists pre. by rewrite Hc.
Qed.

(** X26.  For a source in which every code line tokenizes on its own
    and has no comment behind the code (comments stand on lines of their
    own), the first code line is at level 0 and every indentation is a
    whole number of two-space units, and whose code lines have the indent
    levels
    l0, l1, ..., the token stream is, line after line, the layout tokens
    for the change of level ([l' - l] times [Indent] when the level rises
    from [l] to [l'], [l - l'] times [Dedent] when it falls, none when it
    stays), the tokens of the line and one [Newline]; the blank and
    comment-only lines between the lines leave no trace: the source with
    all of them removed has the same token stream. *)
Theorem Lex_layout lines trailer fuel :
  Forall (line_ok special comparison keywords) lines ->
  Forall blank_ok trailer ->
  (forall ln, head lines = Some ln -> level ln = O) ->
  (length (expected 0 lines) <= fuel)%nat ->
  Lex special comparison keywords fuel (render lines trailer)
    = Ok (expected 0 lines)
  /\ Lex special comparison keywords fuel (render (strip lines) [])
    = Lex special comparison keywords fuel (render lines trailer).
Proof.
  intros Hl Ht H0 Hfuel.
  rewrite (Lex_expected lines trailer) by done. split; [done|].
  rewrite <- (expected_strip lines 0).
  apply Lex_expected; [by apply strip_ok|done| |by rewrite expected_strip].
  intros ln. destruct lines as [|ln0 lines]; [done|].
  simpl. intros [= <-]. simpl. by apply H0.
Qed.

(** X27.  Where layout resolution, past the blank and
    comment-only lines, has itself skipped [n] spaces in front of a code
    character: for odd [n] it throws the lexical error "invalid indent",
    and so does [NextToken] after a [Newline], and the token stream ends
    in that error; for even [n] the indent level becomes [n / 2].  At the
    start of the input, with nothing or only comment lines in front, the
    constructor's [IgnoreInitialComments] drops the [n] spaces first:
    layout resolution then finds none, and the line is at level 0 whatever
    [n] is. *)
Theorem layout_resolution_parity g n c rest :
  Forall blank_ok g -> code_char c ->
  (forall lx,
     input_ lx = render_gap g ++ spaces n ++ c :: rest ->
     (Nat.Odd n ->
        IgnoreEmptyRawsAndComments lx = Throw (LexerError "invalid indent")
        /\ (current_token_ lx = token_type.Newline ->
            NextToken' lx = Throw (LexerError "invalid indent")
            /\ forall fuel,
                token_stream special comparison keywords (S fuel) lx
                = Throw (LexerError "invalid indent")))
     /\ (Nat.Even n ->
         IgnoreEmptyRawsAndComments lx =
         Ok (mkLexer (c :: rest) (current_token_ lx) (Z.of_nat (n / 2))
               (Z.of_nat (n / 2) - current_indent_ lx))))
  /\ (Forall is_comment g ->
      IgnoreInitialComments (render_gap g ++ spaces n ++ c :: rest)
        = Ok (c :: rest)
      /\ IgnoreEmptyRawsAndComments
           (mkLexer (c :: rest) token_type.Newline 0 0)
        = Ok (mkLexer (c :: rest) token_type.Newline 0 0)).
Proof.
  intros Hg Hc. split.
  - intros lx Hinp.
    assert (IgnoreEmptyRawsAndComments lx =
      if Nat.eqb (n mod 2) 1 then Throw (LexerError "invalid indent")
      else Ok (mkLexer (c :: rest) (current_token_ lx) (Z.of_nat (n / 2))
                 (Z.of_nat (n / 2) - current_indent_ lx))) as Hres.
    { rewrite <- (with_input_id lx) at 1. rewrite Hinp.
      rewrite IgnoreEmptyRawsAndComments_gap by done.
      by rewrite IgnoreEmptyRawsAndComments_code. }
    split.
    + intros [m Hm].
      replace (n mod 2)%nat with 1%nat in Hres
        by (subst n; rewrite Nat.add_comm, Nat.mul_comm, Nat.Div0.mod_add;
            done).
      split; [done|]. intros Hcur.
      assert (NextToken' lx = Throw (LexerError "invalid indent")) as Hn.
      { by rewrite NextToken_after_Newline, Hres. }
      split; [done|]. intros fuel. simpl. unfold CurrentToken.
      by rewrite Hcur, Hn.
    + intros [m Hm].
      replace (n mod 2)%nat with 0%nat in Hres
        by (subst n; rewrite Nat.mul_comm, Nat.Div0.mod_mul; done).
      done.
  - intros Hcom. split.
    + revert Hg. induction Hcom as [|b g Hb _ IH]; intros Hg.
      * simpl. rewrite IgnoreInitialComments_unfold.
        rewrite IgnoreSpaces_spaces by (by apply peek_is_code; auto).
        simpl. pose proof (peek_is_code c rest "#" Hc) as Hp.
        simpl in Hp. rewrite Hp by auto. done.
      * destruct b as [k|k text]; [done|].
        rewrite IgnoreInitialComments_unfold.
        unfold render_gap in *. simpl. rewrite <- !app_assoc. simpl.
        rewrite IgnoreSpaces_spaces by done. simpl.
        rewrite <- app_assoc. simpl.
        apply Forall_cons in Hg as [Hb' Hg].
        rewrite getline_comment by done. by apply IH.
    + pose proof (IgnoreEmptyRawsAndComments_code
                    (mkLexer (c :: rest) token_type.Newline 0 0) 0
                    (c :: rest) Hc) as H.
      simpl in H. exact H.
Qed.

(** C9.  Where normal tokenization meets ['<'] or ['>'] with no ['=']
    behind it, it emits [Char '<'] or [Char '>'] and leaves what follows
    in the stream.  [NextToken] has no case of its own for the two
    characters: they are emitted by the test of [special_symbols], the
    table of single-character tokens declared in [lexer.h], which holds
    them. *)
Theorem NextToken_angle_bracket lx k c rest :
  c = "<"%char \/ c = ">"%char ->
  special c = true ->
  peek_is rest "=" = false ->
  current_token_ lx <> token_type.Eof ->
  current_token_ lx <> token_type.Newline ->
  diff_current_prev_indent_ lx = 0 ->
  input_ lx = spaces k ++ c :: rest ->
  NextToken' lx =
  Ok (token_type.Char c,
      mkLexer rest (token_type.Char c) (current_indent_ lx) 0).
Proof.
  intros Hc Hs Hp H1 H2 H3 Hi.
  rewrite (NextToken_normal' (fun _ => Throw OutOfFuel)) by done.
  rewrite (Tokenize_angle_bracket _ lx k c rest) by done.
  rewrite Hs. unfold with_token, with_input. simpl. by rewrite H3.
Qed.

End LexerFacts.


(** ** The lexer on concrete sources *)

Section LexerExamples.

Import parse layout samples.

Abbreviation NextToken_spec :=
  (NextToken special_symbols comparison_symbols keyword_to_token).

Ltac line_ok_by_computation :=
  split;
  [ repeat (apply Forall_cons; split; [compute_done|]); apply List.Forall_nil
  | split; [eexists _, _; split; [reflexivity|compute_done]|];
    split; [repeat (apply Forall_cons; split; [done|]); apply List.Forall_nil|];
    intros next cur ind rest; vm_compute; reflexivity ].

(** [Lex_layout] on a source of four code lines at the levels 0, 2, 2, 0,
    with blank and comment-only lines in between and after. *)
Lemma Lex_layout_witness :
  Lex special_symbols comparison_symbols keyword_to_token 30
      (render sample_lines [OnlySpaces 1])
    = Ok (expected 0 sample_lines)
  /\ Lex special_symbols comparison_symbols keyword_to_token 30
        (render (strip sample_lines) [])
    = Lex special_symbols comparison_symbols keyword_to_token 30
        (render sample_lines [OnlySpaces 1]).
Proof.
  apply (Lex_layout special_symbols comparison_symbols keyword_to_token
           sample_lines [OnlySpaces 1] 30).
  - repeat (apply Forall_cons; split; [line_ok_by_computation|]).
    apply List.Forall_nil.
  - repeat (apply Forall_cons; split; [compute_done|]). apply List.Forall_nil.
  - intros ln [= <-]. reflexivity.
  - vm_compute. lia.
Defined.

(** The token stream of the sample source, written out. *)
Example sample_token_stream :
  expected 0 sample_lines =
  [token_type.If; token_type.Id "x"; token_type.GreaterOrEq;
   token_type.Number 1; token_type.Char ":"; token_type.Newline;
   token_type.Indent; token_type.Indent; token_type.Id "y";
   token_type.Char "="; token_type.String "a b"; token_type.Newline;
   token_type.Print; token_type.Id "y"; token_type.Char ",";
   token_type.Number 2; token_type.Newline;
   token_type.Dedent; token_type.Dedent; token_type.Id "z";
   token_type.Newline; token_type.Eof].
Proof. reflexivity. Qed.

(** A comment behind code is outside what [Lex_layout] covers: the ['#']
    branch of [NextToken] runs layout resolution on the next line, and the
    call after the [Newline] runs it again where the first one stopped, so
    the two-space line comes out one level down instead of one level up. *)
Example comment_behind_code :
  Lex_spec 10 (src ["x # note"; "  y"]) =
  Ok [token_type.Id "x"; token_type.Newline; token_type.Dedent;
      token_type.Id "y"; token_type.Newline; token_type.Eof].
Proof. reflexivity. Qed.

(** C2.  The layout tokens do not follow the indent levels where a
    comment stands behind code.  The second line of this source is one
    level up from the first; with the comment behind [if x:] the lexer
    returns one [Dedent] in front of it and none at the end, and without
    the comment, where the line end is met by the branch for ['\n'], it
    returns the [Indent] and the closing [Dedent]. *)
Theorem comment_behind_code_breaks_layout :
  Lex_spec 20 (src ["if x: # check"; "  y = 1"]) =
  Ok [token_type.If; token_type.Id "x"; token_type.Char ":";
      token_type.Newline; token_type.Dedent;
      token_type.Id "y"; token_type.Char "="; token_type.Number 1;
      token_type.Newline; token_type.Eof]
  /\ Lex_spec 20 (src ["if x:"; "  y = 1"]) =
     Ok [token_type.If; token_type.Id "x"; token_type.Char ":";
         token_type.Newline; token_type.Indent;
         token_type.Id "y"; token_type.Char "="; token_type.Number 1;
         token_type.Newline; token_type.Dedent; token_type.Eof].
Proof. split; reflexivity. Qed.

(** C8.  An odd indentation of the first code line is not rejected.  The
    line of this source has three spaces in front, which layout
    resolution would count, and the lexer reads it to the end without an
    error, at level 0: the constructor's [IgnoreInitialComments] has
    dropped the spaces before layout resolution runs.  Behind a blank
    line the same line is rejected. *)
Theorem first_line_odd_indent_accepted :
  count_spaces (src ["   x = 1"]) = (3%nat, src ["x = 1"])
  /\ Lex_spec 10 (src ["   x = 1"]) =
     Ok [token_type.Id "x"; token_type.Char "="; token_type.Number 1;
         token_type.Newline; token_type.Eof]
  /\ Lex_spec 10 (src [""; "   x = 1"]) =
     Throw (LexerError "invalid indent").
Proof. split_and!; reflexivity. Qed.

(** [layout_resolution_parity] after the line [if x:] and a blank line, in
    front of a line indented by three spaces. *)
Lemma layout_resolution_parity_witness :
  IgnoreEmptyRawsAndComments
    (mkLexer (src [""; "   y = 1"]) token_type.Newline 0 0)
    = Throw (LexerError "invalid indent")
  /\ NextToken_spec (mkLexer (src [""; "   y = 1"]) token_type.Newline 0 0)
    = Throw (LexerError "invalid indent").
Proof.
  destruct (layout_resolution_parity special_symbols comparison_symbols
              keyword_to_token
              [OnlySpaces 0] 3 "y" (chars " = 1" ++ [NL]))
    as [H _].
  - repeat (apply Forall_cons; split; [compute_done|]). apply List.Forall_nil.
  - compute_done.
  - destruct (H (mkLexer (src [""; "   y = 1"]) token_type.Newline 0 0)
                eq_refl) as [Hodd _].
    destruct Hodd as [H1 H2]; [by exists 1%nat|].
    split; [exact H1|]. by apply H2.
Defined.

(** [NextToken_angle_bracket] behind the name [x], in front of [" < 2"]. *)
Lemma NextToken_angle_bracket_witness :
  NextToken_spec (mkLexer (chars " < 2") (token_type.Id "x") 0 0)
  = Ok (token_type.Char "<",
        mkLexer (chars " 2") (token_type.Char "<") 0 0).
Proof.
  exact (NextToken_angle_bracket special_symbols comparison_symbols
           keyword_to_token
           (mkLexer (chars " < 2") (token_type.Id "x") 0 0)
           1 "<" (chars " 2") (or_introl eq_refl) eq_refl eq_refl
           ltac:(discriminate) ltac:(discriminate) eq_refl eq_refl).
Defined.

End LexerExamples.

(** * Properties of the evaluator *)

Section EvaluatorFacts.

Import runtime ast.

Variable classes : ClassId -> Class.
Variable address_repr : nat -> string.

Abbreviation Execute' := (Execute classes address_repr).

Lemma Execute_S fuel s closure w :
  Execute' (S fuel) s closure w =
  Execute_node classes address_repr (Execute' fuel) s closure w.
Proof. done. Qed.

(** A bound name stays bound: nothing removes a key from a scope. *)
Definition keeps_keys
    (exec : Statement -> Closure -> World -> Outcome) : Prop :=
  forall s (closure : Closure) w r (closure' : Closure) w',
    exec s closure w = Ok (r, closure', w') ->
    forall k, is_Some (closure !! k) -> is_Some (closure' !! k).

Section KeepsKeys.

Variable exec : Statement -> Closure -> World -> Outcome.
Hypothesis exec_keeps : keeps_keys exec.

Ltac bind_cases H :=
  unfold mbind, Result_bind in H;
  repeat (case_match; simplify_eq/=; try done).

Lemma is_Some_insert (closure : Closure) k k' v :
  is_Some (closure !! k) -> is_Some (<[k' := v]> closure !! k).
Proof.
  intros Hk. destruct (decide (k' = k)) as [->|Hne].
  - rewrite lookup_insert_eq. eauto.
  - by rewrite lookup_insert_ne.
Qed.

Lemma exec_args_keeps args (closure : Closure) w vs (closure' : Closure) w' :
  exec_args exec args closure w = Ok (vs, closure', w') ->
  forall k, is_Some (closure !! k) -> is_Some (closure' !! k).
Proof.
  revert closure w vs closure' w'.
  induction args as [|a args IH]; intros closure w vs closure' w' H k Hk;
    simpl in H.
  - by simplify_eq.
  - unfold mbind, Result_bind in H.
    destruct (exec a closure w) as [[[v c1] w1]|] eqn:E1; [|done].
    destruct (exec_args exec args c1 w1) as [[[vs' c2] w2]|] eqn:E2; [|done].
    simplify_eq. eapply IH; [exact E2|]. eapply exec_keeps; eauto.
Qed.

Lemma print_args_keeps args (closure : Closure) w (closure' : Closure) w' :
  print_args classes address_repr exec args closure w = Ok (closure', w') ->
  forall k, is_Some (closure !! k) -> is_Some (closure' !! k).
Proof.
  revert closure w closure' w'.
  induction args as [|a args IH]; intros closure w closure' w' H k Hk;
    simpl in H.
  - by simplify_eq.
  - unfold mbind at 1, Result_bind at 1 in H.
    destruct (exec a closure w) as [[[v c1] w1]|] eqn:E1; [|done].
    unfold mbind at 1, Result_bind at 1 in H.
    destruct (match v with Some _ => _ | Datatypes.None => _ end)
      as [[text w2]|]; [|done].
    eapply IH; [exact H|]. eapply exec_keeps; eauto.
Qed.

Lemma exec_statements_keeps stmts (closure : Closure) w r
    (closure' : Closure) w' :
  exec_statements exec stmts closure w = Ok (r, closure', w') ->
  forall k, is_Some (closure !! k) -> is_Some (closure' !! k).
Proof.
  revert closure w.
  induction stmts as [|a stmts IH]; intros closure w H k Hk; simpl in H.
  - by simplify_eq.
  - unfold mbind, Result_bind in H.
    destruct (exec a closure w) as [[[v c1] w1]|] eqn:E1; [|done].
    pose proof (exec_keeps _ _ _ _ _ _ E1 k Hk) as Hk1.
    case_bool_decide; [by simplify_eq|]. eapply IH; eauto.
Qed.

Lemma Execute_node_keeps :
  keeps_keys (Execute_node classes address_repr exec).
Proof.
  intros s closure w r closure' w' H k Hk.
  destruct s; simpl in H.
  - (* Assignment *)
    bind_cases H. apply is_Some_insert. eapply exec_keeps; eauto.
  - (* VariableValue *)
    unfold VariableValue_Execute in H. by bind_cases H.
  - (* Print *)
    unfold mbind, Result_bind in H.
    destruct (print_args _ _ _ _ _ _) as [[c1 w1]|] eqn:E; [|done].
    simplify_eq. eapply print_args_keeps; eauto.
  - (* MethodCall *)
    unfold MethodCall_Execute, mbind, Result_bind in H.
    destruct (exec_args _ _ _ _) as [[[vs c1] w1]|] eqn:E1; [|done].
    destruct (exec s c1 w1) as [[[v c2] w2]|] eqn:E2; [|done].
    pose proof (exec_args_keeps _ _ _ _ _ _ E1 k Hk) as Hk1.
    pose proof (exec_keeps _ _ _ _ _ _ E2 k Hk1) as Hk2.
    by bind_cases H.
  - (* Stringify *)
    unfold Stringify_Execute, mbind, Result_bind in H.
    destruct (exec s closure w) as [[[v c1] w1]|] eqn:E1; [|done].
    pose proof (exec_keeps _ _ _ _ _ _ E1 k Hk) as Hk1.
    by bind_cases H.
  - (* Add *)
    unfold Add_Execute, mbind, Result_bind in H.
    destruct (exec s1 closure w) as [[[v c1] w1]|] eqn:E1; [|done].
    destruct (exec s2 c1 w1) as [[[v' c2] w2]|] eqn:E2; [|done].
    pose proof (exec_keeps _ _ _ _ _ _ E1 k Hk) as Hk1.
    pose proof (exec_keeps _ _ _ _ _ _ E2 k Hk1) as Hk2.
    by bind_cases H.
  - (* Sub *)
    unfold arithmetic, mbind, Result_bind in H.
    destruct (exec s1 closure w) as [[[v c1] w1]|] eqn:E1; [|done].
    destruct (exec s2 c1 w1) as [[[v' c2] w2]|] eqn:E2; [|done].
    pose proof (exec_keeps _ _ _ _ _ _ E1 k Hk) as Hk1.
    pose proof (exec_keeps _ _ _ _ _ _ E2 k Hk1) as Hk2.
    by bind_cases H.
  - (* Mult *)
    unfold arithmetic, mbind, Result_bind in H.
    destruct (exec s1 closure w) as [[[v c1] w1]|] eqn:E1; [|done].
    destruct (exec s2 c1 w1) as [[[v' c2] w2]|] eqn:E2; [|done].
    pose proof (exec_keeps _ _ _ _ _ _ E1 k Hk) as Hk1.
    pose proof (exec_keeps _ _ _ _ _ _ E2 k Hk1) as Hk2.
    by bind_cases H.
  - (* Div *)
    unfold arithmetic, mbind, Result_bind in H.
    destruct (exec s1 closure w) as [[[v c1] w1]|] eqn:E1; [|done].
    destruct (exec s2 c1 w1) as [[[v' c2] w2]|] eqn:E2; [|done].
    pose proof (exec_keeps _ _ _ _ _ _ E1 k Hk) as Hk1.
    pose proof (exec_keeps _ _ _ _ _ _ E2 k Hk1) as Hk2.
    by bind_cases H.
  - (* Compound *)
    eapply exec_statements_keeps; eauto.
  - (* Return *)
    bind_cases H. apply is_Some_insert. eapply exec_keeps; eauto.
  - (* ClassDefinition *)
    simplify_eq. by apply is_Some_insert.
  - (* FieldAssignment *)
    unfold FieldAssignment_Execute, VariableValue_Execute, mbind,
      Result_bind in H.
    repeat (case_match; simplify_eq/=; try done).
    eapply exec_keeps; eauto.
  - (* IfElse *)
    unfold mbind, Result_bind in H.
    destruct (exec s1 closure w) as [[[v c1] w1]|] eqn:E1; [|done].
    pose proof (exec_keeps _ _ _ _ _ _ E1 k Hk) as Hk1.
    repeat (case_match; simplify_eq/=; try done);
      eapply exec_keeps; eauto.
  - (* Or *)
    unfold mbind, Result_bind in H.
    destruct (exec s1 closure w) as [[[v c1] w1]|] eqn:E1; [|done].
    pose proof (exec_keeps _ _ _ _ _ _ E1 k Hk) as Hk1.
    repeat (case_match; simplify_eq/=; try done);
      eapply exec_keeps; eauto.
  - (* And *)
    unfold mbind, Result_bind in H.
    destruct (exec s1 closure w) as [[[v c1] w1]|] eqn:E1; [|done].
    pose proof (exec_keeps _ _ _ _ _ _ E1 k Hk) as Hk1.
    repeat (case_match; simplify_eq/=; try done);
      eapply exec_keeps; eauto.
  - (* Not *)
    bind_cases H. eapply exec_keeps; eauto.
  - (* Comparison *)
    unfold mbind, Result_bind in H.
    destruct (exec s1 closure w) as [[[v c1] w1]|] eqn:E1; [|done].
    destruct (exec s2 c1 w1) as [[[v' c2] w2]|] eqn:E2; [|done].
    pose proof (exec_keeps _ _ _ _ _ _ E1 k Hk) as Hk1.
    pose proof (exec_keeps _ _ _ _ _ _ E2 k Hk1) as Hk2.
    by bind_cases H.
  - (* NewInstance *)
    unfold NewInstance_Execute, mbind, Result_bind in H.
    destruct (GetMethod _ _) as [m|]; [|by simplify_eq].
    destruct (negb _); [by simplify_eq|].
    destruct (exec_args _ _ _ _) as [[[vs c1] w1]|] eqn:E1; [|done].
    pose proof (exec_args_keeps _ _ _ _ _ _ E1 k Hk) as Hk1.
    by bind_cases H.
  - (* MethodBody *)
    bind_cases H; eapply exec_keeps; eauto.
Qed.

End KeepsKeys.

Lemma Execute_keeps fuel : keeps_keys (Execute' fuel).
Proof.
  induction fuel as [|fuel IH]; [by intros ???????|].
  intros s closure w r closure' w'. rewrite Execute_S.
  by apply Execute_node_keeps.
Qed.

(** *** The scope of a call *)

Lemma bind_params_keeps (ps : list string) (vs : list ObjectHolder)
    (init : Closure) k :
  is_Some (init !! k) ->
  is_Some (fold_left (fun cl '(p, a) => <[p := a]> cl) (zip ps vs) init !! k).
Proof.
  revert vs init. induction ps as [|p ps IH]; intros [|v vs] init Hk;
    simpl; try done.
  apply IH. by apply is_Some_insert.
Qed.

Lemma bind_params_dom (ps : list string) (vs : list ObjectHolder)
    (init : Closure) k :
  is_Some (fold_left (fun cl '(p, a) => <[p := a]> cl) (zip ps vs) init !! k)
  -> is_Some (init !! k) \/ k ∈ ps.
Proof.
  revert vs init. induction ps as [|p ps IH]; intros [|v vs] init Hk;
    simpl in *; auto.
  destruct (IH _ _ Hk) as [Hi|Hi].
  - destruct (decide (p = k)) as [->|Hne].
    + right. apply list_elem_of_here.
    + left. by rewrite lookup_insert_ne in Hi.
  - right. by apply list_elem_of_further.
Qed.

Lemma bind_params_other (ps : list string) (vs : list ObjectHolder)
    (init : Closure) k :
  k ∉ ps ->
  fold_left (fun cl '(p, a) => <[p := a]> cl) (zip ps vs) init !! k
  = init !! k.
Proof.
  revert vs init. induction ps as [|p ps IH]; intros [|v vs] init Hk;
    simpl; try done.
  apply not_elem_of_cons in Hk as [Hne Hk].
  rewrite IH by done. by rewrite lookup_insert_ne.
Qed.

Lemma bind_params_lookup (ps : list string) (vs : list ObjectHolder)
    (init : Closure) i p a :
  NoDup ps -> ps !! i = Some p -> vs !! i = Some a ->
  fold_left (fun cl '(p, a) => <[p := a]> cl) (zip ps vs) init !! p
  = Some a.
Proof.
  revert vs init i. induction ps as [|q ps IH]; intros [|v vs] init i Hnd Hp Ha;
    try done.
  apply NoDup_cons in Hnd as [Hq Hnd]. destruct i as [|i]; simpl in *.
  - simplify_eq. rewrite bind_params_other by done.
    by rewrite lookup_insert_eq.
  - by eapply IH.
Qed.

Lemma call_closure_self this ps vs :
  is_Some (call_closure this ps vs !! "self").
Proof.
  apply bind_params_keeps. rewrite lookup_insert_eq. eauto.
Qed.

(** *** What [Call] does, once the method is found *)

Lemma Call_found exec this method actual_args w inst m :
  heap w !! this = Some inst ->
  GetMethod (classes (class_ inst)) method = Some m ->
  length (formal_params m) = length actual_args ->
  Call classes exec this method actual_args w =
  '(result, closure', w') ←
     exec (body m) (call_closure this (formal_params m) actual_args) w;
  match closure' !! "self" with
  | Datatypes.None => Throw (OutOfRange "unordered_map::at")
  | Some self =>
      if bool_decide (self <> Some (Instance this))
      then Ok (self, w') else Ok (result, w')
  end.
Proof.
  intros Hi Hm Hlen. unfold Call, instance_at, HasMethod.
  rewrite Hi. simpl. rewrite Hm, Hlen, Nat.eqb_refl. done.
Qed.

Lemma Call_arity exec this method actual_args w inst m :
  heap w !! this = Some inst ->
  GetMethod (classes (class_ inst)) method = Some m ->
  length (formal_params m) <> length actual_args ->
  Call classes exec this method actual_args w =
  Throw (RuntimeError "method not found").
Proof.
  intros Hi Hm Hlen. unfold Call, instance_at, HasMethod.
  rewrite Hi. simpl. rewrite Hm.
  apply Nat.eqb_neq in Hlen. by rewrite Hlen.
Qed.

(** C1.  Once the body of the method has run, [Call] looks at what the
    scope of the call binds [self] to: when that is no longer the
    receiver, [Call] returns what [self] is bound to; otherwise it returns
    what the body returned. *)
Theorem Call_self_rule fuel this method actual_args w inst m
    result closure' w' :
  heap w !! this = Some inst ->
  GetMethod (classes (class_ inst)) method = Some m ->
  length (formal_params m) = length actual_args ->
  Execute' fuel (body m)
    (call_closure this (formal_params m) actual_args) w
    = Ok (result, closure', w') ->
  exists self,
    closure' !! "self" = Some self
    /\ Call classes (Execute' fuel) this method actual_args w =
       Ok (if bool_decide (self = Some (Instance this)) then result else self,
           w').
Proof.
  intros Hi Hm Hlen Hbody.
  destruct (Execute_keeps fuel _ _ _ _ _ _ Hbody "self"
              (call_closure_self _ _ _)) as [self Hself].
  exists self. split; [done|].
  rewrite (Call_found _ _ _ _ _ inst m) by done.
  rewrite Hbody, bind_Ok. simpl. rewrite Hself.
  destruct (decide (self = Some (Instance this))) as [->|Hne].
  - rewrite bool_decide_eq_false_2 by (intros ?; done).
    by rewrite bool_decide_eq_true_2.
  - rewrite bool_decide_eq_true_2 by done.
    by rewrite bool_decide_eq_false_2.
Qed.

(** *** Compound statements and the return sentinel *)

Lemma Return_sets_sentinel fuel e (closure : Closure) w r
    (closure' : Closure) w' :
  Execute' fuel (Return e) closure w = Ok (r, closure', w') ->
  is_Some (closure' !! "returned_value").
Proof.
  destruct fuel as [|fuel]; [done|]. rewrite Execute_S. simpl.
  destruct (Execute' fuel e closure w) as [[[v c1] w1]|]; [|done].
  rewrite bind_Ok. intros [= <- <- <-]. rewrite lookup_insert_eq. eauto.
Qed.

Lemma exec_statements_stop exec pre s post (closure : Closure) w :
  (forall (c : Closure) w0 r (c' : Closure) w0',
     exec s c w0 = Ok (r, c', w0') -> is_Some (c' !! "returned_value")) ->
  exec_statements exec (pre ++ s :: post) closure w =
  exec_statements exec (pre ++ [s]) closure w.
Proof.
  intros Hs. revert closure w.
  induction pre as [|p pre IH]; intros closure w; simpl.
  - destruct (exec s closure w) as [[[v c1] w1]|] eqn:E; [|done].
    rewrite !bind_Ok. simpl.
    by rewrite bool_decide_eq_true_2 by (eapply Hs; eauto).
  - destruct (exec p closure w) as [[[v c1] w1]|]; [|done].
    rewrite !bind_Ok. simpl. by rewrite IH.
Qed.

(** C3.  A [Compound] runs its statements in order; as soon as the scope
    holds "returned_value" after a statement, it returns the empty handle
    and runs none of the statements that follow.  [Return] binds the
    value of its expression to "returned_value", so what follows a
    [Return] in a [Compound] makes no difference: it is not run. *)
Theorem Compound_return_sentinel fuel :
  (forall s post (closure : Closure) w,
     Execute classes address_repr (S fuel) (Compound (s :: post)) closure w =
     match Execute classes address_repr fuel s closure w with
     | Ok (_, closure1, w1) =>
         if bool_decide (is_Some (closure1 !! "returned_value"))
         then Ok (Datatypes.None, closure1, w1)
         else Execute classes address_repr (S fuel) (Compound post)
                closure1 w1
     | Throw e => Throw e
     end)
  /\ (forall (closure : Closure) w,
        Execute classes address_repr (S fuel) (Compound []) closure w
        = Ok (Datatypes.None, closure, w))
  /\ (forall e (closure : Closure) w,
        Execute classes address_repr (S fuel) (Return e) closure w =
        match Execute classes address_repr fuel e closure w with
        | Ok (v, closure1, w1) =>
            Ok (Datatypes.None, <["returned_value" := v]> closure1, w1)
        | Throw err => Throw err
        end)
  /\ (forall pre e post (closure : Closure) w,
        Execute classes address_repr (S fuel)
          (Compound (pre ++ Return e :: post)) closure w =
        Execute classes address_repr (S fuel)
          (Compound (pre ++ [Return e])) closure w).
Proof.
  split_and!.
  - intros s post closure w. rewrite !Execute_S. simpl.
    by destruct (Execute' fuel s closure w) as [[[v c1] w1]|].
  - done.
  - intros e closure w. rewrite Execute_S. simpl.
    by destruct (Execute' fuel e closure w) as [[[v c1] w1]|].
  - intros pre e post closure w. rewrite !Execute_S. simpl.
    apply exec_statements_stop. intros c w0 r c' w0'.
    apply Return_sets_sentinel.
Qed.

(** *** Equality *)

(** C4, as amended.  [Equal(x, x)] is true when [x] is the empty handle,
    a number, a string or a boolean.  For a class it throws "Cannot
    compare objects for equality".  For an instance it is the truth of
    what [__eq__] returns when the class has [__eq__] with one parameter,
    and the same error otherwise. *)
Theorem Equal_same exec (x : ObjectHolder) w :
  match x with
  | Datatypes.None | Some (Number _) | Some (String _) | Some (Bool _) =>
      Equal classes exec x x w = Ok (true, w)
  | Some (ClassRef _) =>
      Equal classes exec x x w
      = Throw (RuntimeError "Cannot compare objects for equality")
  | Some (Instance this) =>
      Equal classes exec x x w =
      inst ← instance_at w this;
      if HasMethod classes inst "__eq__" 1 then
        '(r, w') ← Call classes exec this "__eq__" [x] w; Ok (IsTrue r, w')
      else Throw (RuntimeError "Cannot compare objects for equality")
  end.
Proof.
  destruct x as [[n|s|b|c|this]|]; simpl; try done.
  - by rewrite Z.eqb_refl.
  - by rewrite String.eqb_refl.
  - by destruct b.
Qed.

(** *** Construction *)

(** C5, as amended.  [NewInstance] makes a fresh instance of the class
    with no fields.  When the lookup of [__init__] finds nothing, or finds
    a method whose number of parameters is not the number of argument
    expressions, the fresh instance is returned, and no argument is
    evaluated: the scope is as it was and nothing is written.  Otherwise
    the arguments are evaluated, [__init__] is called on the fresh
    instance, and what [Call] returns is returned when it is not the
    empty handle; when it is, the fresh instance is returned. *)
Theorem NewInstance_result fuel cls args (closure : Closure) w :
  let this := length (heap w) in
  let w0 := mkWorld (heap w ++ [mkInstance cls ∅]) (output w) in
  heap w !! this = Datatypes.None
  /\ heap w0 !! this = Some (mkInstance cls ∅)
  /\ ((forall m, GetMethod (classes cls) INIT_METHOD = Some m ->
                length (formal_params m) <> length args) ->
      Execute' (S fuel) (NewInstance cls args) closure w
      = Ok (Some (Instance this), closure, w0))
  /\ (forall m vs (closure1 : Closure) w1 r w2,
        GetMethod (classes cls) INIT_METHOD = Some m ->
        length (formal_params m) = length args ->
        exec_args (Execute' fuel) args closure w0 = Ok (vs, closure1, w1) ->
        Call classes (Execute' fuel) this INIT_METHOD vs w1 = Ok (r, w2) ->
        Execute' (S fuel) (NewInstance cls args) closure w
        = Ok (match r with
              | Some _ => r
              | Datatypes.None => Some (Instance this)
              end, closure1, w2)).
Proof.
  intros this w0. split_and!.
  - apply lookup_ge_None. unfold this. lia.
  - unfold w0, this. simpl. by rewrite lookup_app_r, Nat.sub_diag by lia.
  - intros Hno. rewrite Execute_S. simpl. unfold NewInstance_Execute.
    destruct (GetMethod (classes cls) INIT_METHOD) as [m|] eqn:Hm; [|done].
    specialize (Hno m eq_refl). apply Nat.eqb_neq in Hno. by rewrite Hno.
  - intros m vs closure1 w1 r w2 Hm Hlen Hargs Hcall.
    rewrite Execute_S. simpl. unfold NewInstance_Execute.
    rewrite Hm, Hlen, Nat.eqb_refl. simpl.
    fold this. fold w0. rewrite Hargs, bind_Ok. simpl.
    rewrite Hcall, bind_Ok. simpl. by destruct r.
Qed.

(** *** Method calls *)

(** C6.  The body of a called method runs in a scope built for the call,
    which binds "self" and the formal parameters, each to the argument in
    its position, and nothing else: a name that is neither is unknown
    there, whatever the scope of the caller holds.  [MethodCall] hands the
    call the receiver, the argument handles and the world only, and gets
    its own scope back as the operands left it: two callers with different
    scopes that pass the same receiver and arguments get the same value
    and the same world from the call. *)
Theorem method_call_isolation fuel this method actual_args w inst m :
  heap w !! this = Some inst ->
  GetMethod (classes (class_ inst)) method = Some m ->
  length (formal_params m) = length actual_args ->
  let scope := call_closure this (formal_params m) actual_args in
  Call classes (Execute' fuel) this method actual_args w =
    ('(result, scope', w') ← Execute' fuel (body m) scope w;
     match scope' !! "self" with
     | Datatypes.None => Throw (OutOfRange "unordered_map::at")
     | Some self =>
         if bool_decide (self <> Some (Instance this))
         then Ok (self, w') else Ok (result, w')
     end)
  /\ (forall k, is_Some (scope !! k) -> k = "self" \/ k ∈ formal_params m)
  /\ ("self" ∉ formal_params m ->
      scope !! "self" = Some (Some (Instance this)))
  /\ (NoDup (formal_params m) ->
      forall i p a, formal_params m !! i = Some p ->
                    actual_args !! i = Some a -> scope !! p = Some a)
  /\ (forall x path n w0,
        x <> "self" -> x ∉ formal_params m ->
        Execute' (S n) (VariableValue (x :: path)) scope w0
        = Throw (RuntimeError ("unknown variable " +:+ x)))
  /\ (forall object args (caller : Closure) w0 (caller1 caller2 : Closure) w1,
        exec_args (Execute' fuel) args caller w0
          = Ok (actual_args, caller1, w1) ->
        Execute' fuel object caller1 w1
          = Ok (Some (Instance this), caller2, w) ->
        Execute' (S fuel) (MethodCall object method args) caller w0 =
        '(r, w3) ← Call classes (Execute' fuel) this method actual_args w;
        Ok (r, caller2, w3))
  /\ (forall object args (callerA callerB : Closure) wA wB
             (a1 b1 a2 b2 : Closure) wA1 wB1 r (a3 : Closure) w3,
        exec_args (Execute' fuel) args callerA wA
          = Ok (actual_args, a1, wA1) ->
        exec_args (Execute' fuel) args callerB wB
          = Ok (actual_args, b1, wB1) ->
        Execute' fuel object a1 wA1 = Ok (Some (Instance this), a2, w) ->
        Execute' fuel object b1 wB1 = Ok (Some (Instance this), b2, w) ->
        Execute' (S fuel) (MethodCall object method args) callerA wA
          = Ok (r, a3, w3) ->
        a3 = a2
        /\ Execute' (S fuel) (MethodCall object method args) callerB wB
           = Ok (r, b2, w3)).
Proof.
  intros Hi Hm Hlen scope. split_and!.
  - by apply (Call_found _ _ _ _ _ inst m).
  - intros k Hk. apply bind_params_dom in Hk as [Hk|Hk]; [|by right].
    left. destruct (decide (k = "self")) as [->|Hne]; [done|].
    rewrite lookup_insert_ne, lookup_empty in Hk by done.
    by destruct Hk.
  - intros Hself. unfold scope, call_closure.
    rewrite bind_params_other by done. by rewrite lookup_insert_eq.
  - intros Hnd i p a Hp Ha. by eapply bind_params_lookup.
  - intros x path n w0 Hx Hxp. rewrite Execute_S. simpl.
    assert (scope !! x = Datatypes.None) as ->; [|done].
    unfold scope, call_closure. rewrite bind_params_other by done.
    by rewrite lookup_insert_ne, lookup_empty.
  - intros object args caller w0 caller1 caller2 w1 Hargs Hobj.
    rewrite Execute_S. simpl. unfold MethodCall_Execute.
    rewrite Hargs, bind_Ok. simpl. rewrite Hobj, bind_Ok. done.
  - intros object args callerA callerB wA wB a1 b1 a2 b2 wA1 wB1 r a3 w3
      HargsA HargsB HobjA HobjB.
    rewrite !Execute_S. simpl. unfold MethodCall_Execute.
    rewrite HargsA, HargsB, !bind_Ok. simpl.
    rewrite HobjA, HobjB, !bind_Ok. simpl.
    destruct (Call _ _ _ _ _ _) as [[r' w']|]; [|done].
    rewrite !bind_Ok. by intros [= <- <- <-].
Qed.

(** *** Printing an instance *)

#[local] Arguments Execute : simpl never.

Lemma Print_one fuel x (closure : Closure) w object :
  closure !! x = Some (Some object) ->
  Execute' (S (S fuel)) (Print [VariableValue [x]]) closure w =
  '(text, w') ← PrintObject classes address_repr (Execute' (S fuel)) object w;
  Ok (Datatypes.None, closure, write (write w' text) parse.endl).
Proof.
  intros Hx. rewrite Execute_S. simpl. rewrite Execute_S. simpl.
  rewrite Hx. simpl.
  by destruct (PrintObject _ _ _ _ _) as [[text w']|].
Qed.

(** C7, as amended.  Printing an instance: when the lookup of [__str__]
    in its class and the parents finds nothing, the address of the
    instance is written; when it finds a method with no parameters and
    calling it returns a string, that string is written; when it finds a
    method that has parameters, printing throws "method not found". *)
Theorem Instance_print fuel x (closure : Closure) w this inst :
  closure !! x = Some (Some (Instance this)) ->
  heap w !! this = Some inst ->
  let exec := Execute' (S fuel) in
  let look := GetMethod (classes (class_ inst)) "__str__" in
  (look = Datatypes.None ->
     PrintObject classes address_repr exec (Instance this) w
       = Ok (address_repr this, w)
     /\ Execute' (S (S fuel)) (Print [VariableValue [x]]) closure w
       = Ok (Datatypes.None, closure,
             write (write w (address_repr this)) parse.endl))
  /\ (forall m s w',
        look = Some m -> formal_params m = [] ->
        Call classes exec this "__str__" [] w = Ok (Some (String s), w') ->
        PrintObject classes address_repr exec (Instance this) w = Ok (s, w')
        /\ Execute' (S (S fuel)) (Print [VariableValue [x]]) closure w
          = Ok (Datatypes.None, closure, write (write w' s) parse.endl))
  /\ (forall m,
        look = Some m -> formal_params m <> [] ->
        PrintObject classes address_repr exec (Instance this) w
          = Throw (RuntimeError "method not found")
        /\ Execute' (S (S fuel)) (Print [VariableValue [x]]) closure w
          = Throw (RuntimeError "method not found")).
Proof.
  intros Hx Hi exec look. split_and!.
  - intros Hlook.
    assert (PrintObject classes address_repr exec (Instance this) w
            = Ok (address_repr this, w)) as Hp.
    { unfold PrintObject, instance_at. rewrite Hi. simpl.
      fold look. by rewrite Hlook. }
    split; [done|]. rewrite (Print_one _ _ _ _ _ Hx). fold exec.
    by rewrite Hp.
  - intros m s w' Hlook Hparams Hcall.
    assert (PrintObject classes address_repr exec (Instance this) w
            = Ok (s, w')) as Hp.
    { unfold PrintObject, instance_at. rewrite Hi. simpl.
      fold look. rewrite Hlook, Hcall. done. }
    split; [done|]. rewrite (Print_one _ _ _ _ _ Hx). fold exec.
    by rewrite Hp.
  - intros m Hlook Hparams.
    assert (PrintObject classes address_repr exec (Instance this) w
            = Throw (RuntimeError "method not found")) as Hp.
    { unfold PrintObject, instance_at. rewrite Hi. simpl.
      fold look. rewrite Hlook.
      rewrite (Call_arity _ _ _ _ _ inst m); [done..|].
      by destruct (formal_params m). }
    split; [done|]. rewrite (Print_one _ _ _ _ _ Hx). fold exec.
    by rewrite Hp.
Qed.

(** *** Dotted names *)

(** C10.  Reading a dotted name whose first segment is bound: when the
    value reached so far is an instance whose field map lacks the next
    segment, no error is raised; the segment is entered into the field
    map with an empty handle, and the empty handle is what the segment
    yields.  "unknown field" is raised exactly at a segment where the
    value reached so far is not an instance. *)
Theorem VariableValue_missing_field fuel x (closure : Closure) object :
  closure !! x = Some object ->
  (forall path w,
     Execute' (S fuel) (VariableValue (x :: path)) closure w =
     '(value, w') ← read_fields object path w; Ok (value, closure, w'))
  /\ (forall this inst id more w,
        heap w !! this = Some inst ->
        fields_ inst !! id = Datatypes.None ->
        read_fields (Some (Instance this)) (id :: more) w =
        read_fields Datatypes.None more
          (set_fields w this inst (<[id := Datatypes.None]> (fields_ inst))))
  /\ (forall this inst id w,
        object = Some (Instance this) ->
        heap w !! this = Some inst ->
        fields_ inst !! id = Datatypes.None ->
        Execute' (S fuel) (VariableValue [x; id]) closure w =
        Ok (Datatypes.None, closure,
            set_fields w this inst (<[id := Datatypes.None]> (fields_ inst))))
  /\ (forall this inst id value more w,
        heap w !! this = Some inst ->
        fields_ inst !! id = Some value ->
        read_fields (Some (Instance this)) (id :: more) w =
        read_fields value more w)
  /\ (forall (value : ObjectHolder) id more w,
        (forall this, value <> Some (Instance this)) ->
        read_fields value (id :: more) w =
        Throw (RuntimeError ("unknown field " +:+ id)))
  /\ (forall (value : ObjectHolder) path w msg,
        read_fields value path w = Throw (RuntimeError msg) ->
        exists id, id ∈ path /\ msg = "unknown field " +:+ id).
Proof.
  intros Hx. split_and!.
  - intros path w. rewrite Execute_S. simpl. by rewrite Hx.
  - intros this inst id more w Hi Hf. simpl. unfold instance_at.
    by rewrite Hi, bind_Ok, Hf.
  - intros this inst id w -> Hi Hf. rewrite Execute_S. simpl.
    rewrite Hx. simpl. unfold instance_at. by rewrite Hi, bind_Ok, Hf.
  - intros this inst id value more w Hi Hf. simpl. unfold instance_at.
    by rewrite Hi, bind_Ok, Hf.
  - intros value id more w Hv. simpl.
    destruct value as [[n|s|b|c|this]|]; try done. by destruct (Hv this).
  - intros value path. revert value.
    induction path as [|id more IH]; intros value w msg H; simpl in H;
      [done|].
    destruct value as [[n|s|b|c|this]|]; simplify_eq;
      try (exists id; split; [apply list_elem_of_here|done]).
    unfold instance_at in H. destruct (heap w !! this) as [inst|]; [|done].
    rewrite bind_Ok in H.
    destruct (fields_ inst !! id) as [v|];
      apply IH in H as (id' & Hin & ->); exists id';
      (split; [by apply list_elem_of_further|done]).
Qed.

End EvaluatorFacts.

(** ** The evaluator on concrete programs *)

Section EvaluatorExamples.

Import runtime ast programs.

Abbreviation exec10 := (Execute classes address_repr 10).

(** [Call_self_rule] on [moved(4)] of the point at address 0: the body
    rebinds [self] to a new point, and that is what the call returns. *)
Lemma Call_self_rule_witness :
  Call classes exec10 0%nat "moved" [Some (Number 4)] one_point =
  Ok (Some (Instance 1%nat),
      mkWorld [point3; mkInstance 0%nat {["x" := Some (Number 7)]}] "").
Proof.
  edestruct (Call_self_rule classes address_repr 10 0%nat "moved"
               [Some (Number 4)] one_point) as (self & Hs & Hc);
    [reflexivity | vm_compute; reflexivity | reflexivity
    | vm_compute; reflexivity | ].
  vm_compute in Hs. injection Hs as <-. rewrite Hc. reflexivity.
Defined.

(** [Compound_return_sentinel] on a [Return] followed by a division by
    zero: the division alone throws, behind the [Return] it is not run. *)
Lemma Compound_return_sentinel_witness :
  run 5 (Div (VariableValue ["n"]) (VariableValue ["zero"]))
      {["n" := Some (Number 3); "zero" := Some (Number 0)]} empty_world
    = Throw (RuntimeError "division by zero")
  /\ run 5 (Compound [Return (VariableValue ["n"]);
                      Div (VariableValue ["n"]) (VariableValue ["zero"])])
        {["n" := Some (Number 3); "zero" := Some (Number 0)]} empty_world
    = run 5 (Compound [Return (VariableValue ["n"])])
        {["n" := Some (Number 3); "zero" := Some (Number 0)]} empty_world.
Proof.
  split; [reflexivity|].
  destruct (Compound_return_sentinel classes address_repr 4)
    as (_ & _ & _ & H).
  exact (H [] (VariableValue ["n"])
           [Div (VariableValue ["n"]) (VariableValue ["zero"])]
           {["n" := Some (Number 3); "zero" := Some (Number 0)]} empty_world).
Defined.

(** C4, the claim as stated fails: [Equal(x, x)] throws for a class and
    for an instance of [Plain], which has no [__eq__], and it is false for
    an instance of [Labelled], whose [__eq__] returns [False]. *)
Lemma Equal_not_reflexive :
  Equal classes exec10 (Some (ClassRef 0%nat)) (Some (ClassRef 0%nat))
        empty_world
    = Throw (RuntimeError "Cannot compare objects for equality")
  /\ Equal classes exec10 (Some (Instance 0%nat)) (Some (Instance 0%nat))
        (mkWorld [mkInstance 2%nat ∅] "")
    = Throw (RuntimeError "Cannot compare objects for equality")
  /\ Equal classes exec10 (Some (Instance 0%nat)) (Some (Instance 0%nat))
        (mkWorld [mkInstance 1%nat ∅] "")
    = Ok (false, mkWorld [mkInstance 1%nat ∅] "").
Proof. split_and!; reflexivity. Qed.

(** C5, the claim as stated fails: [__init__] of [Quiet] is found and
    called, the call returns the empty handle, and [NewInstance] returns
    the fresh instance, not what the call returned. *)
Lemma init_result_not_returned :
  Call classes exec10 0%nat INIT_METHOD [] (mkWorld [mkInstance 3%nat ∅] "")
    = Ok (Datatypes.None, mkWorld [mkInstance 3%nat ∅] "")
  /\ run 11 (NewInstance 3%nat []) ∅ empty_world
    = Ok (Some (Instance 0%nat), ∅, mkWorld [mkInstance 3%nat ∅] "").
Proof. split; reflexivity. Qed.

(** [NewInstance_result] on [Point(n)] with [n] bound to 3. *)
Lemma NewInstance_result_witness :
  run 11 (NewInstance 0%nat [VariableValue ["n"]]) scope_p empty_world
  = Ok (Some (Instance 0%nat), scope_p, one_point).
Proof.
  destruct (NewInstance_result classes address_repr 10 0%nat
              [VariableValue ["n"]] scope_p empty_world)
    as (_ & _ & _ & H).
  exact (H (mkMethod "__init__" ["x"]
              (MethodBody (Compound
                 [FieldAssignment ["self"] "x" (VariableValue ["x"])])))
           [Some (Number 3)] scope_p
           (mkWorld [mkInstance 0%nat ∅] "") Datatypes.None one_point
           eq_refl eq_refl eq_refl eq_refl).
Defined.

(** [method_call_isolation] on [__eq__(other)] of the point at address 0:
    [n], which the caller's scope binds, is unknown in the scope of the
    call. *)
Lemma method_call_isolation_witness :
  scope_p !! "n" = Some (Some (Number 3))
  /\ run 1 (VariableValue ["n"])
        (call_closure 0%nat ["other"] [Some (Instance 0%nat)]) one_point
     = Throw (RuntimeError "unknown variable n").
Proof.
  split; [reflexivity|].
  destruct (method_call_isolation classes address_repr 10 0%nat "__eq__"
              [Some (Instance 0%nat)] one_point point3
              (mkMethod "__eq__" ["other"]
                 (MethodBody (Compound
                    [Return (Comparison CmpEqual
                               (VariableValue ["self"; "x"])
                               (VariableValue ["other"; "x"]))])))
              eq_refl eq_refl eq_refl)
    as (_ & _ & _ & _ & H & _).
  apply (H "n" [] 0%nat one_point); [discriminate|].
  compute_done.
Defined.

(** C7, the claim as stated fails: [Labelled] defines [__str__] with one
    parameter, and printing an instance of it throws instead of writing
    anything. *)
Lemma print_with_unary_str :
  run 10 (Print [VariableValue ["p"]]) scope_p
      (mkWorld [mkInstance 1%nat ∅] "")
  = Throw (RuntimeError "method not found").
Proof. reflexivity. Qed.

(** Where [__str__] returns a number, [ClassInstance::Print] dereferences
    the null pointer [TryAs<String>()] returns. *)
Example print_with_numeric_str :
  run 10 (Print [VariableValue ["p"]]) scope_p
      (mkWorld [mkInstance 4%nat {["n" := Some (Number 5)]}] "")
  = Throw (Undefined "null pointer dereferenced").
Proof. reflexivity. Qed.

(** [Instance_print] on the point at address 0: its [__str__] returns
    "3". *)
Lemma Instance_print_witness :
  Execute classes address_repr 11 (Print [VariableValue ["p"]]) scope_p
          one_point
  = Ok (Datatypes.None, scope_p, mkWorld [point3] ("3" +:+ parse.endl)).
Proof.
  destruct (Instance_print classes address_repr 9 "p" scope_p one_point
              0%nat point3 eq_refl eq_refl) as (_ & H & _).
  destruct (H (mkMethod "__str__" []
                 (MethodBody (Compound
                    [Return (Stringify (VariableValue ["self"; "x"]))])))
              "3" one_point eq_refl eq_refl eq_refl) as [_ HP].
  exact HP.
Defined.

(** [VariableValue_missing_field] on [p.y], where the point has no [y]. *)
Lemma VariableValue_missing_field_witness :
  run 1 (VariableValue ["p"; "y"]) scope_p one_point
  = Ok (Datatypes.None, scope_p,
        mkWorld [mkInstance 0%nat
                   {["x" := Some (Number 3); "y" := Datatypes.None]}] "").
Proof.
  destruct (VariableValue_missing_field classes address_repr 0 "p" scope_p
              (Some (Instance 0%nat)) eq_refl) as (_ & _ & H & _).
  unfold run.
  rewrite (H 0%nat point3 "y" one_point eq_refl eq_refl eq_refl).
  vm_compute. reflexivity.
Defined.

End EvaluatorExamples.

(** * Further properties of the lexer *)

Section NumberLiterals.

Import parse.

Variable special : ascii -> bool.

(** The characters that may stand behind a number. *)
Definition ends_number (c : ascii) : bool :=
  Ascii.eqb c " " || Ascii.eqb c NL || Ascii.eqb c EOFc || special c.

Lemma read_while_run p ds t rest :
  Forall (fun c => p c = true) ds -> p t = false ->
  read_while p (ds ++ t :: rest) = (ds, (Some t, rest)).
Proof.
  intros Hds Ht. induction Hds as [|d ds Hd _ IH]; simpl.
  - by rewrite Ht.
  - by rewrite Hd, IH.
Qed.

Lemma read_while_end p ds :
  Forall (fun c => p c = true) ds ->
  read_while p ds = (ds, (Datatypes.None, [])).
Proof.
  intros Hds. induction Hds as [|d ds Hd _ IH]; simpl; [done|].
  by rewrite Hd, IH.
Qed.

(** [ParseNumber] on a run of digits with another character behind it. *)
Lemma ParseNumber_run ds t rest :
  ds <> [] -> Forall (fun c => isdigit c = true) ds -> isdigit t = false ->
  ParseNumber special (ds ++ t :: rest) =
  if ends_number t
  then v ← stoi ds; Ok (token_type.Number v, t :: rest)
  else Throw (LexerError
         "expected space or new line or end of file or special symbol").
Proof.
  intros Hne Hds Ht. unfold ParseNumber, ends_number.
  rewrite read_while_run by done.
  destruct ds as [|d ds]; [done|]. simpl.
  destruct (Ascii.eqb t " "), (Ascii.eqb t NL), (Ascii.eqb t EOFc),
    (special t); done.
Qed.

(** The digits of [pretty n] and their value. *)
Lemma pretty_N_go_digits x s :
  exists ds, list_ascii_of_string (pretty_N_go x s)
             = ds ++ list_ascii_of_string s
    /\ Forall (fun c => isdigit c = true) ds
    /\ ((0 < x)%N -> ds <> []).
Proof.
  revert s. induction (N.lt_wf_0 x) as [x _ IH]; intros s.
  destruct (decide (x = 0%N)) as [->|Hx].
  { exists []. rewrite pretty_N_go_0. split_and!; [done|done|lia]. }
  rewrite pretty_N_go_step by lia.
  destruct (IH (x `div` 10)%N) with
    (s := String (pretty_N_char (x `mod` 10)) s) as (ds & Heq & Hds & _).
  { apply N.div_lt; lia. }
  exists (ds ++ [pretty_N_char (x `mod` 10)]). split_and!.
  - rewrite Heq. simpl. by rewrite <- app_assoc.
  - apply Forall_app. split; [done|]. apply Forall_singleton.
    assert (x `mod` 10 < 10)%N as Hlt by (apply N.mod_lt; lia).
    destruct (x `mod` 10)%N as [|p]; [done|].
    do 4 (destruct p as [p|p|]; try done; try lia).
  - intros _. by destruct ds.
Qed.

Lemma pretty_N_go_value x s :
  fold_left (fun acc c => 10 * acc + digit_value c)
    (list_ascii_of_string (pretty_N_go x s)) 0
  = fold_left (fun acc c => 10 * acc + digit_value c)
      (list_ascii_of_string s) (Z.of_N x).
Proof.
  revert s. induction (N.lt_wf_0 x) as [x _ IH]; intros s.
  destruct (decide (x = 0%N)) as [->|Hx]; [by rewrite pretty_N_go_0|].
  rewrite pretty_N_go_step by lia.
  rewrite IH by (apply N.div_lt; lia). simpl. f_equal.
  assert (digit_value (pretty_N_char (x `mod` 10)) = Z.of_N (x `mod` 10))
    as ->.
  { assert (x `mod` 10 < 10)%N as Hlt by (apply N.mod_lt; lia).
    destruct (x `mod` 10)%N as [|p]; [done|].
    do 4 (destruct p as [p|p|]; try done; try lia). }
  rewrite (N.div_mod x 10) at 3 by done. lia.
Qed.

Lemma pretty_N_digits (n : N) :
  exists ds, list_ascii_of_string (pretty n) = ds /\ ds <> []
    /\ Forall (fun c => isdigit c = true) ds
    /\ stoi ds = if INT_MAX <? Z.of_N n then Throw (OutOfRange "stoi")
                 else Ok (Z.of_N n).
Proof.
  eexists. split; [reflexivity|]. unfold pretty, pretty_N.
  destruct (decide (n = 0%N)) as [->|Hn].
  { split_and!; [done|by repeat constructor|done]. }
  destruct (pretty_N_go_digits n "") as (ds & Heq & Hds & Hne).
  simpl in Heq. rewrite app_nil_r in Heq.
  split_and!.
  - rewrite Heq. apply Hne. lia.
  - by rewrite Heq.
  - unfold stoi. by rewrite pretty_N_go_value.
Qed.

(** X1.  A number literal round trip.  The decimal digits of [n], with a
    character behind them that is no digit, are read by [ParseNumber] as
    [Number n], and the character stays in the stream, when it is a
    space, a newline, the end-of-file character or a special symbol and
    [n] is at most [INT_MAX].  A larger [n] makes [stoi] throw
    [std::out_of_range], which is no [LexerError]; any other character
    behind the digits is the lexical error.  At the end of the input the
    digits alone are read the same way. *)
Theorem ParseNumber_decimal (n : N) t rest :
  isdigit t = false ->
  ParseNumber special (list_ascii_of_string (pretty n) ++ t :: rest) =
    (if ends_number t then
       if INT_MAX <? Z.of_N n then Throw (OutOfRange "stoi")
       else Ok (token_type.Number (Z.of_N n), t :: rest)
     else Throw (LexerError
            "expected space or new line or end of file or special symbol"))
  /\ ParseNumber special (list_ascii_of_string (pretty n)) =
     (if INT_MAX <? Z.of_N n then Throw (OutOfRange "stoi")
      else Ok (token_type.Number (Z.of_N n), [])).
Proof.
  intros Ht. destruct (pretty_N_digits n) as (ds & -> & Hne & Hds & Hv).
  split.
  - rewrite ParseNumber_run by done. rewrite Hv.
    destruct (ends_number t); [|done].
    destruct (INT_MAX <? Z.of_N n); reflexivity.
  - unfold ParseNumber. rewrite read_while_end by done.
    destruct ds as [|d ds']; [done|].
    simpl. rewrite Hv. destruct (INT_MAX <? Z.of_N n); reflexivity.
Qed.

End NumberLiterals.

Section NumberLiteralExamples.

Import parse samples.

(** [ParseNumber_decimal] on 2147483648 in front of a closing bracket. *)
Lemma ParseNumber_decimal_witness :
  ParseNumber special_symbols (chars "2147483648)") =
  Throw (OutOfRange "stoi").
Proof.
  destruct (ParseNumber_decimal special_symbols 2147483648 ")" []
              eq_refl) as [H _].
  exact H.
Defined.

End NumberLiteralExamples.

Section StringLiterals.

Import parse.

(** How a character is written inside a literal delimited by [quote]: a
    newline as backslash-n, a tab as backslash-t, the backslash and the
    quote behind a backslash, every other character as it is. *)
Definition escape_char (quote c : ascii) : list ascii :=
  if Ascii.eqb c NL then [BACKSLASH; "n"%char]
  else if Ascii.eqb c TAB then [BACKSLASH; "t"%char]
  else if Ascii.eqb c BACKSLASH || Ascii.eqb c quote then [BACKSLASH; c]
  else [c].

Definition escape (quote : ascii) (text : list ascii) : list ascii :=
  concat (map (escape_char quote) text).

Lemma string_loop_escape quote text rest :
  quote = "'"%char \/ quote = DQUOTE ->
  string_loop quote (escape quote text ++ quote :: rest) = Ok (text, rest).
Proof.
  intros Hq. induction text as [|c text IH]; simpl.
  - rewrite Ascii.eqb_refl. simpl.
    by destruct Hq as [-> | ->].
  - unfold escape in *. simpl. unfold escape_char at 1.
    destruct (Ascii.eqb_spec c NL) as [->|Hnl].
    { simpl. destruct Hq as [-> | ->]; simpl; by rewrite IH. }
    destruct (Ascii.eqb_spec c TAB) as [->|Htab].
    { simpl. destruct Hq as [-> | ->]; simpl; by rewrite IH. }
    destruct (Ascii.eqb_spec c BACKSLASH) as [->|Hb].
    { simpl. destruct Hq as [-> | ->]; simpl; by rewrite IH. }
    destruct (Ascii.eqb_spec c quote) as [->|Hqc]; simpl.
    + rewrite Ascii.eqb_refl. simpl.
      destruct Hq as [-> | ->]; simpl; by rewrite IH.
    + apply Ascii.eqb_neq in Hqc, Hb. rewrite Hqc, Hb. simpl.
      by rewrite IH.
Qed.

Lemma string_loop_open quote text :
  quote = "'"%char \/ quote = DQUOTE ->
  string_loop quote (escape quote text)
  = Throw (LexerError "expected closing quote").
Proof.
  intros Hq. induction text as [|c text IH]; simpl; [done|].
  unfold escape in *. simpl. unfold escape_char at 1.
  destruct (Ascii.eqb_spec c NL) as [->|Hnl].
  { simpl. destruct Hq as [-> | ->]; simpl; by rewrite IH. }
  destruct (Ascii.eqb_spec c TAB) as [->|Htab].
  { simpl. destruct Hq as [-> | ->]; simpl; by rewrite IH. }
  destruct (Ascii.eqb_spec c BACKSLASH) as [->|Hb].
  { simpl. destruct Hq as [-> | ->]; simpl; by rewrite IH. }
  destruct (Ascii.eqb_spec c quote) as [->|Hqc]; simpl.
  + rewrite Ascii.eqb_refl. simpl.
    destruct Hq as [-> | ->]; simpl; by rewrite IH.
  + apply Ascii.eqb_neq in Hqc, Hb. rewrite Hqc, Hb. simpl.
    by rewrite IH.
Qed.

(** X2.  A string literal round trip.  Every text, written between two
    quotes of the same kind with its newlines, tabs, backslashes and
    quotes escaped, is read by [ParseStringConstant] as the [String] token
    of that text, and what follows the closing quote stays in the stream.
    Without the closing quote the lexer throws "expected closing
    quote". *)
Theorem ParseStringConstant_escape quote (text : string) rest :
  quote = "'"%char \/ quote = DQUOTE ->
  ParseStringConstant
    (quote :: escape quote (list_ascii_of_string text) ++ quote :: rest)
    = Ok (token_type.String text, rest)
  /\ ParseStringConstant (quote :: escape quote (list_ascii_of_string text))
    = Throw (LexerError "expected closing quote").
Proof.
  intros Hq. unfold ParseStringConstant. simpl.
  rewrite string_loop_escape, string_loop_open by done.
  assert (negb (Ascii.eqb quote "'") && negb (Ascii.eqb quote DQUOTE) = false)
    as -> by (by destruct Hq as [-> | ->]).
  rewrite bind_Ok. simpl. by rewrite string_of_list_ascii_of_string.
Qed.

End StringLiterals.

Section StringLiteralExamples.

Import parse samples.

(** [ParseStringConstant_escape] on a text with a quote and a newline in
    it. *)
Lemma ParseStringConstant_escape_witness :
  ParseStringConstant
    ("'"%char :: escape "'" (chars "it's" ++ [NL]) ++ "'"%char :: chars " + x")
  = Ok (token_type.String (string_of_list_ascii (chars "it's" ++ [NL])),
        chars " + x").
Proof.
  destruct (ParseStringConstant_escape "'"
              (string_of_list_ascii (chars "it's" ++ [NL])) (chars " + x")
              (or_introl eq_refl)) as [H _].
  exact H.
Defined.

End StringLiteralExamples.

Section MoreLexerFacts.

Import parse layout.

Variable special : ascii -> bool.
Variable comparison : ascii -> bool.
Variable keywords : string -> option Token.

Abbreviation NextToken2 := (NextToken special comparison keywords).
Abbreviation Tokenize2 := (Tokenize special comparison keywords).
Abbreviation run2 := (run special comparison keywords).

(** A lexer inside a line: a token of the line was the last one, and no
    layout token is pending. *)
Definition in_line (lx : Lexer) : Prop :=
  current_token_ lx <> token_type.Eof
  /\ current_token_ lx <> token_type.Newline
  /\ diff_current_prev_indent_ lx = 0.

Lemma NextToken_in_line next lx :
  in_line lx -> NextToken2 lx = Tokenize2 next lx.
Proof. intros (H1 & H2 & H3). by apply NextToken_normal'. Qed.

Lemma is_ident_start_facts c :
  is_ident_start c = true ->
  isdigit c = false /\ Ascii.eqb c "'" = false /\ Ascii.eqb c DQUOTE = false
  /\ Ascii.eqb c EOFc = false /\ Ascii.eqb c NL = false
  /\ Ascii.eqb c "#" = false /\ Ascii.eqb c "=" = false
  /\ Ascii.eqb c " " = false.
Proof.
  destruct c as [[] [] [] [] [] [] [] []]; vm_compute; intros H;
    try discriminate H; by split_and!.
Qed.

(** X3.  Names and keywords.  Inside a line, a letter or underscore that
    is in neither table starts a name; the name runs over all the
    letters, digits and underscores that follow, and the character behind
    it stays in the stream.  The token is the keyword the table gives for
    the whole name, and [Id] of the name when the table has none: a name
    that only begins like a keyword is an [Id]. *)
Theorem NextToken_name lx k c more t rest :
  in_line lx ->
  is_ident_start c = true -> special c = false -> comparison c = false ->
  Forall (fun d => is_ident_cont d = true) more ->
  is_ident_cont t = false ->
  input_ lx = spaces k ++ c :: more ++ t :: rest ->
  let name := string_of_list_ascii (c :: more) in
  let token := default (token_type.Id name) (keywords name) in
  NextToken special comparison keywords lx =
  Ok (token, mkLexer (t :: rest) token (current_indent_ lx) 0).
Proof.
  intros Hin Hc Hs Hcmp Hmore Ht Hinp name token.
  rewrite (NextToken_in_line (fun _ => Throw OutOfFuel)) by done.
  destruct Hin as (_ & _ & Hd).
  destruct (is_ident_start_facts c Hc)
    as (E1 & E2 & E3 & E4 & E5 & E6 & E7 & E8).
  unfold Tokenize. rewrite Hinp.
  rewrite IgnoreSpaces_spaces by (simpl; done).
  simpl. rewrite E1, E2, E3, E4, E5, E6, E7, Hcmp, Hs, Hc. simpl.
  unfold ParseName. simpl. rewrite Hc. simpl.
  rewrite read_while_run by done. simpl.
  unfold token, name. simpl.
  destruct (keywords _); simpl; unfold emit, with_token, with_input;
    simpl; by rewrite Hd.
Qed.

(** [NextToken] stores the token it returns in [current_token_], and
    after [Eof] nothing changes any more. *)
Lemma run_Eof k lx :
  current_token_ lx = token_type.Eof ->
  run2 k lx = Ok (repeat token_type.Eof k, lx).
Proof.
  intros Heof. induction k as [|k IH]; [done|].
  cbn [run]. unfold NextToken. simpl. rewrite Heof. simpl.
  by rewrite IH.
Qed.

(** X4.  The token [NextToken] returns is the one [CurrentToken] shows
    afterwards, on every path through [NextToken]; and once that token is
    [Eof], every further call returns [Eof] and leaves the lexer as it
    is. *)
Theorem NextToken_CurrentToken lx :
  (forall t lx',
     NextToken special comparison keywords lx = Ok (t, lx') ->
     CurrentToken lx' = t)
  /\ (CurrentToken lx = token_type.Eof ->
      forall k,
        run special comparison keywords k lx =
        Ok (repeat token_type.Eof k, lx)).
Proof.
  split.
  - intros t lx'. apply NextToken_current.
  - intros Heof k. by apply run_Eof.
Qed.

(** ** The end of the input *)

Lemma Tokenize_at_end next lx :
  input_ lx = [] ->
  Tokenize2 next lx =
  if is_layout (current_token_ lx)
  then Ok (token_type.Eof, with_token lx token_type.Eof)
  else Ok (token_type.Newline, with_token lx token_type.Newline).
Proof.
  intros Hi. unfold Tokenize. rewrite Hi. simpl.
  destruct lx as [inp cur ind d]. simpl in *. subst inp.
  by destruct (is_layout cur).
Qed.

Lemma is_layout_after_layout prev l : is_layout (after_layout prev l) = true.
Proof. unfold after_layout. by repeat case_match. Qed.

Lemma layout_tokens_zero prev :
  layout_tokens prev 0 = repeat token_type.Dedent prev.
Proof. unfold layout_tokens. simpl. by rewrite Nat.sub_0_r. Qed.

(** X5.  A last line without a line end.  When only spaces are left
    behind a token of a line at level [prev], the lexer supplies the
    [Newline] that the input lacks, then the [prev] [Dedent] tokens that
    close the open blocks, then [Eof]. *)
Theorem missing_final_newline lx k prev :
  in_line lx ->
  is_layout (current_token_ lx) = false ->
  current_indent_ lx = Z.of_nat prev ->
  input_ lx = spaces k ->
  run special comparison keywords (2 + prev) lx =
  Ok (token_type.Newline :: repeat token_type.Dedent prev
        ++ [token_type.Eof],
      mkLexer [] token_type.Eof 0 0).
Proof.
  intros Hin Hlay Hind Hinp.
  pose proof Hin as (_ & _ & Hd).
  assert (Hstep : NextToken2 lx =
            Ok (token_type.Newline,
                mkLexer [] token_type.Newline (Z.of_nat prev) 0)).
  { rewrite (NextToken_in_line (fun _ => Throw OutOfFuel)) by done.
    unfold Tokenize. rewrite Hinp.
    rewrite <- (app_nil_r (spaces k)), IgnoreSpaces_spaces by done.
    simpl. rewrite Hlay. unfold emit, with_token, with_input. simpl.
    by rewrite Hind, Hd. }
  eapply run_cons; [exact Hstep|].
  pose proof (run_end special comparison keywords [] prev
                (mkLexer [] token_type.Newline (Z.of_nat prev) 0)) as Hend.
  rewrite layout_tokens_zero in Hend.
  rewrite length_app, repeat_length in Hend. simpl in Hend.
  replace (prev + 1)%nat with (S prev) in Hend by lia.
  apply Hend; by try apply List.Forall_nil.
Qed.

(** X6.  Spaces at the very end.  After a [Newline], spaces that run up to
    the end of the input (behind any blank and comment-only lines) are
    counted as the indentation of a line: an odd number is the lexical
    error, and an even number [2 * l] moves the level to [l], with the
    [Indent] or [Dedent] tokens in front of [Eof].  The blocks open at
    level [l] are not closed. *)
Theorem trailing_spaces_at_end lx g n prev :
  current_token_ lx = token_type.Newline ->
  current_indent_ lx = Z.of_nat prev ->
  Forall blank_ok g ->
  input_ lx = render_gap g ++ spaces n ->
  (Nat.odd n = true ->
   NextToken special comparison keywords lx =
   Throw (LexerError "invalid indent"))
  /\ (Nat.even n = true ->
      run special comparison keywords
        (S (length (layout_tokens prev (n / 2)))) lx =
      Ok (layout_tokens prev (n / 2) ++ [token_type.Eof],
          mkLexer [] token_type.Eof (Z.of_nat (n / 2)) 0)).
Proof.
  intros Hcur Hind Hg Hinp.
  assert (Hres : IgnoreEmptyRawsAndComments lx =
            if Nat.eqb (n mod 2) 1 then Throw (LexerError "invalid indent")
            else Ok (mkLexer [] token_type.Newline (Z.of_nat (n / 2))
                       (Z.of_nat (n / 2) - Z.of_nat prev))).
  { rewrite <- (with_input_id lx), Hinp.
    rewrite IgnoreEmptyRawsAndComments_gap by done.
    rewrite <- (app_nil_r (spaces n)).
    rewrite IgnoreEmptyRawsAndComments_code by done.
    by rewrite Hcur, Hind. }
  split.
  - intros Hodd. rewrite NextToken_after_Newline by done.
    rewrite Hres. rewrite <- Nat.bit0_mod, Nat.bit0_odd, Hodd. done.
  - intros Heven.
    assert (Nat.eqb (n mod 2) 1 = false) as Hm.
    { rewrite <- Nat.bit0_mod, Nat.bit0_odd, <- Nat.negb_even, Heven. done. }
    rewrite Hm in Hres.
    eapply (run_resolve special comparison keywords (fun _ => Throw OutOfFuel));
      [done|exact Hres|].
    rewrite Tokenize_at_end by done. simpl.
    rewrite is_layout_after_layout. done.
Qed.

(** ** A comment behind code *)

Lemma getline_no_line_end text : NL ∉ text -> getline text = [].
Proof.
  induction text as [|c text IH]; [done|]. intros Hnl.
  apply not_elem_of_cons in Hnl as [Hc Ht]. simpl.
  destruct (Ascii.eqb_spec c NL); [done|]. by apply IH.
Qed.

Lemma Tokenize_comment next lx k text tail :
  input_ lx = spaces k ++ "#"%char :: text ++ tail ->
  NL ∉ text -> tail = [] \/ (exists r, tail = NL :: r) ->
  Tokenize2 next lx =
  lx1 ← IgnoreEmptyRawsAndComments (with_input lx (tl tail));
  let c' := to_char (head (input_ lx1)) in
  if Ascii.eqb c' "#" then
    '(t, lx2) ← next lx1; Ok (t, with_token lx2 t)
  else if Ascii.eqb c' EOFc then emit token_type.Eof lx1 (input_ lx1)
  else emit token_type.Newline lx1 (input_ lx1).
Proof.
  intros Hinp Hnl Htail. unfold Tokenize. rewrite Hinp.
  rewrite IgnoreSpaces_spaces by done. simpl.
  assert (getline (text ++ tail) = tl tail) as ->; [|done].
  destruct Htail as [-> | [r ->]].
  - rewrite app_nil_r. by apply getline_no_line_end.
  - by apply getline_comment.
Qed.

(** X7.  A comment behind code, with a code line after it.  The comment
    is dropped together with its line end, and the layout of the next
    code line, at level [l], is resolved at once: [Newline] is returned
    and [l - prev] is pending.  The call after it sees [Newline] as the
    current token and resolves the layout once more, now with no spaces
    left in front of the line: the pending difference is replaced by
    [0 - l].  So the line's first token [t] comes behind [l] [Dedent]
    tokens, whatever [prev] was, and is read at level 0. *)
Theorem comment_behind_code_layout lx k text g l c rest prev next t lxB :
  in_line lx ->
  current_indent_ lx = Z.of_nat prev ->
  NL ∉ text -> Forall blank_ok g ->
  code_char c -> c <> EOFc ->
  input_ lx =
    spaces k ++ "#"%char :: text ++ NL :: render_gap g
      ++ spaces (2 * l) ++ c :: rest ->
  Tokenize special comparison keywords next
    (mkLexer (c :: rest) (after_layout l 0) 0 0) = Ok (t, lxB) ->
  NextToken special comparison keywords lx =
    Ok (token_type.Newline,
        mkLexer (c :: rest) token_type.Newline (Z.of_nat l)
                (Z.of_nat l - Z.of_nat prev))
  /\ run special comparison keywords (2 + l) lx =
     Ok (token_type.Newline :: repeat token_type.Dedent l ++ [t], lxB).
Proof.
  intros Hin Hind Hnl Hg Hc Heof Hinp Htok.
  assert (Hstep : NextToken2 lx =
            Ok (token_type.Newline,
                mkLexer (c :: rest) token_type.Newline (Z.of_nat l)
                        (Z.of_nat l - Z.of_nat prev))).
  { rewrite (NextToken_in_line (fun _ => Throw OutOfFuel)) by done.
    rewrite (Tokenize_comment _ _ _ _ _ Hinp Hnl) by eauto.
    simpl tl.
    rewrite IgnoreEmptyRawsAndComments_gap by done.
    rewrite IgnoreEmptyRawsAndComments_code by done.
    change (l + (l + 0))%nat with (2 * l)%nat.
    destruct (even_indent l) as [-> ->].
    rewrite bind_Ok. simpl.
    destruct Hc as (_ & _ & Hhash).
    destruct (Ascii.eqb_spec c "#"); [done|].
    destruct (Ascii.eqb_spec c EOFc); [done|].
    unfold emit, with_token, with_input. simpl. by rewrite Hind. }
  split; [exact Hstep|].
  eapply run_cons; [exact Hstep|].
  rewrite <- layout_tokens_zero.
  replace l with (length (layout_tokens l 0)) at 1
    by (by rewrite layout_tokens_zero, repeat_length).
  eapply (run_resolve special comparison keywords next); [done| |exact Htok].
  rewrite <- (with_input_id (mkLexer _ _ _ _)). simpl input_.
  rewrite (IgnoreEmptyRawsAndComments_code _ 0 (c :: rest)) by done.
  simpl. done.
Qed.

(** X8.  A comment behind the last code.  When the comment runs to the
    end of the input, or only blank and comment-only lines and spaces
    follow it, the call that meets the comment returns [Eof]: the line
    gets no [Newline], and the blocks that are open get no [Dedent]. *)
Theorem comment_behind_last_code lx k text prev :
  in_line lx ->
  current_indent_ lx = Z.of_nat prev ->
  NL ∉ text ->
  (input_ lx = spaces k ++ "#"%char :: text ->
   NextToken special comparison keywords lx =
   Ok (token_type.Eof, mkLexer [] token_type.Eof 0 (- Z.of_nat prev)))
  /\ (forall g m,
        Forall blank_ok g ->
        input_ lx =
          spaces k ++ "#"%char :: text ++ NL :: render_gap g
            ++ spaces (2 * m) ->
        NextToken special comparison keywords lx =
        Ok (token_type.Eof,
            mkLexer [] token_type.Eof (Z.of_nat m)
                    (Z.of_nat m - Z.of_nat prev))).
Proof.
  intros Hin Hind Hnl. split.
  - intros Hinp.
    rewrite (NextToken_in_line (fun _ => Throw OutOfFuel)) by done.
    rewrite <- (app_nil_r text) in Hinp.
    rewrite (Tokenize_comment _ _ _ _ _ Hinp Hnl) by eauto.
    simpl tl.
    rewrite (IgnoreEmptyRawsAndComments_code _ 0 []) by done.
    simpl. unfold emit, with_token, with_input. simpl. by rewrite Hind.
  - intros g m Hg Hinp.
    rewrite (NextToken_in_line (fun _ => Throw OutOfFuel)) by done.
    rewrite (Tokenize_comment _ _ _ _ _ Hinp Hnl) by eauto.
    simpl tl.
    rewrite IgnoreEmptyRawsAndComments_gap by done.
    change (m + (m + 0))%nat with (2 * m)%nat.
    rewrite <- (app_nil_r (spaces (2 * m))).
    rewrite IgnoreEmptyRawsAndComments_code by done.
    destruct (even_indent m) as [-> ->].
    rewrite bind_Ok. simpl.
    unfold emit, with_token, with_input. simpl. by rewrite Hind.
Qed.

(** ** Spaces and operators inside a line *)

Lemma IgnoreSpaces_more k inp :
  IgnoreSpaces (spaces k ++ inp) = IgnoreSpaces inp.
Proof. induction k as [|k IH]; [done|]. simpl. exact IH. Qed.

(** X9.  Inside a line the spaces in front of a token do not count: the
    token returned and the lexer left behind are the same with any number
    of them, also none. *)
Theorem NextToken_spaces lx k inp :
  in_line lx ->
  NextToken special comparison keywords (with_input lx (spaces k ++ inp)) =
  NextToken special comparison keywords (with_input lx inp).
Proof.
  intros Hin.
  rewrite !(NextToken_in_line (fun _ => Throw OutOfFuel)) by done.
  unfold Tokenize. simpl input_. rewrite IgnoreSpaces_more.
  reflexivity.
Qed.

(** The token of a two-character comparison operator, by its first
    character (the second one is ['=']). *)
Definition comparison_token (a : ascii) : option Token :=
  if Ascii.eqb a "=" then Some token_type.Eq
  else if Ascii.eqb a "!" then Some token_type.NotEq
  else if Ascii.eqb a "<" then Some token_type.LessOrEq
  else if Ascii.eqb a ">" then Some token_type.GreaterOrEq
  else None.

(** X10.  Operators made of ['='].  Inside a line, ['='] that is not
    followed by ['='] is [Char '='], whatever the tables hold.  One of
    [= ! < >] that the comparison table holds, followed by ['='], is the
    token of the two-character operator, and both characters are taken.
    ['!'] that is not followed by ['='] is the lexical error unless the
    special-symbol table holds it. *)
Theorem NextToken_comparison lx k a rest :
  in_line lx ->
  input_ lx = spaces k ++ a :: rest ->
  (a = "="%char -> peek_is rest "=" = false ->
   NextToken special comparison keywords lx =
   Ok (token_type.Char "=",
       mkLexer rest (token_type.Char "=") (current_indent_ lx) 0))
  /\ (forall op rest',
        comparison a = true -> rest = "="%char :: rest' ->
        comparison_token a = Some op ->
        NextToken special comparison keywords lx =
        Ok (op, mkLexer rest' op (current_indent_ lx) 0))
  /\ (a = "!"%char -> peek_is rest "=" = false -> special a = false ->
      NextToken special comparison keywords lx =
      Throw (LexerError "parsing error")).
Proof.
  intros Hin Hinp. pose proof Hin as (_ & _ & Hd).
  rewrite (NextToken_in_line (fun _ => Throw OutOfFuel)) by done.
  unfold Tokenize. rewrite Hinp. split_and!.
  - intros -> Hp. rewrite IgnoreSpaces_spaces by done. simpl.
    rewrite Hp. simpl. unfold emit, with_token, with_input. simpl.
    by rewrite Hd.
  - intros op rest' Hcmp -> Hop. unfold comparison_token in Hop.
    destruct (Ascii.eqb_spec a "=") as [-> | _];
      [|destruct (Ascii.eqb_spec a "!") as [-> | _];
        [|destruct (Ascii.eqb_spec a "<") as [-> | _];
          [|destruct (Ascii.eqb_spec a ">") as [-> | _]; [|done]]]];
      injection Hop as <-;
      rewrite IgnoreSpaces_spaces by done; simpl; rewrite Hcmp; simpl;
      unfold emit, with_token, with_input; simpl; by rewrite Hd.
  - intros -> Hp Hs. rewrite IgnoreSpaces_spaces by done. simpl.
    by rewrite Hp, andb_false_r, Hs.
Qed.

End MoreLexerFacts.

(** ** Printing and comparing tokens *)

Section TokenOutput.

Import parse.

(** [operator<<] for tokens: the four valued alternatives print the name
    of the alternative and the value in braces, the others print their
    name.  (The fallback line is not reached: the alternatives are
    exhaustive.) *)
Definition Token_output (t : Token) : string :=
  match t with
  | token_type.Number v => "Number{" +:+ pretty v +:+ "}"
  | token_type.Id v => "Id{" +:+ v +:+ "}"
  | token_type.String v => "String{" +:+ v +:+ "}"
  | token_type.Char c => "Char{" +:+ String c "}"
  | token_type.Class => "Class"
  | token_type.Return => "Return"
  | token_type.If => "If"
  | token_type.Else => "Else"
  | token_type.Def => "Def"
  | token_type.Newline => "Newline"
  | token_type.Print => "Print"
  | token_type.Indent => "Indent"
  | token_type.Dedent => "Dedent"
  | token_type.And => "And"
  | token_type.Or => "Or"
  | token_type.Not => "Not"
  | token_type.Eq => "Eq"
  | token_type.NotEq => "NotEq"
  | token_type.LessOrEq => "LessOrEq"
  | token_type.GreaterOrEq => "GreaterOrEq"
  | token_type.None => "None"
  | token_type.True => "True"
  | token_type.False => "False"
  | token_type.Eof => "Eof"
  end.

(** [Token::index()]: the number of the alternative the variant holds.
    The variant is declared in [lexer.h]; only that different alternatives
    have different numbers is used. *)
Definition Token_index (t : Token) : nat :=
  match t with
  | token_type.Number _ => 0
  | token_type.Id _ => 1
  | token_type.Char _ => 2
  | token_type.String _ => 3
  | token_type.Class => 4
  | token_type.Return => 5
  | token_type.If => 6
  | token_type.Else => 7
  | token_type.Def => 8
  | token_type.Newline => 9
  | token_type.Print => 10
  | token_type.Indent => 11
  | token_type.Dedent => 12
  | token_type.And => 13
  | token_type.Or => 14
  | token_type.Not => 15
  | token_type.Eq => 16
  | token_type.NotEq => 17
  | token_type.LessOrEq => 18
  | token_type.GreaterOrEq => 19
  | token_type.None => 20
  | token_type.True => 21
  | token_type.False => 22
  | token_type.Eof => 23
  end.

(** [operator==] for tokens: different alternatives are unequal; the four
    valued alternatives compare their values; the others are equal. *)
Definition Token_eqb (lhs rhs : Token) : bool :=
  if negb (Nat.eqb (Token_index lhs) (Token_index rhs)) then false
  else
    match lhs, rhs with
    | token_type.Char a, token_type.Char b => Ascii.eqb a b
    | token_type.Number a, token_type.Number b => (a =? b)%Z
    | token_type.String a, token_type.String b => String.eqb a b
    | token_type.Id a, token_type.Id b => String.eqb a b
    | _, _ => true
    end.

Lemma append_brace_inj s1 s2 : s1 +:+ "}" = s2 +:+ "}" -> s1 = s2.
Proof.
  revert s2. induction s1 as [|a s1 IH]; intros [|b s2] H; simpl in H.
  - done.
  - injection H as <- H. by destruct s2.
  - injection H as -> H. by destruct s1.
  - injection H as -> H. f_equal. by apply IH.
Qed.

(** X11.  Two tokens are printed alike exactly when [operator==] holds
    them equal, which is exactly when they are the same token: the
    printed form tells every token from every other one. *)
Theorem Token_output_inj t1 t2 :
  (Token_output t1 = Token_output t2 <-> t1 = t2)
  /\ (Token_eqb t1 t2 = true <-> t1 = t2).
Proof.
  split.
  - split; [|by intros ->].
    destruct t1, t2; simpl; intros H; try done; try discriminate H;
      injection H as H; repeat (injection H as H); try done;
      try (apply append_brace_inj in H); subst; try done.
    f_equal. by apply (inj pretty).
  - destruct t1, t2; unfold Token_eqb; simpl;
      rewrite ?Z.eqb_eq, ?String.eqb_eq, ?Ascii.eqb_eq;
      split; intros H; try done; try discriminate H; congruence.
Qed.

End TokenOutput.

Section MoreLexerExamples.

Import parse layout samples.

Abbreviation NextToken_tables :=
  (NextToken special_symbols comparison_symbols keyword_to_token).
Abbreviation run_tables :=
  (run special_symbols comparison_symbols keyword_to_token).

(** A lexer inside a line at level [ind], behind the token [cur]. *)
Definition inside (inp : string) (cur : Token) (ind : Z) : Lexer :=
  mkLexer (chars inp) cur ind 0.

Lemma in_line_inside inp cur ind :
  cur <> token_type.Eof -> cur <> token_type.Newline ->
  in_line (inside inp cur ind).
Proof. by intros; repeat split. Qed.

(** [classes] begins like the keyword [class] and is an [Id]. *)
Lemma NextToken_name_witness :
  NextToken_tables (inside "  classes = 1" (token_type.Char "(") 1) =
  Ok (token_type.Id "classes",
      mkLexer (chars " = 1") (token_type.Id "classes") 1 0).
Proof.
  apply (NextToken_name special_symbols comparison_symbols keyword_to_token
           (inside "  classes = 1" (token_type.Char "(") 1)
           2 "c"%char (chars "lasses") " "%char (chars "= 1")).
  - by apply in_line_inside.
  - reflexivity.
  - reflexivity.
  - reflexivity.
  - repeat (apply List.Forall_cons; [reflexivity|]). apply List.Forall_nil.
  - reflexivity.
  - reflexivity.
Defined.

Lemma NextToken_CurrentToken_witness :
  run_tables 3 (mkLexer [] token_type.Eof 0 0) =
  Ok ([token_type.Eof; token_type.Eof; token_type.Eof],
      mkLexer [] token_type.Eof 0 0).
Proof.
  apply (proj2 (NextToken_CurrentToken special_symbols comparison_symbols
                  keyword_to_token (mkLexer [] token_type.Eof 0 0))).
  reflexivity.
Defined.

(** The input ends behind [x] on a line at level 2. *)
Lemma missing_final_newline_witness :
  run_tables 4 (inside " " (token_type.Id "x") 2) =
  Ok ([token_type.Newline; token_type.Dedent; token_type.Dedent;
       token_type.Eof],
      mkLexer [] token_type.Eof 0 0).
Proof.
  apply (missing_final_newline special_symbols comparison_symbols
           keyword_to_token (inside " " (token_type.Id "x") 2) 1 2).
  - by apply in_line_inside.
  - reflexivity.
  - reflexivity.
  - reflexivity.
Defined.

(** Four spaces end the input behind a line at level 0: two [Indent]
    tokens come before [Eof]. *)
Lemma trailing_spaces_at_end_witness :
  run_tables 3 (mkLexer (chars "    ") token_type.Newline 0 0) =
  Ok ([token_type.Indent; token_type.Indent; token_type.Eof],
      mkLexer [] token_type.Eof 2 0).
Proof.
  apply (proj2 (trailing_spaces_at_end special_symbols comparison_symbols
                  keyword_to_token
                  (mkLexer (chars "    ") token_type.Newline 0 0)
                  [] 4 0 eq_refl eq_refl (List.Forall_nil _) eq_refl)).
  reflexivity.
Defined.

(** [y] follows a comment behind code at level 0 and stands at level 1:
    it comes behind one [Dedent]. *)
Lemma comment_behind_code_layout_witness :
  run_tables 3 (inside " # note
  y" (token_type.Number 1) 0) =
  Ok ([token_type.Newline; token_type.Dedent; token_type.Id "y"],
      mkLexer [] (token_type.Id "y") 0 0).
Proof.
  apply (comment_behind_code_layout special_symbols comparison_symbols
           keyword_to_token
           (inside " # note
  y" (token_type.Number 1) 0)
           1 (chars " note") [] 1 "y"%char [] 0 (fun _ => Throw OutOfFuel)).
  - by apply in_line_inside.
  - reflexivity.
  - compute_done.
  - apply List.Forall_nil.
  - compute_done.
  - compute_done.
  - reflexivity.
  - reflexivity.
Defined.

(** A comment behind the last code, at level 1: [Eof] comes at once. *)
Lemma comment_behind_last_code_witness :
  NextToken_tables (inside " # last" (token_type.Number 1) 1) =
  Ok (token_type.Eof, mkLexer [] token_type.Eof 0 (-1)).
Proof.
  assert (Hin : in_line (inside " # last" (token_type.Number 1) 1))
    by (by apply in_line_inside).
  assert (Hnl : NL ∉ chars " last") by compute_done.
  apply (proj1 (comment_behind_last_code special_symbols comparison_symbols
                  keyword_to_token
                  (inside " # last" (token_type.Number 1) 1)
                  1 (chars " last") 1 Hin eq_refl Hnl)).
  reflexivity.
Defined.

Lemma NextToken_spaces_witness :
  NextToken_tables (inside "     + 1" (token_type.Id "x") 0) =
  NextToken_tables (inside "+ 1" (token_type.Id "x") 0).
Proof.
  apply (NextToken_spaces special_symbols comparison_symbols
           keyword_to_token (inside "+ 1" (token_type.Id "x") 0) 5
           (chars "+ 1")).
  by apply in_line_inside.
Defined.

Lemma NextToken_comparison_witness :
  NextToken_tables (inside " <= 2" (token_type.Id "x") 0) =
  Ok (token_type.LessOrEq, mkLexer (chars " 2") token_type.LessOrEq 0 0).
Proof.
  assert (Hin : in_line (inside " <= 2" (token_type.Id "x") 0))
    by (by apply in_line_inside).
  apply (proj1 (proj2 (NextToken_comparison special_symbols
                         comparison_symbols keyword_to_token
                         (inside " <= 2" (token_type.Id "x") 0)
                         1 "<"%char (chars "= 2") Hin eq_refl))
           token_type.LessOrEq (chars " 2")); reflexivity.
Defined.

End MoreLexerExamples.

(** * Further properties of the runtime and the evaluator *)

Section MethodLookup.

Import runtime.

Lemma name_to_method_index_snoc ms m :
  name_to_method_index_ (ms ++ [m]) =
  <[name m := length ms]> (name_to_method_index_ ms).
Proof.
  unfold name_to_method_index_.
  rewrite imap_app, fold_left_app. simpl. by rewrite Nat.add_0_r.
Qed.

Lemma name_to_method_index_last pre m post :
  Forall (fun m' => name m' <> name m) post ->
  name_to_method_index_ (pre ++ m :: post) !! name m = Some (length pre).
Proof.
  induction post as [|x post IH] using rev_ind; intros Hpost.
  - rewrite name_to_method_index_snoc. by rewrite lookup_insert_eq.
  - apply Forall_app in Hpost as [Hpost Hx].
    apply Forall_cons in Hx as [Hx _].
    replace (pre ++ m :: post ++ [x]) with ((pre ++ m :: post) ++ [x])
      by (by rewrite <- app_assoc).
    rewrite name_to_method_index_snoc, lookup_insert_ne by done.
    by apply IH.
Qed.

Lemma name_to_method_index_none ms nm :
  Forall (fun m' => name m' <> nm) ms ->
  name_to_method_index_ ms !! nm = Datatypes.None.
Proof.
  induction ms as [|x ms IH] using rev_ind; intros Hms; [done|].
  apply Forall_app in Hms as [Hms Hx].
  apply Forall_cons in Hx as [Hx _].
  rewrite name_to_method_index_snoc, lookup_insert_ne by done.
  by apply IH.
Qed.

(** X12.  Method lookup.  Among the methods of a class that carry the
    same name, the one listed last is found (the index the constructor
    builds is overwritten by each later one), and a method of the class
    hides one of that name in the parents.  A name that none of the
    methods of the class carries is looked up in the parent, and is not
    found when there is no parent. *)
Theorem GetMethod_resolution n methods parent method :
  (forall pre m post,
     methods = pre ++ m :: post -> name m = method ->
     Forall (fun m' => name m' <> method) post ->
     GetMethod (mkClass n methods parent) method = Some m)
  /\ (Forall (fun m' => name m' <> method) methods ->
      GetMethod (mkClass n methods parent) method =
      match parent with
      | Some p => GetMethod p method
      | Datatypes.None => Datatypes.None
      end).
Proof.
  split.
  - intros pre m post -> <- Hpost. simpl.
    rewrite name_to_method_index_last by done.
    by apply list_lookup_middle.
  - intros Hms. simpl. by rewrite name_to_method_index_none.
Qed.

End MethodLookup.

Section Comparators.

Import runtime ast.

Variable classes : ClassId -> Class.
Variable exec : Statement -> Closure -> World -> Outcome.

(** Two numbers, two strings or two truth values. *)
Definition same_values (lhs rhs : ObjectHolder) : bool :=
  match lhs, rhs with
  | Some (Number _), Some (Number _) => true
  | Some (String _), Some (String _) => true
  | Some (Bool _), Some (Bool _) => true
  | _, _ => false
  end.

Definition is_instance (object : ObjectHolder) : bool :=
  match object with
  | Some (Instance _) => true
  | _ => false
  end.

Lemma string_compare_refl s : (s ?= s)%string = Datatypes.Eq.
Proof.
  pose proof (String.compare_antisym s s) as H.
  by destruct (s ?= s)%string.
Qed.

Lemma string_ltb_swap l r :
  String.ltb r l = negb (String.ltb l r || String.eqb l r).
Proof.
  unfold String.ltb. rewrite (String.compare_antisym r l).
  destruct (l ?= r)%string eqn:E; simpl.
  - apply String.compare_eq_iff in E as ->. by rewrite String.eqb_refl.
  - done.
  - destruct (String.eqb_spec l r) as [-> | _]; [|done].
    by rewrite string_compare_refl in E.
Qed.

(** X13.  The derived comparators on values.  For two numbers, two
    strings or two truth values, [Greater], which is computed as
    [!(Less || Equal)], is [Less] with the operands exchanged, and
    [LessOrEqual] is [GreaterOrEqual] with the operands exchanged;
    [Equal] holds exactly for equal values, and exactly one of [Less],
    [Equal] and [Greater] holds.  None of them changes the world. *)
Theorem comparators_on_values lhs rhs w :
  same_values lhs rhs = true ->
  Greater classes exec lhs rhs w = Less classes exec rhs lhs w
  /\ LessOrEqual classes exec lhs rhs w =
     GreaterOrEqual classes exec rhs lhs w
  /\ Equal classes exec lhs rhs w = Ok (bool_decide (lhs = rhs), w)
  /\ exists l e g,
       Less classes exec lhs rhs w = Ok (l, w)
       /\ Equal classes exec lhs rhs w = Ok (e, w)
       /\ Greater classes exec lhs rhs w = Ok (g, w)
       /\ (l, e, g) ∈ [(true, false, false); (false, true, false);
                       (false, false, true)].
Proof.
  intros Hsame.
  destruct lhs as [[a|a|a| |]|], rhs as [[b|b|b| |]|]; try done;
    unfold LessOrEqual, GreaterOrEqual, Greater, Less, Equal; simpl.
  - (* numbers *)
    assert ((b <? a) = negb ((a <? b) || (a =? b))) as Hswap by lia.
    split_and!.
    + rewrite Hswap. by destruct (a <? b), (a =? b).
    + rewrite Hswap. by destruct (a <? b), (a =? b).
    + f_equal. f_equal. destruct (Z.eqb_spec a b) as [-> | Hne].
      * by rewrite bool_decide_eq_true_2.
      * rewrite bool_decide_eq_false_2; [done|]. by intros [= ->].
    + exists (a <? b), (a =? b), (negb ((a <? b) || (a =? b))).
      split_and!; try done.
      * by destruct (a <? b), (a =? b).
      * destruct (Z.ltb_spec a b), (Z.eqb_spec a b); simpl;
          try lia; set_solver.
  - (* strings *)
    pose proof (string_ltb_swap a b) as Hswap.
    split_and!.
    + rewrite Hswap. by destruct (String.ltb a b), (String.eqb a b).
    + rewrite Hswap. by destruct (String.ltb a b), (String.eqb a b).
    + f_equal. f_equal. destruct (String.eqb_spec a b) as [-> | Hne].
      * by rewrite bool_decide_eq_true_2.
      * rewrite bool_decide_eq_false_2; [done|]. by intros [= ->].
    + exists (String.ltb a b), (String.eqb a b),
        (negb (String.ltb a b || String.eqb a b)).
      split_and!; try done.
      * by destruct (String.ltb a b), (String.eqb a b).
      * destruct (String.eqb_spec a b) as [-> | Hne].
        -- unfold String.ltb. rewrite string_compare_refl. set_solver.
        -- destruct (String.ltb a b); simpl; set_solver.
  - (* truth values *)
    destruct a, b; simpl; split_and!; try done;
      eexists _, _, _; split_and!; try done; set_solver.
Qed.

(** X14.  Comparing what cannot be compared.  When the left operand is
    not an instance and the operands are not two numbers, two strings or
    two truth values, [Less] throws, and so do [Greater], [LessOrEqual]
    and [GreaterOrEqual], all with the message of [Less], which they call
    first.  [Equal] holds for two empty handles and throws its own
    message otherwise.  So two empty handles are equal, and comparing
    them with [LessOrEqual] is an error. *)
Theorem comparators_mismatch lhs rhs w :
  is_instance lhs = false -> same_values lhs rhs = false ->
  let less := Throw (RuntimeError "Cannot compare objects for less") in
  let equality :=
    Throw (RuntimeError "Cannot compare objects for equality") in
  Less classes exec lhs rhs w = less
  /\ Greater classes exec lhs rhs w = less
  /\ LessOrEqual classes exec lhs rhs w = less
  /\ GreaterOrEqual classes exec lhs rhs w = less
  /\ Equal classes exec lhs rhs w =
     (if bool_decide (lhs = Datatypes.None /\ rhs = Datatypes.None)
      then Ok (true, w) else equality)
  /\ NotEqual classes exec lhs rhs w =
     (if bool_decide (lhs = Datatypes.None /\ rhs = Datatypes.None)
      then Ok (false, w) else equality).
Proof.
  intros Hinst Hsame.
  destruct lhs as [[a|a|a| |]|], rhs as [[b|b|b| |]|]; try done;
    by repeat split.
Qed.

End Comparators.

Section MoreEvaluatorFacts.

Import runtime ast.

Variable classes : ClassId -> Class.
Variable address_repr : nat -> string.

Abbreviation Execute2 := (Execute classes address_repr).

#[local] Arguments Execute : simpl never.

Lemma Execute_Not fuel a closure w :
  Execute2 (S fuel) (Not a) closure w =
  '(v, closure1, w1) ← Execute2 fuel a closure w;
  Ok (Some (Bool (negb (IsTrue v))), closure1, w1).
Proof. done. Qed.

(** X15.  De Morgan's laws hold for the logical nodes, with their short
    circuit and with whatever the operands do to the scope and the world:
    [not (a and b)] runs like [(not a) or (not b)], and [not (a or b)]
    like [(not a) and (not b)]: the same result, or the same error. *)
Theorem De_Morgan fuel a b closure w :
  Execute classes address_repr (S (S fuel)) (Not (And a b)) closure w =
  Execute classes address_repr (S (S fuel)) (Or (Not a) (Not b)) closure w
  /\ Execute classes address_repr (S (S fuel)) (Not (Or a b)) closure w =
     Execute classes address_repr (S (S fuel)) (And (Not a) (Not b))
       closure w.
Proof.
  split.
  - rewrite (Execute_S _ _ (S fuel)). simpl Execute_node.
    rewrite (Execute_S _ _ fuel (And a b)). simpl Execute_node.
    rewrite (Execute_S _ _ (S fuel) (Or _ _)). simpl Execute_node.
    rewrite !Execute_Not.
    destruct (Execute2 fuel a closure w) as [[[v c1] w1]|e]; [|done].
    rewrite !bind_Ok. simpl. rewrite negb_involutive.
    destruct (IsTrue v); [|done]. rewrite Execute_Not.
    destruct (Execute2 fuel b c1 w1) as [[[v' c2] w2]|e]; [|done].
    rewrite !bind_Ok. simpl. by rewrite ?bind_Ok.
  - rewrite (Execute_S _ _ (S fuel)). simpl Execute_node.
    rewrite (Execute_S _ _ fuel (Or a b)). simpl Execute_node.
    rewrite (Execute_S _ _ (S fuel) (And _ _)). simpl Execute_node.
    rewrite !Execute_Not.
    destruct (Execute2 fuel a closure w) as [[[v c1] w1]|e]; [|done].
    rewrite !bind_Ok. simpl.
    destruct (IsTrue v); [done|]. simpl. rewrite Execute_Not.
    destruct (Execute2 fuel b c1 w1) as [[[v' c2] w2]|e]; [|done].
    rewrite !bind_Ok. simpl. by rewrite ?bind_Ok.
Qed.

(** ** The return sentinel *)

Lemma exec_statements_sentinel fuel pre e post closure w :
  exec_statements (Execute2 (S fuel)) (pre ++ Return e :: post) closure w =
  exec_statements (Execute2 (S fuel))
    (pre ++ Assignment "returned_value" e :: post) closure w.
Proof.
  revert closure w. induction pre as [|s pre IH]; intros closure w; simpl.
  - rewrite !Execute_S. simpl Execute_node.
    destruct (Execute2 fuel e closure w) as [[[v c1] w1]|err]; [|done].
    by rewrite !bind_Ok.
  - destruct (Execute2 (S fuel) s closure w) as [[[v c1] w1]|err]; [|done].
    rewrite !bind_Ok. simpl. by rewrite IH.
Qed.

(** X16.  The sentinel is an ordinary name of the scope.  In a method
    body, assigning to the variable [returned_value] does what [return]
    does: the two bodies run alike, whatever stands before and behind the
    statement.  And a body that begins with [return e] gives the value of
    [e] and runs nothing of what follows. *)
Theorem Return_is_assignment fuel pre e post closure w :
  Execute classes address_repr (S (S (S fuel)))
    (MethodBody (Compound (pre ++ Return e :: post))) closure w =
  Execute classes address_repr (S (S (S fuel)))
    (MethodBody (Compound (pre ++ Assignment "returned_value" e :: post)))
    closure w
  /\ (forall v closure1 w1,
        Execute classes address_repr fuel e closure w =
          Ok (v, closure1, w1) ->
        Execute classes address_repr (S (S (S fuel)))
          (MethodBody (Compound (Return e :: post))) closure w =
        Ok (v, <["returned_value" := v]> closure1, w1)).
Proof.
  split.
  - rewrite !(Execute_S _ _ (S (S fuel))). simpl Execute_node.
    rewrite !(Execute_S _ _ (S fuel) (Compound _)). simpl Execute_node.
    by rewrite exec_statements_sentinel.
  - intros v c1 w1 He.
    rewrite (Execute_S _ _ (S (S fuel))). simpl Execute_node.
    rewrite (Execute_S _ _ (S fuel) (Compound _)). simpl Execute_node.
    rewrite (Execute_S _ _ fuel (Return e)). simpl Execute_node.
    rewrite He, !bind_Ok. simpl.
    rewrite bool_decide_eq_true_2 by (rewrite lookup_insert_eq; eauto).
    rewrite bind_Ok. simpl. by rewrite lookup_insert_eq.
Qed.

(** ** Conversion to a string, and printing *)

Lemma Stringify_String fuel a closure w r closure' w' :
  Execute2 (S fuel) (Stringify a) closure w = Ok (r, closure', w') ->
  exists s, r = Some (String s).
Proof.
  rewrite Execute_S. simpl Execute_node. unfold Stringify_Execute.
  unfold mbind, Result_bind.
  intros H. repeat (case_match; simplify_eq/=; try done); eauto.
Qed.

(** X17.  [str] gives a string, and applying it again changes nothing:
    [str(str(a))] runs like [str(a)], with the same result, scope and
    world, or the same error. *)
Theorem Stringify_idempotent fuel a closure w :
  Execute classes address_repr (S (S fuel)) (Stringify (Stringify a))
    closure w =
  Execute classes address_repr (S fuel) (Stringify a) closure w
  /\ forall r closure' w',
       Execute classes address_repr (S fuel) (Stringify a) closure w =
         Ok (r, closure', w') ->
       exists s, r = Some (String s).
Proof.
  split; [|intros r c' w'; apply Stringify_String].
  rewrite (Execute_S _ _ (S fuel)). simpl Execute_node.
  unfold Stringify_Execute at 1.
  destruct (Execute2 (S fuel) (Stringify a) closure w)
    as [[[r c1] w1]|err] eqn:E; [|done].
  destruct (Stringify_String _ _ _ _ _ _ _ E) as [s ->].
  by rewrite bind_Ok.
Qed.

(** What [Print] writes for a value; for an instance, when its class has
    no [__str__]. *)
Definition printed (v : ObjectHolder) : string :=
  match v with
  | Datatypes.None => "None"
  | Some (Number n) => pretty n
  | Some (String s) => s
  | Some (Bool b) => if b then "True" else "False"
  | Some (ClassRef c) => "Class " +:+ GetName (classes c)
  | Some (Instance this) => address_repr this
  end.

Fixpoint join_with_spaces (texts : list string) : string :=
  match texts with
  | [] => ""
  | [t] => t
  | t :: more => t +:+ " " +:+ join_with_spaces more
  end.

Lemma append_cons x (a b : string) :
  String.String x a +:+ b = String.String x (a +:+ b).
Proof. reflexivity. Qed.

Lemma append_assoc (a b c : string) : (a +:+ b) +:+ c = a +:+ (b +:+ c).
Proof.
  induction a as [|x a IH]; [done|]. by rewrite !append_cons, IH.
Qed.

Lemma append_nil_r (a : string) : a +:+ "" = a.
Proof.
  induction a as [|x a IH]; [done|]. by rewrite append_cons, IH.
Qed.

Lemma write_write w a b : write (write w a) b = write w (a +:+ b).
Proof. unfold write. simpl. by rewrite append_assoc. Qed.

Lemma write_nil w : write w "" = w.
Proof. destruct w. unfold write. simpl. by rewrite append_nil_r. Qed.

Lemma PrintObject_value exec v w :
  is_instance (Some v) = false ->
  PrintObject classes address_repr exec v w = Ok (printed (Some v), w).
Proof. by destruct v as [| |[]| |]. Qed.

Lemma print_args_variables fuel xs vs (closure : Closure) w :
  Forall2 (fun x v => closure !! x = Some v /\ is_instance v = false)
    xs vs ->
  print_args classes address_repr (Execute2 (S fuel))
    (map (fun x => VariableValue [x]) xs) closure w =
  Ok (closure, write w (join_with_spaces (map printed vs))).
Proof.
  intros H. revert w.
  induction H as [|x v xs vs [Hx Hv] Hrest IH]; intros w.
  - simpl. by rewrite write_nil.
  - cbn [map print_args].
    rewrite Execute_S. simpl Execute_node. rewrite Hx. simpl.
    rewrite ?bind_Ok. simpl.
    assert ((match v with
             | Some object =>
                 PrintObject classes address_repr (Execute2 (S fuel))
                   object w
             | Datatypes.None => Ok ("None", w)
             end) = Ok (printed v, w)) as ->.
    { destruct v as [o|]; [|done]. by apply PrintObject_value. }
    rewrite bind_Ok. cbn beta iota. rewrite IH.
    destruct Hrest as [|x' v' xs' vs' Hx' Hrest'].
    + simpl. by rewrite write_nil.
    + cbn [map]. by rewrite !write_write.
Qed.

(** X18.  What [print] writes.  For arguments that are variables bound
    to values other than instances, [print] appends to the output the
    texts of the values, in order, with one space between two of them and
    a line end behind the last; it leaves the scope as it is and gives
    the empty handle.  With no argument it writes the line end. *)
Theorem Print_format fuel xs vs (closure : Closure) w :
  Forall2 (fun x v => closure !! x = Some v /\ is_instance v = false)
    xs vs ->
  Execute classes address_repr (S (S fuel))
    (Print (map (fun x => VariableValue [x]) xs)) closure w =
  Ok (Datatypes.None, closure,
      write w (join_with_spaces (map printed vs) +:+ parse.endl)).
Proof.
  intros H. rewrite Execute_S. simpl Execute_node.
  rewrite (print_args_variables fuel xs vs) by done.
  rewrite bind_Ok. simpl. by rewrite write_write.
Qed.

(** ** Fields and scopes *)

(** X19.  Instances are shared.  A field assignment through the variable
    [x] gives the value assigned, and the field is read back with that
    value through every variable [y] bound to the same instance. *)
Theorem FieldAssignment_shared fuel fuel' x y fld rv (closure : Closure) w
    this v (closure2 : Closure) w2 inst2 :
  closure !! x = Some (Some (Instance this)) ->
  Execute classes address_repr fuel rv closure w = Ok (v, closure2, w2) ->
  heap w2 !! this = Some inst2 ->
  closure2 !! y = Some (Some (Instance this)) ->
  let w3 := set_fields w2 this inst2 (<[fld := v]> (fields_ inst2)) in
  Execute classes address_repr (S fuel) (FieldAssignment [x] fld rv)
    closure w = Ok (v, closure2, w3)
  /\ Execute classes address_repr (S fuel') (VariableValue [y; fld])
       closure2 w3 = Ok (v, closure2, w3).
Proof.
  intros Hx Hrv Hinst Hy w3. split.
  - rewrite Execute_S. simpl Execute_node.
    unfold FieldAssignment_Execute, VariableValue_Execute.
    rewrite Hx. simpl. rewrite ?bind_Ok. simpl.
    rewrite Hrv, ?bind_Ok. simpl.
    unfold instance_at. by rewrite Hinst, ?bind_Ok.
  - rewrite Execute_S. simpl Execute_node.
    unfold VariableValue_Execute. rewrite Hy. simpl.
    unfold instance_at, w3, set_fields. simpl.
    rewrite list_lookup_insert_eq by (by eapply lookup_lt_Some).
    rewrite ?bind_Ok. simpl. rewrite lookup_insert_eq.
    by rewrite ?bind_Ok.
Qed.

(** X20.  No node unbinds a name: the names bound in the scope before a
    statement runs are bound in the scope it leaves. *)
Theorem Execute_never_unbinds fuel s (closure : Closure) w r
    (closure' : Closure) w' :
  Execute classes address_repr fuel s closure w = Ok (r, closure', w') ->
  dom closure ⊆ dom closure'.
Proof.
  intros H k. rewrite !elem_of_dom.
  by eapply Execute_keeps.
Qed.

End MoreEvaluatorFacts.

Section MoreEvaluatorExamples.

Import runtime ast programs.

(** Two methods named [area]: the second one is found. *)
Definition first_area : Method :=
  mkMethod "area" [] (MethodBody (Compound [Return (VariableValue ["a"])])).

Definition second_area : Method :=
  mkMethod "area" [] (MethodBody (Compound [Return (VariableValue ["b"])])).

Lemma GetMethod_resolution_witness :
  GetMethod (mkClass "Shape" [first_area; second_area] (Some Point)) "area"
  = Some second_area.
Proof.
  apply (proj1 (GetMethod_resolution "Shape" [first_area; second_area]
                  (Some Point) "area")
           [first_area] second_area []).
  - reflexivity.
  - reflexivity.
  - apply List.Forall_nil.
Defined.

Lemma comparators_on_values_witness :
  Greater classes (Execute classes address_repr 10) (Some (String "pear")) (Some (String "apple"))
    empty_world =
  Less classes (Execute classes address_repr 10) (Some (String "apple")) (Some (String "pear"))
    empty_world.
Proof.
  apply (proj1 (comparators_on_values classes (Execute classes address_repr 10)
                  (Some (String "pear")) (Some (String "apple"))
                  empty_world eq_refl)).
Defined.

(** Two empty handles: equal, and not comparable with [<=]. *)
Lemma comparators_mismatch_witness :
  LessOrEqual classes (Execute classes address_repr 10) Datatypes.None Datatypes.None empty_world =
  Throw (RuntimeError "Cannot compare objects for less").
Proof.
  apply (proj1 (proj2 (proj2 (comparators_mismatch classes (Execute classes address_repr 10)
                                Datatypes.None Datatypes.None empty_world
                                eq_refl eq_refl)))).
Defined.

(** [return n] in front of a division by zero. *)
Lemma Return_is_assignment_witness :
  run 4 (MethodBody (Compound
           [Return (VariableValue ["n"]);
            Div (VariableValue ["n"]) (VariableValue ["zero"])]))
      scope_p empty_world =
  Ok (Some (Number 3), <["returned_value" := Some (Number 3)]> scope_p,
      empty_world).
Proof.
  apply (proj2 (Return_is_assignment classes address_repr 1 []
                  (VariableValue ["n"])
                  [Div (VariableValue ["n"]) (VariableValue ["zero"])]
                  scope_p empty_world)).
  reflexivity.
Defined.

Lemma Stringify_idempotent_witness :
  exists s, Some (String "3") = Some (String s).
Proof.
  apply (proj2 (Stringify_idempotent classes address_repr 1
                  (VariableValue ["n"]) scope_p empty_world)
           (Some (String "3")) scope_p empty_world).
  reflexivity.
Defined.

(** A scope with a number, a string, a truth value and the empty
    handle. *)
Definition scope_values : Closure :=
  {["n" := Some (Number 3); "s" := Some (String "a b");
    "t" := Some (Bool true); "e" := Datatypes.None]}.

Lemma Print_format_witness :
  run 2 (Print [VariableValue ["n"]; VariableValue ["s"];
                VariableValue ["t"]; VariableValue ["e"]])
      scope_values empty_world =
  Ok (Datatypes.None, scope_values,
      mkWorld [] ("3 a b True None" +:+ parse.endl)).
Proof.
  apply (Print_format classes address_repr 0 ["n"; "s"; "t"; "e"]
           [Some (Number 3); Some (String "a b"); Some (Bool true);
            Datatypes.None] scope_values empty_world).
  repeat (apply List.Forall2_cons; [split; reflexivity|]).
  apply List.Forall2_nil.
Defined.

(** [p] and [q] are bound to the same point. *)
Definition scope_pq : Closure :=
  {["p" := Some (Instance 0%nat); "q" := Some (Instance 0%nat);
    "n" := Some (Number 3)]}.

Lemma FieldAssignment_shared_witness :
  run 2 (FieldAssignment ["p"] "y" (VariableValue ["n"])) scope_pq one_point
  = Ok (Some (Number 3), scope_pq,
        set_fields one_point 0 point3
          (<["y" := Some (Number 3)]> (fields_ point3)))
  /\ run 1 (VariableValue ["q"; "y"]) scope_pq
       (set_fields one_point 0 point3
          (<["y" := Some (Number 3)]> (fields_ point3)))
     = Ok (Some (Number 3), scope_pq,
           set_fields one_point 0 point3
             (<["y" := Some (Number 3)]> (fields_ point3))).
Proof.
  apply (FieldAssignment_shared classes address_repr 1 0 "p" "q" "y"
           (VariableValue ["n"]) scope_pq one_point 0%nat
           (Some (Number 3)) scope_pq one_point point3);
    reflexivity.
Defined.

Lemma Execute_never_unbinds_witness :
  dom scope_p ⊆ dom (<["m" := Some (Number 3)]> scope_p).
Proof.
  apply (Execute_never_unbinds classes address_repr 2
           (Assignment "m" (VariableValue ["n"])) scope_p empty_world
           (Some (Number 3)) (<["m" := Some (Number 3)]> scope_p)
           empty_world).
  reflexivity.
Defined.

End MoreEvaluatorExamples.

(** * Invariants of the token stream and of execution *)

Section TokenStreamInvariant.

Import parse layout.

Variable special : ascii -> bool.
Variable comparison : ascii -> bool.
Variable keywords : string -> option Token.

Lemma IgnoreEmptyRawsAndComments_token lx lx1 :
  IgnoreEmptyRawsAndComments lx = Ok lx1 ->
  current_token_ lx1 = current_token_ lx.
Proof.
  remember (length (input_ lx)) as k eqn:Hk.
  revert lx Hk. induction (lt_wf k) as [k _ IH]. intros lx ->.
  rewrite IgnoreEmptyRawsAndComments_unfold.
  pose proof (count_spaces_length (input_ lx)) as Hc.
  destruct (count_spaces (input_ lx)) as [n inp]; simpl in Hc.
  destruct (peek_is inp NL) eqn:E1.
  { destruct inp as [|c inp]; [done|]. simpl in *. intros H.
    refine (IH _ _ (with_input lx inp) eq_refl H). simpl. lia. }
  destruct (peek_is inp "#") eqn:E2.
  { destruct inp as [|c inp]; [done|]. simpl in *.
    pose proof (getline_length (c :: inp)) as Hg. simpl in Hg.
    rewrite E1 in Hg |- *.
    pose proof (getline_length inp). intros H'.
    refine (IH _ _ (with_input lx (getline inp)) eq_refl H').
    simpl. lia. }
  destruct (Nat.eqb (n mod 2) 1); [done|].
  by intros [= <-].
Qed.

Lemma Tokenize_after_layout_resolution next lx t lx' :
  (forall name, keywords name <> Some token_type.Newline) ->
  current_token_ lx = token_type.Newline ->
  peek_is (input_ lx) " " = false -> peek_is (input_ lx) NL = false ->
  peek_is (input_ lx) "#" = false ->
  Tokenize special comparison keywords next lx = Ok (t, lx') ->
  t <> token_type.Newline.
Proof.
  intros Hkw Hcur Hsp Hnl Hhash H.
  unfold Tokenize in H. rewrite Hcur in H.
  destruct (input_ lx) as [|c r]; simpl in *.
  { unfold emit in H. by simplify_eq. }
  rewrite Hsp in H. simpl in H. rewrite Hnl, Hhash in H.
  unfold emit_parsed, emit, ParseNumber, ParseStringConstant,
    ParseComparisonOperand, ParseName, mbind, Result_bind in H.
  simpl in H.
  repeat (case_match; simplify_eq/=; try done).
  intros ->. by eapply Hkw.
Qed.

(** X21.  No empty line reaches the client.  When the keyword table
    holds no [Newline], the token that follows a [Newline] is never a
    [Newline]; and the first token, which the constructor reads with
    [Newline] as the current token, is not a [Newline] either. *)
Theorem Newline_never_repeated :
  (forall name, keywords name <> Some token_type.Newline) ->
  (forall lx t lx',
     CurrentToken lx = token_type.Newline ->
     NextToken special comparison keywords lx = Ok (t, lx') ->
     t <> token_type.Newline)
  /\ (forall inp lx,
        Lexer_new special comparison keywords inp = Ok lx ->
        CurrentToken lx <> token_type.Newline).
Proof.
  intros Hkw.
  assert (Hstep : forall lx t lx',
            CurrentToken lx = token_type.Newline ->
            NextToken special comparison keywords lx = Ok (t, lx') ->
            t <> token_type.Newline).
  { intros lx t lx' Hcur H.
    rewrite NextToken_after_Newline in H by done.
    destruct (IgnoreEmptyRawsAndComments lx) as [lx1|e] eqn:E; [|done].
    rewrite bind_Ok in H.
    pose proof (IgnoreEmptyRawsAndComments_token _ _ E) as Htok.
    apply IgnoreEmptyRawsAndComments_stops in E as (Hsp & Hnl & Hhash).
    destruct (negb _).
    - unfold ParseIndentOrDedent, mbind, Result_bind in H.
      repeat (case_match; simplify_eq/=; try done).
    - eapply Tokenize_after_layout_resolution in H; try done.
      by rewrite Htok. }
  split; [exact Hstep|].
  intros inp lx H. unfold Lexer_new in H.
  destruct (IgnoreInitialComments inp) as [inp1|e]; [|done].
  rewrite bind_Ok in H.
  destruct (NextToken _ _ _ _) as [[t lx1]|e] eqn:E; [|done].
  rewrite bind_Ok in H. injection H as <-.
  pose proof (NextToken_current _ _ _ _ _ _ E) as Hcur.
  unfold CurrentToken. rewrite Hcur.
  eapply Hstep; [|exact E]. done.
Qed.

End TokenStreamInvariant.

Section OutputInvariant.

Import runtime ast.

Variable classes : ClassId -> Class.
Variable address_repr : nat -> string.

(** The output of [w'] is the output of [w] with some text behind it. *)
Definition appends (w w' : World) : Prop :=
  exists text, output w' = output w +:+ text.

Lemma appends_refl w : appends w w.
Proof. exists ""%string. by rewrite append_nil_r. Qed.

Lemma appends_trans w1 w2 w3 :
  appends w1 w2 -> appends w2 w3 -> appends w1 w3.
Proof.
  intros [t1 E1] [t2 E2]. exists (t1 +:+ t2).
  by rewrite E2, E1, append_assoc.
Qed.

Lemma appends_write_r w w1 text : appends w w1 -> appends w (write w1 text).
Proof.
  intros H. eapply appends_trans; [exact H|]. by exists text.
Qed.

Lemma appends_set_fields_r w w1 this inst fields :
  appends w w1 -> appends w (set_fields w1 this inst fields).
Proof.
  intros H. eapply appends_trans; [exact H|].
  exists ""%string. simpl. by rewrite append_nil_r.
Qed.

Lemma appends_new_r w w1 inst :
  appends w w1 -> appends w (mkWorld (heap w1 ++ [inst]) (output w1)).
Proof.
  intros H. eapply appends_trans; [exact H|].
  exists ""%string. simpl. by rewrite append_nil_r.
Qed.

Section Step.

Variable exec : Statement -> Closure -> World -> Outcome.

Hypothesis exec_appends :
  forall s (closure : Closure) w r (closure' : Closure) w',
    exec s closure w = Ok (r, closure', w') -> appends w w'.

Ltac cases H :=
  unfold mbind, Result_bind in H;
  repeat (case_match; simplify_eq/=; try done).

Ltac chain :=
  solve
    [ apply appends_refl
    | eassumption
    | eapply appends_trans; [eassumption | chain]
    | apply appends_write_r; chain
    | apply appends_set_fields_r; chain
    | apply appends_new_r; chain ].

Lemma Call_appends this method args w r w' :
  Call classes exec this method args w = Ok (r, w') -> appends w w'.
Proof.
  unfold Call. intros H. cases H;
    match goal with
    | E : exec _ _ _ = Ok _ |- _ => by apply exec_appends in E
    end.
Qed.

Lemma PrintObject_appends object w text w' :
  PrintObject classes address_repr exec object w = Ok (text, w') ->
  appends w w'.
Proof.
  unfold PrintObject. intros H. cases H; try apply appends_refl.
  match goal with
  | E : Call _ _ _ _ _ _ = Ok _ |- _ => by apply Call_appends in E
  end.
Qed.

Lemma Equal_appends lhs rhs w b w' :
  Equal classes exec lhs rhs w = Ok (b, w') -> appends w w'.
Proof.
  unfold Equal. intros H. cases H; try apply appends_refl.
  match goal with
  | E : Call _ _ _ _ _ _ = Ok _ |- _ => by apply Call_appends in E
  end.
Qed.

Lemma Less_appends lhs rhs w b w' :
  Less classes exec lhs rhs w = Ok (b, w') -> appends w w'.
Proof.
  unfold Less. intros H. cases H; try apply appends_refl.
  match goal with
  | E : Call _ _ _ _ _ _ = Ok _ |- _ => by apply Call_appends in E
  end.
Qed.

Lemma Greater_appends lhs rhs w b w' :
  Greater classes exec lhs rhs w = Ok (b, w') -> appends w w'.
Proof.
  unfold Greater, mbind, Result_bind. intros H.
  destruct (Less _ _ _ _ _) as [p|] eqn:E1; [|done]. destruct p as [l w1].
  apply Less_appends in E1. destruct l; [by simplify_eq|].
  destruct (Equal _ _ _ _ _) as [p|] eqn:E2; [|done]. destruct p as [e w2].
  apply Equal_appends in E2. simplify_eq. chain.
Qed.

Lemma compare_appends cmp lhs rhs w b w' :
  compare classes exec cmp lhs rhs w = Ok (b, w') -> appends w w'.
Proof.
  destruct cmp; simpl; intros H.
  - by eapply Equal_appends.
  - by eapply Less_appends.
  - unfold NotEqual, mbind, Result_bind in H.
    destruct (Equal _ _ _ _ _) as [p|] eqn:E; [|done]. destruct p.
    apply Equal_appends in E. by simplify_eq.
  - by eapply Greater_appends.
  - unfold LessOrEqual, mbind, Result_bind in H.
    destruct (Greater _ _ _ _ _) as [p|] eqn:E; [|done]. destruct p.
    apply Greater_appends in E. by simplify_eq.
  - unfold GreaterOrEqual, mbind, Result_bind in H.
    destruct (Less _ _ _ _ _) as [p|] eqn:E; [|done]. destruct p.
    apply Less_appends in E. by simplify_eq.
Qed.

Lemma read_fields_appends ids object w r w' :
  read_fields object ids w = Ok (r, w') -> appends w w'.
Proof.
  revert object w. induction ids as [|i ids IH]; intros object w H;
    simpl in H.
  - simplify_eq. apply appends_refl.
  - destruct object as [[| | | |this]|]; try done.
    unfold mbind, Result_bind in H.
    destruct (instance_at w this) as [inst|] eqn:Ei; [|done].
    destruct (fields_ inst !! i) as [value|].
    + by eapply IH.
    + apply IH in H. eapply appends_trans; [|exact H].
      apply appends_set_fields_r, appends_refl.
Qed.

Lemma VariableValue_appends ids (closure : Closure) w r (closure' : Closure)
    w' :
  VariableValue_Execute ids closure w = Ok (r, closure', w') -> appends w w'.
Proof.
  unfold VariableValue_Execute. intros H.
  destruct ids as [|i ids]; [done|].
  destruct (closure !! i) as [object|]; [|done].
  unfold mbind, Result_bind in H.
  destruct (read_fields object ids w) as [[v w1]|] eqn:E; [|done].
  simplify_eq. by eapply read_fields_appends.
Qed.

Lemma exec_args_appends args (closure : Closure) w vs (closure' : Closure) w' :
  exec_args exec args closure w = Ok (vs, closure', w') -> appends w w'.
Proof.
  revert closure w vs closure' w'.
  induction args as [|a args IH]; intros closure w vs closure' w' H;
    simpl in H.
  - simplify_eq. apply appends_refl.
  - unfold mbind, Result_bind in H.
    destruct (exec a closure w) as [[[v c1] w1]|] eqn:E1; [|done].
    destruct (exec_args exec args c1 w1) as [[[vs' c2] w2]|] eqn:E2;
      [|done].
    simplify_eq. apply exec_appends in E1. apply IH in E2. chain.
Qed.

Lemma print_args_appends args (closure : Closure) w (closure' : Closure) w' :
  print_args classes address_repr exec args closure w = Ok (closure', w') ->
  appends w w'.
Proof.
  revert closure w closure' w'.
  induction args as [|a args IH]; intros closure w closure' w' H;
    simpl in H.
  - simplify_eq. apply appends_refl.
  - unfold mbind at 1, Result_bind at 1 in H.
    destruct (exec a closure w) as [[[v c1] w1]|] eqn:E1; [|done].
    unfold mbind at 1, Result_bind at 1 in H.
    destruct (match v with Some _ => _ | Datatypes.None => _ end)
      as [[text w2]|] eqn:E2; [|done].
    apply exec_appends in E1. apply IH in H.
    assert (appends w1 w2) as Hp.
    { destruct v as [o|]; [by eapply PrintObject_appends|].
      simplify_eq. apply appends_refl. }
    eapply appends_trans; [|exact H].
    destruct args; chain.
Qed.

Lemma exec_statements_appends stmts (closure : Closure) w r
    (closure' : Closure) w' :
  exec_statements exec stmts closure w = Ok (r, closure', w') -> appends w w'.
Proof.
  revert closure w.
  induction stmts as [|a stmts IH]; intros closure w H; simpl in H.
  - simplify_eq. apply appends_refl.
  - unfold mbind, Result_bind in H.
    destruct (exec a closure w) as [[[v c1] w1]|] eqn:E1; [|done].
    apply exec_appends in E1.
    case_bool_decide; [by simplify_eq|]. apply IH in H. chain.
Qed.

Ltac facts :=
  repeat match goal with
    | E : exec _ _ _ = Ok _ |- _ => apply exec_appends in E
    | E : exec_args _ _ _ _ = Ok _ |- _ => apply exec_args_appends in E
    | E : print_args _ _ _ _ _ _ = Ok _ |- _ => apply print_args_appends in E
    | E : exec_statements _ _ _ _ = Ok _ |- _ =>
        apply exec_statements_appends in E
    | E : Call _ _ _ _ _ _ = Ok _ |- _ => apply Call_appends in E
    | E : PrintObject _ _ _ _ _ = Ok _ |- _ => apply PrintObject_appends in E
    | E : compare _ _ _ _ _ _ = Ok _ |- _ => apply compare_appends in E
    | E : VariableValue_Execute _ _ _ = Ok _ |- _ =>
        apply VariableValue_appends in E
    end.

Lemma Execute_node_appends s (closure : Closure) w r (closure' : Closure) w' :
  Execute_node classes address_repr exec s closure w = Ok (r, closure', w') ->
  appends w w'.
Proof.
  intros H. destruct s; simpl in H.
  - (* Assignment *) cases H. facts. chain.
  - (* VariableValue *) facts. chain.
  - (* Print *)
    unfold mbind, Result_bind in H.
    destruct (print_args _ _ _ _ _ _) as [[c1 w1]|] eqn:E; [|done].
    simplify_eq. facts. chain.
  - (* MethodCall *)
    unfold MethodCall_Execute, mbind, Result_bind in H.
    destruct (exec_args _ _ _ _) as [[[vs c1] w1]|] eqn:E1; [|done].
    destruct (exec s c1 w1) as [[[v c2] w2]|] eqn:E2; [|done].
    destruct v as [[| | | |this]|]; try done.
    destruct (Call _ _ _ _ _ _) as [[r' w3]|] eqn:E3; [|done].
    simplify_eq. facts. chain.
  - (* Stringify *)
    unfold Stringify_Execute, mbind, Result_bind in H.
    destruct (exec s closure w) as [[[v c1] w1]|] eqn:E1; [|done].
    repeat (case_match; simplify_eq; try done); facts; chain.
  - (* Add *)
    unfold Add_Execute, mbind, Result_bind in H.
    destruct (exec s1 closure w) as [[[v c1] w1]|] eqn:E1; [|done].
    destruct (exec s2 c1 w1) as [[[v' c2] w2]|] eqn:E2; [|done].
    repeat (case_match; simplify_eq/=; try done); facts; chain.
  - (* Sub *)
    unfold arithmetic in H. cases H; facts; chain.
  - (* Mult *)
    unfold arithmetic in H. cases H; facts; chain.
  - (* Div *)
    unfold arithmetic in H. cases H; facts; chain.
  - (* Compound *) facts. chain.
  - (* Return *) cases H. facts. chain.
  - (* ClassDefinition *) simplify_eq. chain.
  - (* FieldAssignment *)
    unfold FieldAssignment_Execute, mbind, Result_bind in H.
    destruct (VariableValue_Execute _ _ _) as [[[t c1] w1]|] eqn:E1; [|done].
    destruct t as [[| | | |this]|]; try done.
    destruct (exec s c1 w1) as [[[v c2] w2]|] eqn:E2; [|done].
    destruct (instance_at w2 this) as [inst|] eqn:E3; [|done].
    simplify_eq. facts. chain.
  - (* IfElse *)
    unfold mbind, Result_bind in H.
    destruct (exec s1 closure w) as [[[v c1] w1]|] eqn:E1; [|done].
    repeat (case_match; simplify_eq/=; try done); facts; chain.
  - (* Or *)
    unfold mbind, Result_bind in H.
    destruct (exec s1 closure w) as [[[v c1] w1]|] eqn:E1; [|done].
    repeat (case_match; simplify_eq/=; try done); facts; chain.
  - (* And *)
    unfold mbind, Result_bind in H.
    destruct (exec s1 closure w) as [[[v c1] w1]|] eqn:E1; [|done].
    repeat (case_match; simplify_eq/=; try done); facts; chain.
  - (* Not *) cases H. facts. chain.
  - (* Comparison *)
    unfold mbind, Result_bind in H.
    destruct (exec s1 closure w) as [[[v c1] w1]|] eqn:E1; [|done].
    destruct (exec s2 c1 w1) as [[[v' c2] w2]|] eqn:E2; [|done].
    destruct (compare _ _ _ _ _ _) as [[b w3]|] eqn:E3; [|done].
    simplify_eq. facts. chain.
  - (* NewInstance *)
    unfold NewInstance_Execute, mbind, Result_bind in H.
    destruct (GetMethod _ _) as [m|]; [|simplify_eq; chain].
    destruct (negb _); [simplify_eq; chain|].
    destruct (exec_args _ _ _ _) as [[[vs c1] w1]|] eqn:E1; [|done].
    destruct (Call _ _ _ _ _ _) as [[r' w2]|] eqn:E2; [|done].
    apply exec_args_appends in E1. apply Call_appends in E2.
    assert (appends w w2).
    { eapply appends_trans; [|exact E2]. eapply appends_trans; [|exact E1].
      apply appends_new_r, appends_refl. }
    by destruct r'; simplify_eq.
  - (* MethodBody *) cases H; facts; chain.
Qed.

End Step.

(** X22.  Nothing written is taken back.  When a statement has run, the
    output is the output from before with the newly written text behind
    it, whatever the statement is and whatever it calls. *)
Theorem Execute_appends_output fuel s (closure : Closure) w r
    (closure' : Closure) w' :
  Execute classes address_repr fuel s closure w = Ok (r, closure', w') ->
  exists text, output w' = output w +:+ text.
Proof.
  revert s closure w r closure' w'.
  induction fuel as [|fuel IH]; [done|].
  intros s closure w r closure' w' H. rewrite Execute_S in H.
  change (appends w w').
  eapply (Execute_node_appends (Execute classes address_repr fuel));
    [|exact H].
  intros s0 c0 w0 r0 c0' w0' H0. exact (IH _ _ _ _ _ _ H0).
Qed.

End OutputInvariant.

Section ReturnFacts.

Import runtime ast.

Variable classes : ClassId -> Class.
Variable address_repr : nat -> string.

#[local] Arguments Execute : simpl never.

(** X23.  [return] inside [if].  In a method body, a [return e] that
    stands first in the block of an [if] whose condition holds ends the
    method with the value of [e]: the rest of the block, the [else]
    block and the statements behind the [if] are not run. *)
Theorem return_inside_if fuel cond e inner els post (closure : Closure) w
    c (closure1 : Closure) w1 v (closure2 : Closure) w2 :
  Execute classes address_repr (S (S fuel)) cond closure w =
    Ok (c, closure1, w1) ->
  IsTrue c = true ->
  Execute classes address_repr fuel e closure1 w1 = Ok (v, closure2, w2) ->
  Execute classes address_repr (S (S (S (S (S fuel)))))
    (MethodBody
       (Compound (IfElse cond (Compound (Return e :: inner)) els :: post)))
    closure w =
  Ok (v, <["returned_value" := v]> closure2, w2).
Proof.
  intros Hcond Htrue He.
  assert (Hblock :
    Execute classes address_repr (S (S fuel))
      (Compound (Return e :: inner)) closure1 w1 =
    Ok (Datatypes.None, <["returned_value" := v]> closure2, w2)).
  { rewrite Execute_S. simpl Execute_node.
    rewrite (Execute_S _ _ fuel (Return e)). simpl Execute_node.
    rewrite He, !bind_Ok. simpl.
    by rewrite bool_decide_eq_true_2 by (rewrite lookup_insert_eq; eauto). }
  rewrite (Execute_S _ _ (S (S (S (S fuel))))). simpl Execute_node.
  rewrite (Execute_S _ _ (S (S (S fuel)))). simpl Execute_node.
  rewrite (Execute_S _ _ (S (S fuel)) (IfElse _ _ _)). simpl Execute_node.
  rewrite Hcond, bind_Ok. simpl. rewrite Htrue, Hblock, !bind_Ok. simpl.
  rewrite bool_decide_eq_true_2 by (rewrite lookup_insert_eq; eauto).
  rewrite bind_Ok. simpl. by rewrite lookup_insert_eq.
Qed.

(** X24.  The sentinel is tested behind a statement, not in front of it.
    A block that is entered with [returned_value] already bound, as in a
    method that has a formal parameter of that name, runs its first
    statement and nothing else. *)
Theorem Compound_sentinel_bound fuel s post (closure : Closure) w :
  is_Some (closure !! "returned_value") ->
  Execute classes address_repr (S fuel) (Compound (s :: post)) closure w =
  '(_, closure1, w1) ← Execute classes address_repr fuel s closure w;
  Ok (Datatypes.None, closure1, w1).
Proof.
  intros Hbound. rewrite Execute_S. simpl Execute_node.
  destruct (Execute classes address_repr fuel s closure w)
    as [[[v c1] w1]|err] eqn:E; [|done].
  rewrite !bind_Ok. simpl.
  rewrite bool_decide_eq_true_2; [done|].
  by eapply Execute_keeps.
Qed.

End ReturnFacts.

Section InvariantExamples.

Import parse runtime ast programs.

(** Two blank lines in front of [x]: the token behind the [Newline] is
    [x]. *)
Lemma Newline_never_repeated_witness :
  token_type.Id "x" <> token_type.Newline.
Proof.
  assert (Hkw : forall name,
            keyword_to_token name <> Some token_type.Newline).
  { intros name H. unfold keyword_to_token in H.
    apply elem_of_list_to_map_2 in H.
    repeat (apply elem_of_cons in H as [H|H]; [discriminate H|]).
    by apply elem_of_nil in H. }
  apply (proj1 (Newline_never_repeated special_symbols comparison_symbols
                  keyword_to_token Hkw)
           (mkLexer [NL; NL; "x"%char] token_type.Newline 0 0)
           (token_type.Id "x")
           (mkLexer [] (token_type.Id "x") 0 0)).
  - reflexivity.
  - reflexivity.
Defined.

(** Printing [n] in a world that has some output. *)
Lemma Execute_appends_output_witness :
  exists text,
    output (mkWorld [point3] ("out3" +:+ endl)) =
    output (mkWorld [point3] "out") +:+ text.
Proof.
  apply (Execute_appends_output classes address_repr 2
           (Print [VariableValue ["n"]]) scope_p (mkWorld [point3] "out")
           Datatypes.None scope_p (mkWorld [point3] ("out3" +:+ endl))).
  reflexivity.
Defined.

(** [if t: return n] in front of a division by zero. *)
Lemma return_inside_if_witness :
  run 6 (MethodBody (Compound
           [IfElse (VariableValue ["t"])
              (Compound [Return (VariableValue ["n"])]) Datatypes.None;
            Div (VariableValue ["n"]) (VariableValue ["zero"])]))
      scope_values empty_world =
  Ok (Some (Number 3), <["returned_value" := Some (Number 3)]> scope_values,
      empty_world).
Proof.
  apply (return_inside_if classes address_repr 1 (VariableValue ["t"])
           (VariableValue ["n"]) [] Datatypes.None
           [Div (VariableValue ["n"]) (VariableValue ["zero"])]
           scope_values empty_world (Some (Bool true)) scope_values
           empty_world (Some (Number 3)) scope_values empty_world);
    reflexivity.
Defined.

(** A scope as a call makes it for a method with the formal parameter
    [returned_value]. *)
Definition scope_sentinel : Closure :=
  {["self" := Some (Instance 0%nat); "returned_value" := Some (Number 1);
    "n" := Some (Number 3)]}.

Lemma Compound_sentinel_bound_witness :
  run 3 (Compound [Assignment "m" (VariableValue ["n"]);
                   Assignment "k" (VariableValue ["n"])])
      scope_sentinel one_point =
  '(_, closure1, w1) ←
    run 2 (Assignment "m" (VariableValue ["n"])) scope_sentinel one_point;
  Ok (Datatypes.None, closure1, w1).
Proof.
  apply (Compound_sentinel_bound classes address_repr 2
           (Assignment "m" (VariableValue ["n"]))
           [Assignment "k" (VariableValue ["n"])] scope_sentinel one_point).
  vm_compute. eauto.
Defined.

End InvariantExamples.

(** * Termination of the lexer *)

Section LexerTermination.

Import parse layout.

Variable special : ascii -> bool.
Variable comparison : ascii -> bool.
Variable keywords : string -> option Token.

(** What a lexer can still emit without reading: behind a [Newline] the
    layout is resolved anew, elsewhere the pending layout tokens come
    first, and behind a token of a line one [Newline] may be supplied. *)
Definition pending (lx : Lexer) : nat :=
  if bool_decide (current_token_ lx = token_type.Newline)
  then Z.abs_nat (current_indent_ lx) + 1
  else Z.abs_nat (current_indent_ lx)
       + Z.abs_nat (diff_current_prev_indent_ lx)
       + (if is_layout (current_token_ lx) then 0 else 2).

(** A bound on the number of tokens a lexer still returns before
    [Eof]. *)
Definition potential (lx : Lexer) : nat :=
  3 * length (input_ lx) + pending lx.

Lemma count_spaces_exact inp :
  ((count_spaces inp).1 + length (count_spaces inp).2 = length inp)%nat.
Proof.
  induction inp as [|c inp IH]; simpl; [done|].
  destruct (Ascii.eqb c " "); simpl; [|done].
  destruct (count_spaces inp) as [n r]. simpl in *. lia.
Qed.

Lemma IgnoreEmptyRawsAndComments_bound lx lx1 :
  IgnoreEmptyRawsAndComments lx = Ok lx1 ->
  exists m : nat,
    current_indent_ lx1 = Z.of_nat m
    /\ diff_current_prev_indent_ lx1 = Z.of_nat m - current_indent_ lx
    /\ (length (input_ lx1) + 2 * m <= length (input_ lx))%nat.
Proof.
  remember (length (input_ lx)) as k eqn:Hk.
  revert lx Hk. induction (lt_wf k) as [k _ IH]. intros lx ->.
  rewrite IgnoreEmptyRawsAndComments_unfold.
  pose proof (count_spaces_exact (input_ lx)) as Hc.
  destruct (count_spaces (input_ lx)) as [n inp]; simpl in Hc.
  destruct (peek_is inp NL) eqn:E1.
  { destruct inp as [|c inp]; [done|]. simpl in *. intros H.
    assert (length inp < length (input_ lx))%nat as Hlt by lia.
    destruct (IH (length inp) Hlt (with_input lx inp) eq_refl H)
      as (m & H1 & H2 & H3).
    exists m. simpl in *. split_and!; [done|done|lia]. }
  destruct (peek_is inp "#") eqn:E2.
  { destruct inp as [|c inp]; [done|]. simpl in *.
    pose proof (getline_length (c :: inp)) as Hg. simpl in Hg.
    rewrite E1 in Hg |- *. intros H.
    pose proof (getline_length inp) as Hg'.
    assert (length (getline inp) < length (input_ lx))%nat as Hlt by lia.
    destruct (IH (length (getline inp)) Hlt
                (with_input lx (getline inp)) eq_refl H)
      as (m & H1 & H2 & H3).
    exists m. simpl in *. split_and!; [done|done|lia]. }
  destruct (Nat.eqb (n mod 2) 1); [done|].
  intros [= <-]. exists (n / 2)%nat.
  cbn [input_ current_indent_ diff_current_prev_indent_].
  split_and!; [done|done|].
  pose proof (Nat.Div0.mul_div_le n 2). lia.
Qed.

Lemma read_while_length p inp w g rest :
  read_while p inp = (w, (g, rest)) ->
  (length w + length (putback g rest) = length inp)%nat.
Proof.
  revert w g rest. induction inp as [|c inp IH]; intros w g rest H;
    simpl in H.
  - by simplify_eq.
  - destruct (p c).
    + destruct (read_while p inp) as [w' [g' rest']].
      simplify_eq. simpl. rewrite (IH w' g rest eq_refl). done.
    + by simplify_eq.
Qed.

Lemma string_loop_length quote inp str r :
  string_loop quote inp = Ok (str, r) -> (length r < length inp)%nat.
Proof.
  remember (length inp) as k eqn:Hk.
  revert inp str r Hk. induction (lt_wf k) as [k _ IH].
  intros inp str r -> H.
  destruct inp as [|c rest]; [done|]. simpl in H.
  destruct (negb (Ascii.eqb c quote) && negb (Ascii.eqb c BACKSLASH)).
  - unfold mbind, Result_bind in H.
    destruct (string_loop quote rest) as [[str' r']|] eqn:E; [|done].
    simplify_eq. apply (IH (length rest)) in E; simpl; try done; lia.
  - destruct (Ascii.eqb c BACKSLASH).
    + destruct rest as [|e rest']; [done|].
      unfold mbind, Result_bind in H.
      destruct (string_loop quote rest') as [[str' r']|] eqn:E; [|done].
      simplify_eq. apply (IH (length rest')) in E; simpl; try done; lia.
    + simplify_eq. simpl. lia.
Qed.

Lemma string_loop_total quote inp : string_loop quote inp <> Throw OutOfFuel.
Proof.
  remember (length inp) as k eqn:Hk.
  revert inp Hk. induction (lt_wf k) as [k _ IH]. intros inp ->.
  destruct inp as [|c rest]; [done|]. simpl.
  destruct (negb (Ascii.eqb c quote) && negb (Ascii.eqb c BACKSLASH)).
  - unfold mbind, Result_bind.
    assert (length rest < length (c :: rest))%nat as Hlt by (simpl; lia).
    pose proof (IH (length rest) Hlt rest eq_refl) as Hr.
    by destruct (string_loop quote rest) as [[str' r']|[]].
  - destruct (Ascii.eqb c BACKSLASH); [|done].
    destruct rest as [|e rest']; [done|].
    unfold mbind, Result_bind.
    assert (length rest' < length (c :: e :: rest'))%nat as Hlt
      by (simpl; lia).
    pose proof (IH (length rest') Hlt rest' eq_refl) as Hr.
    by destruct (string_loop quote rest') as [[str' r']|[]].
Qed.

(** Each of the four token parsers takes at least one character, and
    none of them runs out of fuel. *)
Lemma ParseNumber_length inp t r :
  ParseNumber special inp = Ok (t, r) -> (length r < length inp)%nat.
Proof.
  unfold ParseNumber. intros H.
  destruct (read_while isdigit inp) as [w [g rest]] eqn:E.
  apply read_while_length in E.
  destruct w as [|d w]; [done|].
  destruct (_ && _); [done|].
  unfold mbind, Result_bind in H.
  destruct (stoi _); [|done]. simplify_eq. simpl in E. lia.
Qed.

Lemma ParseStringConstant_length inp t r :
  ParseStringConstant inp = Ok (t, r) -> (length r < length inp)%nat.
Proof.
  unfold ParseStringConstant. intros H.
  destruct inp as [|c inp]; simpl in H; [done|].
  destruct (_ && _); [done|].
  unfold mbind, Result_bind in H.
  destruct (string_loop c inp) as [[str r']|] eqn:E; [|done].
  apply string_loop_length in E. simplify_eq. simpl. lia.
Qed.

Lemma ParseName_length inp t r :
  ParseName keywords inp = Ok (t, r) -> (length r < length inp)%nat.
Proof.
  unfold ParseName. intros H.
  destruct inp as [|c inp]; simpl in H; [done|].
  destruct (negb _); [done|].
  destruct (read_while is_ident_cont inp) as [w [g rest]] eqn:E.
  apply read_while_length in E.
  destruct (keywords _); simplify_eq; simpl; lia.
Qed.

Lemma ParseComparisonOperand_length inp t r :
  ParseComparisonOperand inp = Ok (t, r) -> (length r < length inp)%nat.
Proof.
  unfold ParseComparisonOperand. intros H.
  destruct inp as [|a [|b inp]]; simpl in H; try done;
    repeat (case_match; simplify_eq/=; try done); lia.
Qed.

Lemma parsers_total inp :
  ParseNumber special inp <> Throw OutOfFuel
  /\ ParseStringConstant inp <> Throw OutOfFuel
  /\ ParseName keywords inp <> Throw OutOfFuel
  /\ ParseComparisonOperand inp <> Throw OutOfFuel.
Proof.
  split_and!.
  - unfold ParseNumber, stoi, mbind, Result_bind.
    repeat (case_match; simplify_eq/=; try done).
  - unfold ParseStringConstant, mbind, Result_bind.
    destruct (get inp) as [g inp1].
    destruct (_ && _); [done|].
    pose proof (string_loop_total (to_char g) inp1).
    by destruct (string_loop _ _) as [[]|[]].
  - unfold ParseName. repeat (case_match; simplify_eq/=; try done).
  - unfold ParseComparisonOperand.
    repeat (case_match; simplify_eq/=; try done).
Qed.

Lemma potential_emit lx r t :
  (potential (with_token (with_input lx r) t) <=
   3 * length r + Z.abs_nat (current_indent_ lx)
   + Z.abs_nat (diff_current_prev_indent_ lx) + 2)%nat.
Proof.
  unfold potential, pending. simpl.
  case_bool_decide; destruct (is_layout t); lia.
Qed.

Lemma emit_parsed_potential lx (inp : list ascii) r t lx' :
  emit_parsed lx r = Ok (t, lx') ->
  (forall t' rest, r = Ok (t', rest) -> (length rest < length inp)%nat) ->
  (potential lx' <
   3 * length inp + Z.abs_nat (current_indent_ lx)
   + Z.abs_nat (diff_current_prev_indent_ lx))%nat.
Proof.
  unfold emit_parsed, emit, mbind, Result_bind. intros H Hlen.
  destruct r as [[t' rest]|]; [|done]. simplify_eq.
  pose proof (Hlen _ _ eq_refl).
  pose proof (potential_emit lx rest t). lia.
Qed.

Lemma Tokenize_potential next lx t lx' :
  Tokenize special comparison keywords next lx = Ok (t, lx') ->
  t <> token_type.Eof ->
  (potential lx' <
   3 * length (input_ lx) + Z.abs_nat (current_indent_ lx)
   + Z.abs_nat (diff_current_prev_indent_ lx)
   + (if is_layout (current_token_ lx) then 0 else 2))%nat.
Proof.
  intros H Ht. unfold Tokenize in H.
  pose proof (IgnoreSpaces_length (input_ lx)) as Hsp.
  destruct (IgnoreSpaces (input_ lx)) as [|c rest] eqn:E0; simpl in H.
  { destruct (is_layout (current_token_ lx)); unfold emit in H;
      simplify_eq.
    unfold potential, pending. simpl. lia. }
  simpl in Hsp.
  assert (Hchar : forall t0,
            (potential (with_token (with_input lx rest) t0) <
             3 * length (input_ lx) + Z.abs_nat (current_indent_ lx)
             + Z.abs_nat (diff_current_prev_indent_ lx))%nat).
  { intros t0. pose proof (potential_emit lx rest t0). lia. }
  destruct (isdigit c).
  { eapply (emit_parsed_potential _ (c :: rest)) in H.
    - simpl in H. lia.
    - intros t' r' Hr. by eapply ParseNumber_length. }
  destruct (_ || _).
  { eapply (emit_parsed_potential _ (c :: rest)) in H.
    - simpl in H. lia.
    - intros t' r' Hr. by eapply ParseStringConstant_length. }
  destruct (Ascii.eqb c EOFc).
  { destruct (is_layout (current_token_ lx)); unfold emit in H;
      simplify_eq.
    specialize (Hchar token_type.Newline). lia. }
  destruct (Ascii.eqb c NL).
  { unfold emit in H. simplify_eq.
    specialize (Hchar token_type.Newline). lia. }
  destruct (Ascii.eqb c "#").
  { unfold mbind at 1, Result_bind at 1 in H.
    destruct (IgnoreEmptyRawsAndComments _) as [lx1|] eqn:E1; [|done].
    pose proof (IgnoreEmptyRawsAndComments_stops _ _ E1) as (_ & _ & Hhash).
    apply IgnoreEmptyRawsAndComments_bound in E1 as (m & Hm & _ & Hlen).
    simpl in Hlen. pose proof (getline_length rest) as Hg.
    assert (Ascii.eqb (to_char (head (input_ lx1))) "#" = false) as Hc.
    { by destruct (input_ lx1). }
    simpl in H. rewrite Hc in H.
    destruct (Ascii.eqb _ EOFc); unfold emit in H; simplify_eq.
    unfold potential, pending. simpl. rewrite Hm, Zabs2Nat.id. lia. }
  destruct (_ && _).
  { unfold emit in H. simplify_eq. specialize (Hchar (token_type.Char "=")).
    lia. }
  destruct (_ && _).
  { eapply (emit_parsed_potential _ (c :: rest)) in H.
    - simpl in H. lia.
    - intros t' r' Hr. by eapply ParseComparisonOperand_length. }
  destruct (special c).
  { unfold emit in H. simplify_eq. specialize (Hchar (token_type.Char c)).
    lia. }
  destruct (is_ident_start c); [|done].
  eapply (emit_parsed_potential _ (c :: rest)) in H.
  - simpl in H. lia.
  - intros t' r' Hr. by eapply ParseName_length.
Qed.

Lemma emit_parsed_total lx r :
  r <> Throw OutOfFuel -> emit_parsed lx r <> Throw OutOfFuel.
Proof. by destruct r as [[]|[]]. Qed.

Lemma Tokenize_total next lx :
  Tokenize special comparison keywords next lx <> Throw OutOfFuel.
Proof.
  rewrite (Tokenize_next_irrelevant _ _ _ next
             (fun _ => Throw (LexerError "unreachable"))).
  unfold Tokenize.
  destruct (get (IgnoreSpaces (input_ lx))) as [g inp].
  destruct (parsers_total (putback g inp)) as (H1 & H2 & H3 & H4).
  repeat (case_match; try done); try (by apply emit_parsed_total).
  pose proof (IgnoreEmptyRawsAndComments_total
                (with_input lx (getline inp))) as Hi.
  destruct (IgnoreEmptyRawsAndComments _) as [lx1|[]]; try done.
  simpl. repeat (case_match; try done).
Qed.

(** Every call of [NextToken] that does not return [Eof] lowers the
    potential. *)
Lemma NextToken_potential lx t lx' :
  NextToken special comparison keywords lx = Ok (t, lx') ->
  t <> token_type.Eof ->
  (potential lx' < potential lx)%nat.
Proof.
  intros H Ht.
  destruct (decide (current_token_ lx = token_type.Eof)) as [Heof|Heof].
  { unfold NextToken in H. simpl in H.
    rewrite bool_decide_eq_true_2 in H by done. by simplify_eq. }
  destruct (decide (current_token_ lx = token_type.Newline)) as [Hnl|Hnl].
  - rewrite NextToken_after_Newline in H by done.
    destruct (IgnoreEmptyRawsAndComments lx) as [lx1|] eqn:E; [|done].
    rewrite bind_Ok in H.
    pose proof (IgnoreEmptyRawsAndComments_token _ _ E) as Htok.
    apply IgnoreEmptyRawsAndComments_bound in E as (m & Hm & Hd & Hlen).
    assert (potential lx = 3 * length (input_ lx)
                           + Z.abs_nat (current_indent_ lx) + 1)%nat as ->.
    { unfold potential, pending. rewrite bool_decide_eq_true_2 by done.
      lia. }
    destruct (negb _) eqn:Ediff.
    + unfold ParseIndentOrDedent, mbind, Result_bind in H.
      repeat (case_match; simplify_eq/=; try done);
        unfold potential, pending; simpl; lia.
    + apply negb_false_iff, Z.eqb_eq in Ediff.
      apply Tokenize_potential in H; [|done].
      rewrite Htok, Hnl, Ediff, Hm, Zabs2Nat.id in H. simpl in H.
      assert (Z.abs_nat (current_indent_ lx) = m) by lia. lia.
  - assert (potential lx =
            3 * length (input_ lx) + Z.abs_nat (current_indent_ lx)
            + Z.abs_nat (diff_current_prev_indent_ lx)
            + (if is_layout (current_token_ lx) then 0 else 2))%nat as ->.
    { unfold potential, pending. rewrite bool_decide_eq_false_2 by done.
      lia. }
    destruct (decide (diff_current_prev_indent_ lx = 0)) as [Hd|Hd].
    + rewrite (NextToken_normal' _ _ _ (fun _ => Throw OutOfFuel)) in H
        by done.
      by apply Tokenize_potential in H.
    + rewrite NextToken_pending in H by done.
      unfold ParseIndentOrDedent, mbind, Result_bind in H.
      repeat (case_match; simplify_eq/=; try done);
        unfold potential, pending; simpl; lia.
Qed.

Lemma NextToken_total lx :
  NextToken special comparison keywords lx <> Throw OutOfFuel.
Proof.
  destruct (decide (current_token_ lx = token_type.Eof)) as [Heof|Heof].
  { unfold NextToken. simpl. by rewrite bool_decide_eq_true_2. }
  destruct (decide (current_token_ lx = token_type.Newline)) as [Hnl|Hnl].
  - rewrite NextToken_after_Newline by done.
    pose proof (IgnoreEmptyRawsAndComments_total lx) as Hi.
    destruct (IgnoreEmptyRawsAndComments lx) as [lx1|[]]; try done.
    rewrite bind_Ok. destruct (negb _).
    + unfold ParseIndentOrDedent, mbind, Result_bind.
      repeat (case_match; simplify_eq/=; try done).
    + apply Tokenize_total.
  - destruct (decide (diff_current_prev_indent_ lx = 0)) as [Hd|Hd].
    + rewrite (NextToken_normal' _ _ _ (fun _ => Throw OutOfFuel)) by done.
      apply Tokenize_total.
    + rewrite NextToken_pending by done.
      unfold ParseIndentOrDedent, mbind, Result_bind.
      repeat (case_match; simplify_eq/=; try done).
Qed.

Lemma token_stream_total fuel lx :
  (potential lx + 1 < fuel)%nat ->
  token_stream special comparison keywords fuel lx <> Throw OutOfFuel
  /\ forall ts,
       token_stream special comparison keywords fuel lx = Ok ts ->
       (length ts <= potential lx + 2)%nat.
Proof.
  revert lx. induction fuel as [|fuel IH]; intros lx Hfuel; [lia|].
  simpl. unfold CurrentToken.
  case_bool_decide as Heof.
  { split; [done|]. intros ts [= <-]. simpl. lia. }
  pose proof (NextToken_total lx) as Htot.
  destruct (NextToken special comparison keywords lx) as [[t lx']|e] eqn:E.
  2:{ split; [by destruct e|done]. }
  rewrite bind_Ok. simpl.
  pose proof (NextToken_current _ _ _ _ _ _ E) as Hcur.
  destruct (decide (t = token_type.Eof)) as [->|Ht].
  - destruct fuel as [|fuel]; [lia|]. simpl. unfold CurrentToken.
    rewrite bool_decide_eq_true_2 by done. rewrite bind_Ok.
    split; [done|]. intros ts [= <-]. simpl. lia.
  - pose proof (NextToken_potential _ _ _ E Ht) as Hpot.
    assert (potential lx' + 1 < fuel)%nat as Hfuel' by lia.
    destruct (IH lx' Hfuel') as [Hne Hlen].
    destruct (token_stream _ _ _ fuel lx') as [ts'|e] eqn:E'.
    + rewrite bind_Ok. split; [done|]. intros ts [= <-]. simpl.
      specialize (Hlen _ eq_refl). lia.
    + rewrite bind_Throw. split; [by destruct e|done].
Qed.

Lemma IgnoreInitialComments_bound inp :
  IgnoreInitialComments inp <> Throw OutOfFuel
  /\ forall inp1,
       IgnoreInitialComments inp = Ok inp1 ->
       (length inp1 <= length inp)%nat.
Proof.
  remember (length inp) as k eqn:Hk.
  revert inp Hk. induction (lt_wf k) as [k _ IH]. intros inp ->.
  rewrite IgnoreInitialComments_unfold. simpl.
  pose proof (IgnoreSpaces_length inp) as Hs.
  destruct (negb _) eqn:E.
  { split; [done|]. by intros inp1 [= <-]. }
  destruct (IgnoreSpaces inp) as [|c rest]; [done|]. simpl in *.
  pose proof (getline_length (c :: rest)) as Hg. simpl in Hg.
  assert (length (if Ascii.eqb c NL then rest else getline rest)
          < length inp)%nat as Hlt.
  { pose proof (getline_length rest). destruct (Ascii.eqb c NL); lia. }
  destruct (IH _ Hlt _ eq_refl) as [H1 H2].
  split; [done|]. intros inp1 H. apply H2 in H. lia.
Qed.

(** X25.  The lexer terminates.  On every input, with whatever tables,
    reading the token stream to its end takes at most
    [3 * length inp + 4] calls: it gives the tokens, or a lexical error
    (or the error of [stoi]), never an endless run of tokens.  The stream
    holds at most [3 * length inp + 3] tokens. *)
Theorem Lex_terminates inp :
  Lex special comparison keywords (3 * length inp + 4) inp
    <> Throw OutOfFuel
  /\ forall fuel ts,
       (3 * length inp + 4 <= fuel)%nat ->
       Lex special comparison keywords fuel inp = Ok ts ->
       (length ts <= 3 * length inp + 3)%nat.
Proof.
  assert (Hall : forall fuel,
            (3 * length inp + 4 <= fuel)%nat ->
            Lex special comparison keywords fuel inp <> Throw OutOfFuel
            /\ forall ts,
                 Lex special comparison keywords fuel inp = Ok ts ->
                 (length ts <= 3 * length inp + 3)%nat).
  { intros fuel Hfuel. unfold Lex, Lexer_new.
    destruct (IgnoreInitialComments_bound inp) as [Hne Hlen].
    destruct (IgnoreInitialComments inp) as [inp1|e] eqn:E0.
    2:{ rewrite !bind_Throw. split; [by destruct e|done]. }
    specialize (Hlen _ eq_refl). rewrite !bind_Ok.
    pose proof (NextToken_total
                  (mkLexer inp1 token_type.Newline 0 0)) as Htot.
    destruct (NextToken _ _ _ _) as [[t lx]|e] eqn:E.
    2:{ rewrite !bind_Throw. split; [by destruct e|done]. }
    rewrite !bind_Ok. simpl.
    destruct (decide (t = token_type.Eof)) as [->|Ht].
    - pose proof (NextToken_current _ _ _ _ _ _ E) as Hcur.
      destruct fuel as [|fuel]; [lia|]. simpl. unfold CurrentToken.
      rewrite bool_decide_eq_true_2 by done.
      split; [done|]. intros ts [= <-]. simpl. lia.
    - apply NextToken_potential in E; [|done].
      unfold potential at 2 in E. unfold pending in E. simpl in E.
      assert (potential lx + 1 < fuel)%nat as Hlt by lia.
      destruct (token_stream_total fuel lx Hlt) as [Hne' Hts].
      split; [done|]. intros ts H. apply Hts in H. lia. }
  split.
  - by apply Hall.
  - intros fuel ts Hfuel. by apply Hall.
Qed.

End LexerTermination.

Section LexerTerminationExamples.

Import parse samples.

Lemma Lex_terminates_witness :
  (length [token_type.Id "x"; token_type.Newline; token_type.Eof] <=
   3 * length (chars "x") + 3)%nat.
Proof.
  apply (proj2 (Lex_terminates special_symbols comparison_symbols
                  keyword_to_token (chars "x"))
           10%nat [token_type.Id "x"; token_type.Newline; token_type.Eof]).
  - simpl. lia.
  - reflexivity.
Defined.

End LexerTerminationExamples.
